(** * Infrastructure configuration validator (motia core)

    A shallow embedding of the step validator and of the
    infrastructure-validator module: the calibration table and
    [getProportionalCpu], the zod schemas for handler, queue and
    infrastructure descriptors, the two refinements attached with
    [superRefine], and the two exported [validateInfrastructureConfig]
    entry points.

    Further parts: the exported [handlerSchema] and [queueSchema]; the
    step schemas and [validateStep] (module [StepValidator]); the
    deployment stream manager of the cloud deployment (module
    [DeploymentStream]); and the validator called with a schema whose
    inspection may raise any value, also one that cannot be described
    (module [AnyCaller]).

    Conventions of the model.
    - A JavaScript number is a [number]: the exact rational value of a
      double, one of the two infinities, or NaN.  Every constant of the
      calibration table is a dyadic rational and is represented exactly;
      the literal [0.1] of the tolerance denotes the double it is read as,
      [3602879701896397 / 2^55].  The subtraction of the tolerance test
      is the subtraction of doubles: the exact difference rounded to the
      nearest double, ties to even ([binary64]).  Inside
      [getProportionalCpu] arithmetic is exact: the rounding of the
      interpolation is outside the model, and so is the sign of zero.
    - A descriptor is plain data ([JsValue]): reading one of its
      properties never runs caller code.  The input schema is the only
      caller-supplied object whose property read may raise.
    - zod (v3) is a dependency of the program; its combinators are
      embedded as parser functions that return a parse status together
      with the issues they emitted, in emission order. *)

From Stdlib Require Import String Ascii List Bool ZArith QArith Qabs Lqa Lia.
From Stdlib Require Import DecimalString.
Import ListNotations.

Local Open Scope string_scope.
Local Open Scope Q_scope.

(** ** JavaScript numbers *)

Inductive number : Type :=
| Fin (q : Q)
| PosInf
| NegInf
| NaN.

Definition Qlt_bool (x y : Q) : bool := negb (Qle_bool y x).

(** [a < b], [a <= b], [a > b] and [a === b] of JavaScript: every
    comparison with NaN is false. *)
Definition num_lt (a b : number) : bool :=
  match a, b with
  | NaN, _ | _, NaN => false
  | Fin x, Fin y => Qlt_bool x y
  | NegInf, NegInf => false
  | NegInf, _ => true
  | PosInf, _ => false
  | Fin _, PosInf => true
  | Fin _, NegInf => false
  end.

Definition num_le (a b : number) : bool :=
  match a, b with
  | NaN, _ | _, NaN => false
  | Fin x, Fin y => Qle_bool x y
  | NegInf, _ => true
  | PosInf, PosInf => true
  | PosInf, _ => false
  | Fin _, PosInf => true
  | Fin _, NegInf => false
  end.

Definition num_gt (a b : number) : bool := num_lt b a.

Definition num_eq (a b : number) : bool :=
  match a, b with
  | Fin x, Fin y => Qeq_bool x y
  | PosInf, PosInf | NegInf, NegInf => true
  | _, _ => false
  end.

Definition num_neg (a : number) : number :=
  match a with
  | Fin x => Fin (- x)
  | PosInf => NegInf
  | NegInf => PosInf
  | NaN => NaN
  end.

Definition num_add (a b : number) : number :=
  match a, b with
  | NaN, _ | _, NaN => NaN
  | Fin x, Fin y => Fin (x + y)
  | PosInf, NegInf | NegInf, PosInf => NaN
  | PosInf, _ | _, PosInf => PosInf
  | NegInf, _ | _, NegInf => NegInf
  end.

Definition num_sub (a b : number) : number := num_add a (num_neg b).

(** Sign of a rational as a number: the result of multiplying an
    infinity by it. *)
Definition scale_inf (positive : bool) (q : Q) : number :=
  if Qeq_bool q 0 then NaN
  else if Bool.eqb positive (Qlt_bool 0 q) then PosInf else NegInf.

Definition num_mul (a b : number) : number :=
  match a, b with
  | NaN, _ | _, NaN => NaN
  | Fin x, Fin y => Fin (x * y)
  | PosInf, Fin y | Fin y, PosInf => scale_inf true y
  | NegInf, Fin y | Fin y, NegInf => scale_inf false y
  | PosInf, PosInf | NegInf, NegInf => PosInf
  | PosInf, NegInf | NegInf, PosInf => NegInf
  end.

Definition num_div (a b : number) : number :=
  match a, b with
  | NaN, _ | _, NaN => NaN
  | Fin x, Fin y => if Qeq_bool y 0 then scale_inf true x else Fin (x / y)
  | Fin _, _ => Fin 0
  | PosInf, Fin y => if Qlt_bool y 0 then NegInf else PosInf
  | NegInf, Fin y => if Qlt_bool y 0 then PosInf else NegInf
  | _, _ => NaN
  end.

(** [Math.abs] *)
Definition num_abs (a : number) : number :=
  match a with
  | Fin x => Fin (Qabs x)
  | PosInf | NegInf => PosInf
  | NaN => NaN
  end.

Definition of_Z (z : Z) : number := Fin (inject_Z z).

(** ** Rounding to a double *)

(** [2^k] for an integer [k] of either sign. *)
Definition pow2 (k : Z) : Q :=
  if (0 <=? k)%Z then inject_Z (2 ^ k) else 1 # Z.to_pos (2 ^ (- k)).

(** [floor (log2 q)] for a positive [q]. *)
Definition floor_log2 (q : Q) : Z :=
  let k := (Z.log2 (Qnum q) - Z.log2 (Zpos (Qden q)))%Z in
  if Qle_bool (pow2 k) q then k else (k - 1)%Z.

(** The integer nearest to a non-negative [q], the even one at a tie. *)
Definition nearest_even (q : Q) : Z :=
  let n := Qnum q in
  let d := Zpos (Qden q) in
  let f := (n / d)%Z in
  let twice := (2 * (n mod d))%Z in
  if (twice <? d)%Z then f
  else if (d <? twice)%Z then (f + 1)%Z
  else if Z.even f then f else (f + 1)%Z.

(** The magnitude of the double nearest to a positive [q]: [q] is
    rounded to a multiple of the spacing of the doubles around it, which is
    [2^(e - 52)] for [2^e <= q < 2^(e + 1)] and [2^(-1074)] below
    [2^(-1022)].  The result reaches [2^1024] when [q] overflows. *)
Definition round_magnitude (q : Q) : Q :=
  let e := Z.max (floor_log2 q) (-1022) in
  let quantum := pow2 (e - 52) in
  inject_Z (nearest_even (q / quantum)) * quantum.

(** Round to nearest, ties to even, of IEEE 754 binary64. *)
Definition binary64 (q : Q) : number :=
  if Qeq_bool q 0 then Fin 0
  else
    let m := round_magnitude (Qabs q) in
    if Qle_bool (pow2 1024) m
    then (if Qle_bool 0 q then PosInf else NegInf)
    else Fin (Qred (if Qle_bool 0 q then m else - m)).

(** [a - b] on doubles. *)
Definition double_sub (a b : number) : number :=
  match num_sub a b with
  | Fin q => binary64 q
  | n => n
  end.

(** ** Calibration table and the proportional CPU resolver *)

(** [AWS_LAMBDA_LIMITS] *)
Module Limits.
Definition MIN_RAM_MB : Z := 128.
Definition MAX_RAM_MB : Z := 10240.
Definition MIN_TIMEOUT_SECONDS : Z := 1.
Definition MAX_TIMEOUT_SECONDS : Z := 900.
End Limits.

(** [AWS_LAMBDA_CPU_RATIO]: the object literal, keys in source order. *)
Definition AWS_LAMBDA_CPU_RATIO : list (Z * Q) :=
  [ (128%Z, 1 # 16); (256%Z, 1 # 8); (512%Z, 1 # 4); (1024%Z, 1 # 2);
    (1536%Z, 3 # 4); (2048%Z, 1); (3008%Z, 3 # 2); (4096%Z, 2);
    (5120%Z, 5 # 2); (6144%Z, 3); (7168%Z, 7 # 2); (8192%Z, 4);
    (9216%Z, 9 # 2); (10240%Z, 5) ].

(** [AWS_LAMBDA_CPU_RATIO[k]] for a numeric key: the property whose name
    is the decimal string of [k]; [None] is [undefined]. *)
Definition ratio_at (k : number) : option Q :=
  match k with
  | Fin q =>
      option_map snd
        (find (fun kv => Qeq_bool q (inject_Z (fst kv))) AWS_LAMBDA_CPU_RATIO)
  | _ => None
  end.

(** An [undefined] entry used in arithmetic behaves as NaN. *)
Definition ratio_num (k : Z) : number :=
  match ratio_at (of_Z k) with
  | Some c => Fin c
  | None => NaN
  end.

(** [.sort((a, b) => a - b)] *)
Fixpoint insert_asc (x : Z) (l : list Z) : list Z :=
  match l with
  | [] => [x]
  | y :: l' => if (x <=? y)%Z then x :: l else y :: insert_asc x l'
  end.

Definition sort_asc (l : list Z) : list Z := fold_right insert_asc [] l.

Definition ramValues : list Z := sort_asc (map fst AWS_LAMBDA_CPU_RATIO).

(** The [for] loop over adjacent calibration points. *)
Fixpoint bracket_loop (ramMb : number) (keys : list Z) : option number :=
  match keys with
  | lower :: ((upper :: _) as rest) =>
      if num_gt ramMb (of_Z lower) && num_lt ramMb (of_Z upper) then
        let lowerCpu := ratio_num lower in
        let upperCpu := ratio_num upper in
        let ratio :=
          num_div (num_sub ramMb (of_Z lower))
                  (num_sub (of_Z upper) (of_Z lower)) in
        Some (num_add lowerCpu (num_mul (num_sub upperCpu lowerCpu) ratio))
      else bracket_loop ramMb rest
  | _ => None
  end.

Definition getProportionalCpu (ramMb : number) : number :=
  match ratio_at ramMb with
  | Some exact => Fin exact
  | None =>
      match bracket_loop ramMb ramValues with
      | Some cpu => cpu
      | None =>
          match hd_error ramValues with
          | Some first =>
              if num_le ramMb (of_Z first) then ratio_num first
              else ratio_num (last ramValues first)
          | None => NaN
          end
      end
  end.

(** Adjacent entries of a list, in order. *)
Definition adjacent {A : Type} (l : list A) : list (A * A) :=
  combine l (tl l).

(** ** Plain JavaScript data *)

#[warnings="-register-all"]
Inductive JsValue : Type :=
| JUndefined
| JNull
| JBool (b : bool)
| JNumber (n : number)
| JString (s : string)
| JArray (items : list JsValue)
| JObject (props : list (string * JsValue)).

(** [obj[key]]: an absent property reads as [undefined]. *)
Fixpoint get_prop (props : list (string * JsValue)) (key : string) : JsValue :=
  match props with
  | [] => JUndefined
  | (k, v) :: rest => if String.eqb k key then v else get_prop rest key
  end.

(** zod's [getParsedType], restricted to plain data. *)
Definition getParsedType (v : JsValue) : string :=
  match v with
  | JUndefined => "undefined"
  | JNull => "null"
  | JBool _ => "boolean"
  | JNumber NaN => "nan"
  | JNumber _ => "number"
  | JString _ => "string"
  | JArray _ => "array"
  | JObject _ => "object"
  end.

(** ** Messages

    A message is the text of a template literal.  Numbers that the
    template interpolates stay symbolic: [Shown n] is the string form of
    the number [n] and [Fixed2 n] is [n.toFixed(2)]. *)

Inductive Piece : Type :=
| Text (s : string)
| Shown (n : number)
| Fixed2 (n : number).

Definition Message : Type := list Piece.

Definition dquote : string :=
  String (Ascii false true false false false true false false) EmptyString.

Definition show_Z (z : Z) : string := NilEmpty.string_of_int (Z.to_int z).

(** ** Issues and parse results of zod *)

Inductive ZodIssueCode : Type :=
| invalid_type
| invalid_enum_value
| too_small
| too_big
| custom.

Record ZodIssue : Type := mkIssue {
  issue_code : ZodIssueCode;
  issue_path : list string;
  issue_message : Message
}.

Inductive ParseReturn (T : Type) : Type :=
| INVALID
| DIRTY (value : T)
| OK (value : T).

Arguments INVALID {T}.
Arguments DIRTY {T} value.
Arguments OK {T} value.

(** The result of [_parse] with the issues added to the context. *)
Definition Parsed (T : Type) : Type := (ParseReturn T * list ZodIssue)%type.

(** A schema, applied to the path of the context and the input data. *)
Definition ZodType (T : Type) : Type := list string -> JsValue -> Parsed T.

Definition parsed_value {T : Type} (r : ParseReturn T) : option T :=
  match r with
  | INVALID => None
  | DIRTY v | OK v => Some v
  end.

(** Message of the default error map for [invalid_type]. *)
Definition invalid_type_issue
    (ctx_path : list string) (expected : string) (v : JsValue) : ZodIssue :=
  mkIssue invalid_type ctx_path
    (match v with
     | JUndefined => [Text "Required"]
     | _ => [Text ("Expected " ++ expected ++ ", received " ++ getParsedType v)]
     end).

(** [util.joinValues] on string options. *)
Definition joinValues (values : list string) : string :=
  String.concat " | " (map (fun s => "'" ++ s ++ "'") values).

Inductive NumberCheck : Type :=
| CheckMin (value : Z) (message : string)
| CheckMax (value : Z) (message : string).

(** One inclusive [min] or [max] check of [ZodNumber]. *)
Definition check_issue
    (ctx_path : list string) (n : number) (c : NumberCheck) : list ZodIssue :=
  match c with
  | CheckMin value message =>
      if num_lt n (of_Z value)
      then [mkIssue too_small ctx_path [Text message]] else []
  | CheckMax value message =>
      if num_gt n (of_Z value)
      then [mkIssue too_big ctx_path [Text message]] else []
  end.

Definition status_of {T : Type} (issues : list ZodIssue) (v : T) : ParseReturn T :=
  match issues with
  | [] => OK v
  | _ :: _ => DIRTY v
  end.

(** [z.number()] followed by [.min]/[.max]: a wrong type aborts, a
    failed check marks the result dirty and keeps the value. *)
Definition z_number (checks : list NumberCheck) : ZodType number :=
  fun ctx_path v =>
    match v with
    | JNumber NaN => (INVALID, [invalid_type_issue ctx_path "number" v])
    | JNumber n =>
        let issues := flat_map (check_issue ctx_path n) checks in
        (status_of issues n, issues)
    | _ => (INVALID, [invalid_type_issue ctx_path "number" v])
    end.

Definition z_string : ZodType string :=
  fun ctx_path v =>
    match v with
    | JString s => (OK s, [])
    | _ => (INVALID, [invalid_type_issue ctx_path "string" v])
    end.

Definition z_enum (values : list string) : ZodType string :=
  fun ctx_path v =>
    match v with
    | JString s =>
        if existsb (String.eqb s) values then (OK s, [])
        else (INVALID,
              [mkIssue invalid_enum_value ctx_path
                 [Text ("Invalid enum value. Expected " ++ joinValues values
                        ++ ", received '" ++ s ++ "'")]])
    | _ => (INVALID, [invalid_type_issue ctx_path (joinValues values) v])
    end.

Definition map_return {A B : Type} (f : A -> B) (r : ParseReturn A) : ParseReturn B :=
  match r with
  | INVALID => INVALID
  | DIRTY v => DIRTY (f v)
  | OK v => OK (f v)
  end.

(** [.optional()] *)
Definition optional {T : Type} (schema : ZodType T) : ZodType (option T) :=
  fun ctx_path v =>
    match v with
    | JUndefined => (OK None, [])
    | _ => let (r, issues) := schema ctx_path v in (map_return Some r, issues)
    end.

Inductive Nullable (T : Type) : Type :=
| Null
| NotNull (v : T).

Arguments Null {T}.
Arguments NotNull {T} v.

(** [.nullable()] *)
Definition nullable {T : Type} (schema : ZodType T) : ZodType (Nullable T) :=
  fun ctx_path v =>
    match v with
    | JNull => (OK Null, [])
    | _ => let (r, issues) := schema ctx_path v in (map_return NotNull r, issues)
    end.

(** [ParseStatus.mergeObjectSync]: one aborted member aborts the object,
    one dirty member makes it dirty; the issues of all members are
    kept. *)
Definition ap {A B : Type} (f : Parsed (A -> B)) (x : Parsed A) : Parsed B :=
  (match fst f, fst x with
   | INVALID, _ | _, INVALID => INVALID
   | OK g, OK a => OK (g a)
   | OK g, DIRTY a | DIRTY g, OK a | DIRTY g, DIRTY a => DIRTY (g a)
   end,
   (snd f ++ snd x)%list).

Definition pure {T : Type} (v : T) : Parsed T := (OK v, []).

(** The member of shape key [key]: parsed at the extended path from
    [data[key]]. *)
Definition field {T : Type}
    (ctx_path : list string) (props : list (string * JsValue))
    (key : string) (schema : ZodType T) : Parsed T :=
  schema (ctx_path ++ [key])%list (get_prop props key).

(** [z.object(shape)] in its default mode: keys outside the shape are
    neither read nor reported. *)
Definition z_object {T : Type}
    (members : list string -> list (string * JsValue) -> Parsed T) : ZodType T :=
  fun ctx_path v =>
    match v with
    | JObject props => members ctx_path props
    | _ => (INVALID, [invalid_type_issue ctx_path "object" v])
    end.

(** An issue added through the refinement context: its path is
    relative to the path of the context. *)
Definition relocate (ctx_path : list string) (i : ZodIssue) : ZodIssue :=
  mkIssue (issue_code i) (ctx_path ++ issue_path i)%list (issue_message i).

(** [.superRefine(callback)]: the callback runs on the parsed value
    unless the inner parse aborted; every issue it adds makes the result
    dirty. *)
Definition superRefine {T : Type}
    (schema : ZodType T) (refinement : T -> list ZodIssue) : ZodType T :=
  fun ctx_path v =>
    match schema ctx_path v with
    | (INVALID, issues) => (INVALID, issues)
    | (DIRTY c, issues) =>
        (DIRTY c, (issues ++ map (relocate ctx_path) (refinement c))%list)
    | (OK c, issues) =>
        let added := map (relocate ctx_path) (refinement c) in
        (status_of added c, (issues ++ added)%list)
    end.

(** ** The schemas of the program *)

Record HandlerConfig : Type := mkHandler {
  ram : option number;
  timeout : option number;
  cpu : option number;
  machineType : option string
}.

Record QueueConfig : Type := mkQueue {
  type : option string;
  visibilityTimeout : option number;
  messageGroupId : option (Nullable string);
  maxRetries : option number;
  retryStrategy : option string
}.

Record InfrastructureConfig : Type := mkInfrastructure {
  handler : option HandlerConfig;
  queue : option QueueConfig
}.

Definition ram_checks : list NumberCheck :=
  [ CheckMin Limits.MIN_RAM_MB
      ("RAM must be at least " ++ show_Z Limits.MIN_RAM_MB ++ " MB");
    CheckMax Limits.MAX_RAM_MB
      ("RAM cannot exceed " ++ show_Z Limits.MAX_RAM_MB ++ " MB") ].

Definition ram_schema : ZodType number := z_number ram_checks.

Definition timeout_checks : list NumberCheck :=
  [ CheckMin Limits.MIN_TIMEOUT_SECONDS
      ("Timeout must be at least " ++ show_Z Limits.MIN_TIMEOUT_SECONDS ++ "s");
    CheckMax Limits.MAX_TIMEOUT_SECONDS
      ("Timeout cannot exceed " ++ show_Z Limits.MAX_TIMEOUT_SECONDS ++ "s") ].

Definition timeout_schema : ZodType number := z_number timeout_checks.

Definition machineType_schema : ZodType string :=
  z_enum ["cpu"; "memory"; "gpu"].

(** [handlerBaseSchema.partial()]: the four members of
    [handlerBaseSchema], each optional ([cpu], optional already, parses
    the same when wrapped once more). *)
Definition handlerBaseSchema_partial : ZodType HandlerConfig :=
  z_object (fun ctx_path props =>
    ap (ap (ap (ap (pure mkHandler)
      (field ctx_path props "ram" (optional ram_schema)))
      (field ctx_path props "timeout" (optional timeout_schema)))
      (field ctx_path props "cpu" (optional (z_number []))))
      (field ctx_path props "machineType" (optional machineType_schema))).

Definition maxRetries_checks : list NumberCheck :=
  [CheckMin 0 "maxRetries cannot be negative"].

Definition maxRetries_schema : ZodType number := z_number maxRetries_checks.

(** [queueSchema.partial()] *)
Definition queueSchema_partial : ZodType QueueConfig :=
  z_object (fun ctx_path props =>
    ap (ap (ap (ap (ap (pure mkQueue)
      (field ctx_path props "type" (optional (z_enum ["standard"; "fifo"]))))
      (field ctx_path props "visibilityTimeout" (optional (z_number []))))
      (field ctx_path props "messageGroupId" (optional (nullable z_string))))
      (field ctx_path props "maxRetries" (optional maxRetries_schema)))
      (field ctx_path props "retryStrategy"
         (optional (z_enum ["none"; "exponential"; "jitter"])))).

(** The [z.object({ handler, queue })] under [infrastructureSchema]. *)
Definition infrastructureShape : ZodType InfrastructureConfig :=
  z_object (fun ctx_path props =>
    ap (ap (pure mkInfrastructure)
      (field ctx_path props "handler" (optional handlerBaseSchema_partial)))
      (field ctx_path props "queue" (optional queueSchema_partial))).

(** [a?.b] *)
Definition chain {A B : Type} (o : option A) (f : A -> option B) : option B :=
  match o with
  | Some a => f a
  | None => None
  end.

(** [0.1]: the double [0x1.999999999999ap-4]. *)
Definition tolerance : number :=
  Fin (3602879701896397 # 36028797018963968).

Definition proportionality_message (c r expectedCpu : number) : Message :=
  [ Text "CPU ("; Shown c; Text " vCPU) is not proportional to RAM (";
    Shown r; Text " MB). Expected approximately "; Fixed2 expectedCpu;
    Text " vCPU" ].

Definition proportionality_check (config : InfrastructureConfig) : list ZodIssue :=
  match chain (handler config) cpu, chain (handler config) ram with
  | Some c, Some r =>
      let expectedCpu := getProportionalCpu r in
      if num_gt (num_abs (double_sub c expectedCpu)) tolerance
      then [mkIssue custom ["handler"; "cpu"]
              (proportionality_message c r expectedCpu)]
      else []
  | _, _ => []
  end.

Definition visibility_message (vt t : number) : Message :=
  [ Text "Visibility timeout ("; Shown vt;
    Text "s) must be greater than handler timeout ("; Shown t;
    Text "s) to prevent premature message redelivery" ].

Definition visibility_check (config : InfrastructureConfig) : list ZodIssue :=
  match chain (queue config) visibilityTimeout, chain (handler config) timeout with
  | Some vt, Some t =>
      if num_le vt t
      then [mkIssue custom ["queue"; "visibilityTimeout"] (visibility_message vt t)]
      else []
  | _, _ => []
  end.

(** [!messageGroupId]: undefined, null and the empty string. *)
Definition falsy_id (m : option (Nullable string)) : bool :=
  match m with
  | Some (NotNull s) => (String.length s =? 0)%nat
  | _ => true
  end.

Definition fifo_check (config : InfrastructureConfig) : list ZodIssue :=
  match chain (queue config) type with
  | Some t =>
      if String.eqb t "fifo" && falsy_id (chain (queue config) messageGroupId)
      then [mkIssue custom ["queue"; "messageGroupId"]
              [Text ("messageGroupId is required when queue type is "
                     ++ dquote ++ "fifo" ++ dquote)]]
      else []
  | None => []
  end.

(** The callback of [infrastructureSchema]'s [superRefine]. *)
Definition infrastructure_refinement (config : InfrastructureConfig) : list ZodIssue :=
  (proportionality_check config ++ visibility_check config ++ fifo_check config)%list.

Definition infrastructureSchema : ZodType InfrastructureConfig :=
  superRefine infrastructureShape infrastructure_refinement.

(** ** The caller-supplied input schema *)

(** What a caller's code raised, when the [catch] blocks can inspect
    it: an [Error] whose [message] is a string that is read without a
    fault, or a value that is not an [Error].  Thrown values whose
    inspection raises in turn are added in [AnyCaller] below, where the
    entry point is stated again for them. *)
Inductive Thrown : Type :=
| ErrorObject (message : string)
| NonError.

Inductive Exc (A : Type) : Type :=
| Ret (a : A)
| Raise (e : Thrown).

Arguments Ret {A} a.
Arguments Raise {A} e.

Definition bind {A B : Type} (m : Exc A) (k : A -> Exc B) : Exc B :=
  match m with
  | Ret a => k a
  | Raise e => Raise e
  end.

Notation "x <- m ;; k" := (bind m (fun x => k))
  (at level 61, m at next level, right associativity).

(** The value of [inputSchema.shape]: a falsy value, an object with its
    own property names, or a truthy primitive, on which the [in]
    operator raises a [TypeError] (with the engine's message). *)
Inductive ShapeValue : Type :=
| ShapeFalsy
| ShapeObject (own : list string)
| ShapePrimitive (typeErrorMessage : string).

(** An input schema: reading [shape] returns a value or raises. *)
Record InputSchema : Type := mkInputSchema {
  shape : Exc ShapeValue
}.

(** The property names every object inherits from [Object.prototype]. *)
Definition Object_prototype : list string :=
  [ "constructor"; "__defineGetter__"; "__defineSetter__"; "hasOwnProperty";
    "__lookupGetter__"; "__lookupSetter__"; "isPrototypeOf";
    "propertyIsEnumerable"; "toString"; "valueOf"; "__proto__";
    "toLocaleString" ].

(** [key in obj]: own and inherited property names of an object made
    by an object literal; a [TypeError] on anything that is not an
    object. *)
Definition js_in (key : string) (s : ShapeValue) : Exc bool :=
  match s with
  | ShapeObject own =>
      Ret (existsb (String.eqb key) own
           || existsb (String.eqb key) Object_prototype)
  | ShapePrimitive m => Raise (ErrorObject m)
  | ShapeFalsy => Raise (ErrorObject "Cannot use 'in' operator")
  end.

Definition shape_falsy (s : ShapeValue) : bool :=
  match s with
  | ShapeFalsy => true
  | _ => false
  end.

(** [error instanceof Error ? error.message : 'Unknown error'] *)
Definition error_description (e : Thrown) : string :=
  match e with
  | ErrorObject m => m
  | NonError => "Unknown error"
  end.

Definition group_issue (m : string) : ZodIssue :=
  mkIssue custom ["queue"; "messageGroupId"] [Text m].

Definition no_schema_message (g : string) : string :=
  "Cannot validate messageGroupId " ++ dquote ++ g ++ dquote
  ++ " - step has no input schema defined".

Definition key_path_message (g : string) : string :=
  "messageGroupId " ++ dquote ++ g ++ dquote
  ++ " must be a simple field path. Nested paths and template expressions are not supported".

Definition not_found_message (g : string) : string :=
  "messageGroupId " ++ dquote ++ g ++ dquote
  ++ " does not exist in step's input schema".

Definition introspection_message (g : string) (e : Thrown) : string :=
  "Failed to validate messageGroupId " ++ dquote ++ g ++ dquote
  ++ " against input schema: " ++ error_description e.

(** [s.includes(c)] for a one-character needle. *)
Fixpoint includes (s : string) (c : ascii) : bool :=
  match s with
  | EmptyString => false
  | String a rest => Ascii.eqb a c || includes rest c
  end.

(** The body of the [try] block. *)
Definition query_shape (inputSchema : InputSchema) (g : string) : Exc (list ZodIssue) :=
  s <- shape inputSchema ;;
  if shape_falsy s then Ret [group_issue (not_found_message g)]
  else
    found <- js_in g s ;;
    Ret (if negb found then [group_issue (not_found_message g)] else []).

(** The callback that [createInfrastructureSchema] adds.  A truthy
    [messageGroupId] is a non-empty string. *)
Definition messageGroupId_refinement
    (inputSchema : option InputSchema) (config : InfrastructureConfig) : list ZodIssue :=
  let id := chain (queue config) messageGroupId in
  if falsy_id id then []
  else
    match id, inputSchema with
    | Some (NotNull g), None => [group_issue (no_schema_message g)]
    | Some (NotNull g), Some schema =>
        if includes g "."%char || includes g "["%char
        then [group_issue (key_path_message g)]
        else
          match query_shape schema g with
          | Ret issues => issues
          | Raise error => [group_issue (introspection_message g error)]
          end
    | _, _ => []
    end.

Definition createInfrastructureSchema
    (inputSchema : option InputSchema) : ZodType InfrastructureConfig :=
  superRefine infrastructureSchema (messageGroupId_refinement inputSchema).

(** ** The entry points *)

(** How [schema.parse(data)] completes: it returns the parsed data, or
    throws a [ZodError] carrying the issues, or lets another thrown value
    through. *)
Inductive Completion (T : Type) : Type :=
| Returned (data : T)
| ThrewZodError (issues : list ZodIssue)
| Threw (error : Thrown).

Arguments Returned {T} data.
Arguments ThrewZodError {T} issues.
Arguments Threw {T} error.

Definition parse {T : Type} (schema : ZodType T) (data : JsValue) : Completion T :=
  match schema [] data with
  | (OK v, _) => Returned v
  | (_, issues) => ThrewZodError issues
  end.

Record InfrastructureValidationError : Type := mkError {
  path : string;
  message : Message
}.

Record InfrastructureValidationResult : Type := mkResult {
  success : bool;
  errors : option (list InfrastructureValidationError)
}.

(** [err.path.length > 0 ? err.path.join('.') : 'infrastructure'] *)
Definition dotted (p : list string) : string :=
  match p with
  | [] => "infrastructure"
  | _ :: _ => String.concat "." p
  end.

Definition to_error (err : ZodIssue) : InfrastructureValidationError :=
  mkError (dotted (issue_path err)) (issue_message err).

(** The [try]/[catch] of [validateInfrastructureConfig], applied to the
    completion of the two statements of the [try] block. *)
Definition catch_all {T : Type} (c : Completion T) : InfrastructureValidationResult :=
  match c with
  | Returned _ => mkResult true None
  | ThrewZodError issues => mkResult false (Some (map to_error issues))
  | Threw error =>
      mkResult false
        (Some [mkError "infrastructure"
                 [Text ("Unexpected validation error: " ++ error_description error)]])
  end.

(** The entry point of the step validator; [stepName] is not used. *)
Definition validateInfrastructureConfig
    (infrastructureConfig : JsValue) (stepName : string)
    (inputSchema : option InputSchema) : InfrastructureValidationResult :=
  catch_all (parse (createInfrastructureSchema inputSchema) infrastructureConfig).

(** The entry point of the infrastructure-validator module; its
    [createInfrastructureSchema] is imported from the sibling module
    [./schemas] and is a parameter here. *)
Module InfrastructureValidator.
Section WithSchemas.
Variable createInfrastructureSchema :
  option InputSchema -> ZodType InfrastructureConfig.

Definition validateInfrastructureConfig
    (infrastructureConfig : JsValue)
    (inputSchema : option InputSchema) : InfrastructureValidationResult :=
  catch_all (parse (createInfrastructureSchema inputSchema) infrastructureConfig).
End WithSchemas.
End InfrastructureValidator.

(** ** Thrown values that resist inspection

    Both [catch] blocks inspect what they caught.  The inner one, and
    the last statement of the outer one, interpolate
    [error instanceof Error ? error.message : 'Unknown error'] into a
    template literal; the outer one tests [error instanceof z.ZodError]
    first.  On a value of [Thrown] these complete.  A caller object can
    throw a value on which they raise in turn: an error whose [message]
    is read through a getter that throws, an error whose message is a
    symbol (the interpolation raises a [TypeError]), a proxy whose
    [getPrototypeOf] trap throws, an instance of [ZodError] whose
    [errors] cannot be mapped.  The definitions of this module repeat
    the callback of [createInfrastructureSchema] and the entry point for
    input schemas that may throw any such value; a call then returns or
    throws. *)

Module AnyCaller.

(** An evaluation completes with a value or throws one. *)
Inductive Result (E A : Type) : Type :=
| Completes (a : A)
| Throws (e : E).

Arguments Completes {E A} a.
Arguments Throws {E A} e.

(** What a [catch] block may have caught:
    - a value it can inspect;
    - a value that is not an instance of [ZodError] and whose
      description raises [raised];
    - an instance of [ZodError]: [errors] is what
      [error.errors.map(...)] of the outer handler does on it, it sees
      the issues or throws; [message] is what the description does on
      it, it reads a string or throws.
    A value that throws itself when inspected is represented by its
    unfolding: a call inspects at most two values. *)
#[warnings="-register-all"]
Inductive Caught : Type :=
| Inspectable (e : Thrown)
| Resisting (raised : Caught)
| ZodErrorInstance (errors : Result Caught (list ZodIssue))
    (message : Result Caught string).

Definition Outcome (A : Type) : Type := Result Caught A.

(** [error instanceof Error ? error.message : 'Unknown error'],
    interpolated. *)
Definition describe (error : Caught) : Outcome string :=
  match error with
  | Inspectable e => Completes (error_description e)
  | Resisting raised => Throws raised
  | ZodErrorInstance _ message => message
  end.

(** The value of [inputSchema.shape]: one of the values of
    [ShapeValue], or a proxy whose [has] trap throws. *)
Inductive CallerShape : Type :=
| Plain (s : ShapeValue)
| Trapped (e : Caught).

(** An input schema: reading [shape] returns a value or throws. *)
Record CallerSchema : Type := mkCallerSchema {
  read_shape : Outcome CallerShape
}.

(** [key in shape] *)
Definition has_key (key : string) (s : CallerShape) : Outcome bool :=
  match s with
  | Plain v =>
      match js_in key v with
      | Ret found => Completes found
      | Raise e => Throws (Inspectable e)
      end
  | Trapped e => Throws e
  end.

Definition is_falsy (s : CallerShape) : bool :=
  match s with
  | Plain v => shape_falsy v
  | Trapped _ => false
  end.

(** The body of the [try] block. *)
Definition query_shape (inputSchema : CallerSchema) (g : string)
  : Outcome (list ZodIssue) :=
  match read_shape inputSchema with
  | Throws e => Throws e
  | Completes s =>
      if is_falsy s then Completes [group_issue (not_found_message g)]
      else
        match has_key g s with
        | Throws e => Throws e
        | Completes found =>
            Completes (if negb found
                       then [group_issue (not_found_message g)] else [])
        end
  end.

(** The callback that [createInfrastructureSchema] adds: what the
    [try] block throws is described in the [catch] block, and what the
    description throws leaves the callback. *)
Definition messageGroupId_refinement
    (inputSchema : option CallerSchema) (config : InfrastructureConfig)
  : Outcome (list ZodIssue) :=
  let id := chain (queue config) messageGroupId in
  if falsy_id id then Completes []
  else
    match id, inputSchema with
    | Some (NotNull g), None => Completes [group_issue (no_schema_message g)]
    | Some (NotNull g), Some schema =>
        if includes g "."%char || includes g "["%char
        then Completes [group_issue (key_path_message g)]
        else
          match query_shape schema g with
          | Completes issues => Completes issues
          | Throws error =>
              match describe error with
              | Completes description =>
                  Completes
                    [group_issue
                       ("Failed to validate messageGroupId " ++ dquote ++ g
                        ++ dquote ++ " against input schema: " ++ description)]
              | Throws raised => Throws raised
              end
          end
    | _, _ => Completes []
    end.

(** [.superRefine(callback)] with a callback that may throw: zod does
    not catch. *)
Definition superRefine {T : Type}
    (schema : ZodType T) (refinement : T -> Outcome (list ZodIssue))
  : list string -> JsValue -> Outcome (Parsed T) :=
  fun ctx_path v =>
    match schema ctx_path v with
    | (INVALID, issues) => Completes (INVALID, issues)
    | (DIRTY c, issues) =>
        match refinement c with
        | Completes added =>
            Completes (DIRTY c, (issues ++ map (relocate ctx_path) added)%list)
        | Throws e => Throws e
        end
    | (OK c, issues) =>
        match refinement c with
        | Completes added =>
            Completes (status_of (map (relocate ctx_path) added) c,
                       (issues ++ map (relocate ctx_path) added)%list)
        | Throws e => Throws e
        end
    end.

Definition createInfrastructureSchema (inputSchema : option CallerSchema)
  : list string -> JsValue -> Outcome (Parsed InfrastructureConfig) :=
  superRefine infrastructureSchema (messageGroupId_refinement inputSchema).

(** How [schema.parse(data)] completes. *)
Inductive Completion (T : Type) : Type :=
| Returned (data : T)
| ThrewZodError (issues : list ZodIssue)
| Threw (error : Caught).

Arguments Returned {T} data.
Arguments ThrewZodError {T} issues.
Arguments Threw {T} error.

Definition parse {T : Type}
    (schema : list string -> JsValue -> Outcome (Parsed T)) (data : JsValue)
  : Completion T :=
  match schema [] data with
  | Throws e => Threw e
  | Completes (OK v, _) => Returned v
  | Completes (_, issues) => ThrewZodError issues
  end.

(** The [try]/[catch] of [validateInfrastructureConfig]: what the
    inspection of the caught value throws leaves the function. *)
Definition catch_all {T : Type} (c : Completion T)
  : Outcome InfrastructureValidationResult :=
  match c with
  | Returned _ => Completes (mkResult true None)
  | ThrewZodError issues => Completes (mkResult false (Some (map to_error issues)))
  | Threw (ZodErrorInstance errors _) =>
      match errors with
      | Completes issues =>
          Completes (mkResult false (Some (map to_error issues)))
      | Throws raised => Throws raised
      end
  | Threw error =>
      match describe error with
      | Completes description =>
          Completes
            (mkResult false
               (Some [mkError "infrastructure"
                        [Text ("Unexpected validation error: " ++ description)]]))
      | Throws raised => Throws raised
      end
  end.

Definition validateInfrastructureConfig
    (infrastructureConfig : JsValue) (stepName : string)
    (inputSchema : option CallerSchema)
  : Outcome InfrastructureValidationResult :=
  catch_all (parse (createInfrastructureSchema inputSchema) infrastructureConfig).

(** An input schema whose thrown values can all be inspected. *)
Definition of_schema (s : InputSchema) : CallerSchema :=
  mkCallerSchema
    match shape s with
    | Ret v => Completes (Plain v)
    | Raise e => Throws (Inspectable e)
    end.

(** What the [try] block throws on a key that reaches it. *)
Definition thrown_by (schema : CallerSchema) : option Caught :=
  match read_shape schema with
  | Throws e => Some e
  | Completes (Trapped e) => Some e
  | Completes (Plain (ShapePrimitive m)) => Some (Inspectable (ErrorObject m))
  | Completes (Plain _) => None
  end.

(** A schema whose [shape] getter throws [e]. *)
Definition throwing (e : Caught) : CallerSchema := mkCallerSchema (Throws e).

End AnyCaller.

Definition errors_of (r : InfrastructureValidationResult)
  : list InfrastructureValidationError :=
  match errors r with
  | Some l => l
  | None => []
  end.

(** Object literals, for examples. *)
Definition num (z : Z) : JsValue := JNumber (of_Z z).
Definition str (s : string) : JsValue := JString s.
Definition obj (props : list (string * JsValue)) : JsValue := JObject props.
Definition z_object_of (keys : list string) : InputSchema :=
  mkInputSchema (Ret (ShapeObject keys)).

(** Descriptors of the examples. *)
Definition descriptor_small_ram : JsValue :=
  obj [ ("handler", obj [("ram", num 64); ("timeout", num 30);
                         ("machineType", str "cpu")]);
        ("queue", obj [("type", str "standard"); ("visibilityTimeout", num 30);
                       ("maxRetries", num 3); ("retryStrategy", str "none")]) ].

Definition descriptor_equal_timeouts : JsValue :=
  obj [ ("handler", obj [("ram", num 2048); ("timeout", num 30);
                         ("machineType", str "cpu")]);
        ("queue", obj [("type", str "standard"); ("visibilityTimeout", num 30);
                       ("maxRetries", num 3); ("retryStrategy", str "none")]) ].

Definition descriptor_longer_visibility : JsValue :=
  obj [ ("handler", obj [("ram", num 2048); ("timeout", num 30);
                         ("machineType", str "cpu")]);
        ("queue", obj [("type", str "standard"); ("visibilityTimeout", num 31);
                       ("maxRetries", num 3); ("retryStrategy", str "none")]) ].



Definition descriptor_bad_machine : JsValue :=
  obj [ ("handler", obj [("timeout", num 30); ("machineType", str "tpu")]);
        ("queue", obj [("visibilityTimeout", num 30)]) ].

Definition descriptor_bad_strategy : JsValue :=
  obj [ ("handler", obj [("timeout", num 30)]);
        ("queue", obj [("visibilityTimeout", num 30);
                       ("retryStrategy", str "linear")]) ].


Definition descriptor_unknown_key : JsValue :=
  obj [ ("handler", obj [("ram", num 2048); ("timeout", num 30);
                         ("machineType", str "cpu")]);
        ("region", str "eu-west-1") ].

Definition descriptor_fractional_retries : JsValue :=
  obj [ ("queue", obj [("type", str "standard"); ("visibilityTimeout", num 60);
                       ("maxRetries", JNumber (Fin (7 # 2)));
                       ("retryStrategy", str "none")]) ].

Definition descriptor_negative_retries : JsValue :=
  obj [ ("queue", obj [("type", str "standard"); ("visibilityTimeout", num 60);
                       ("maxRetries", num (-1)); ("retryStrategy", str "none")]) ].

Definition descriptor_group (g : string) : JsValue :=
  obj [ ("queue", obj [("type", str "fifo"); ("visibilityTimeout", num 60);
                       ("messageGroupId", str g); ("maxRetries", num 3);
                       ("retryStrategy", str "none")]) ].

(** ** Vocabulary of the statements *)

(** [v?.[key]] on plain data. *)
Definition member (v : JsValue) (key : string) : JsValue :=
  match v with
  | JObject props => get_prop props key
  | _ => JUndefined
  end.

(** The typed descriptor that the structural parse of a value yields,
    when no member fails a type or an enum check. *)
Definition structure (v : JsValue) : option InfrastructureConfig :=
  parsed_value (fst (infrastructureShape [] v)).

Definition is_some {A : Type} (o : option A) : bool :=
  match o with
  | Some _ => true
  | None => false
  end.

(** Declared types: an optional number is absent or a number other than
    NaN, an optional enum is absent or one of its values, the grouping
    key is absent, null or a string. *)
Definition opt_number_ok (x : JsValue) : bool :=
  match x with
  | JUndefined => true
  | JNumber NaN => false
  | JNumber _ => true
  | _ => false
  end.

Definition opt_enum_ok (values : list string) (x : JsValue) : bool :=
  match x with
  | JUndefined => true
  | JString s => existsb (String.eqb s) values
  | _ => false
  end.

Definition opt_id_ok (x : JsValue) : bool :=
  match x with
  | JUndefined | JNull | JString _ => true
  | _ => false
  end.

Definition handler_typed (x : JsValue) : bool :=
  match x with
  | JUndefined => true
  | JObject props =>
      opt_number_ok (get_prop props "ram")
      && opt_number_ok (get_prop props "timeout")
      && opt_number_ok (get_prop props "cpu")
      && opt_enum_ok ["cpu"; "memory"; "gpu"] (get_prop props "machineType")
  | _ => false
  end.

Definition queue_typed (x : JsValue) : bool :=
  match x with
  | JUndefined => true
  | JObject props =>
      opt_enum_ok ["standard"; "fifo"] (get_prop props "type")
      && opt_number_ok (get_prop props "visibilityTimeout")
      && opt_id_ok (get_prop props "messageGroupId")
      && opt_number_ok (get_prop props "maxRetries")
      && opt_enum_ok ["none"; "exponential"; "jitter"]
           (get_prop props "retryStrategy")
  | _ => false
  end.

(** Every present member of the descriptor has its declared type. *)
Definition well_typed (v : JsValue) : bool :=
  match v with
  | JObject props =>
      handler_typed (get_prop props "handler")
      && queue_typed (get_prop props "queue")
  | _ => false
  end.

(** The issues of the structural parse: those of the handler members,
    then those of the queue members. *)
Definition field_issues (v : JsValue) : list ZodIssue :=
  snd (infrastructureShape [] v).

Definition opt_checks
    (ctx_path : list string) (checks : list NumberCheck) (o : option number)
  : list ZodIssue :=
  match o with
  | Some n => flat_map (check_issue ctx_path n) checks
  | None => []
  end.

(** The range violations of a typed descriptor. *)
Definition handler_range_issues (c : InfrastructureConfig) : list ZodIssue :=
  (opt_checks ["handler"; "ram"] ram_checks (chain (handler c) ram)
   ++ opt_checks ["handler"; "timeout"] timeout_checks (chain (handler c) timeout))%list.

Definition queue_range_issues (c : InfrastructureConfig) : list ZodIssue :=
  opt_checks ["queue"; "maxRetries"] maxRetries_checks (chain (queue c) maxRetries).

(** Every issue of the four passes on a typed descriptor, in the order
    in which they are emitted. *)
Definition all_passes
    (inputSchema : option InputSchema) (c : InfrastructureConfig) : list ZodIssue :=
  (handler_range_issues c ++ queue_range_issues c
   ++ proportionality_check c ++ visibility_check c ++ fifo_check c
   ++ messageGroupId_refinement inputSchema c)%list.

(** The reported errors at one dotted path. *)
Definition reported_at
    (p : string) (r : InfrastructureValidationResult)
  : list InfrastructureValidationError :=
  filter (fun e => String.eqb (path e) p) (errors_of r).

(** ** Vocabulary of the proofs *)

(** A parse result is coherent when it is valid exactly if it carries no
    issue. *)
Definition coherent {T} (p : Parsed T) : Prop :=
  match fst p with
  | OK _ => snd p = []
  | _ => snd p <> []
  end.

Definition Coherent {T} (s : ZodType T) : Prop := forall p x, coherent (s p x).

Definition schema_issues (s : option InputSchema) (v : JsValue) : list ZodIssue :=
  snd (createInfrastructureSchema s [] v).

Definition js_of_number (o : option number) : JsValue :=
  match o with
  | Some n => JNumber n
  | None => JUndefined
  end.

Definition js_of_string (o : option string) : JsValue :=
  match o with
  | Some s => JString s
  | None => JUndefined
  end.

Definition js_of_id (o : option (Nullable string)) : JsValue :=
  match o with
  | Some (NotNull s) => JString s
  | Some Null => JNull
  | None => JUndefined
  end.

Definition all_at (q : list string) (l : list ZodIssue) : Prop :=
  forall i, In i l -> issue_path i = q.

Definition all_under (k : string) (l : list ZodIssue) : Prop :=
  forall i, In i l -> exists rest, issue_path i = k :: rest.

(** The graph of the piecewise-linear function through the calibration
    points: [c] lies on the segment of [pts] over [q]. *)
Fixpoint on_segments (pts : list (Z * Q)) (q c : Q) : Prop :=
  match pts with
  | (lo, clo) :: rest =>
      match rest with
      | (hi, chi) :: _ =>
          (inject_Z lo <= q <= inject_Z hi /\
           c * (inject_Z hi - inject_Z lo) ==
           clo * (inject_Z hi - inject_Z lo) + (chi - clo) * (q - inject_Z lo))
          \/ on_segments rest q c
      | [] => False
      end
  | [] => False
  end.

Definition piecewise (q c : Q) : Prop :=
  (q <= 128 /\ c == 1 # 16)
  \/ on_segments AWS_LAMBDA_CPU_RATIO q c
  \/ (10240 <= q /\ c == 5).

(** ** Declarative validity of a descriptor *)


Definition queue_member (v : JsValue) (key : string) : JsValue :=
  member (member v "queue") key.

Definition fifo_required_message : string :=
  "messageGroupId is required when queue type is " ++ dquote ++ "fifo" ++ dquote.

Definition is_nil {A : Type} (l : list A) : bool :=
  match l with
  | [] => true
  | _ :: _ => false
  end.

Definition js_is_string (s : string) (x : JsValue) : bool :=
  match x with
  | JString t => String.eqb t s
  | _ => false
  end.

(** Absent, null or the empty string. *)
Definition js_falsy_id (x : JsValue) : bool :=
  match x with
  | JUndefined | JNull => true
  | JString s => (String.length s =? 0)%nat
  | _ => false
  end.








Definition is_nan (n : number) : bool :=
  match n with
  | NaN => true
  | _ => false
  end.

Definition descriptor_fifo_no_key : JsValue :=
  obj [ ("queue", obj [("type", str "fifo"); ("visibilityTimeout", num 60);
                       ("maxRetries", num 3); ("retryStrategy", str "none")]) ].

Definition descriptor_long_timeout : JsValue :=
  obj [ ("handler", obj [("ram", num 1024); ("timeout", num 1000);
                         ("machineType", str "cpu")]) ].

(** ** The exported handler and queue schemas *)

(** A required member: the schema applied as it is; the parsed value is
    recorded as present. *)
Definition present {T : Type} (schema : ZodType T) : ZodType (option T) :=
  fun ctx_path v =>
    let (r, issues) := schema ctx_path v in (map_return Some r, issues).

Definition handlerBaseSchema : ZodType HandlerConfig :=
  z_object (fun ctx_path props =>
    ap (ap (ap (ap (pure mkHandler)
      (field ctx_path props "ram" (present ram_schema)))
      (field ctx_path props "timeout" (present timeout_schema)))
      (field ctx_path props "cpu" (optional (z_number []))))
      (field ctx_path props "machineType" (present machineType_schema))).

(** The callback of [handlerSchema]'s [superRefine]. *)
Definition handler_refinement (h : HandlerConfig) : list ZodIssue :=
  match cpu h, ram h with
  | Some c, Some r =>
      let expectedCpu := getProportionalCpu r in
      if num_gt (num_abs (double_sub c expectedCpu)) tolerance
      then [mkIssue custom ["cpu"] (proportionality_message c r expectedCpu)]
      else []
  | _, _ => []
  end.

Definition handlerSchema : ZodType HandlerConfig :=
  superRefine handlerBaseSchema handler_refinement.

Definition queueSchema : ZodType QueueConfig :=
  z_object (fun ctx_path props =>
    ap (ap (ap (ap (ap (pure mkQueue)
      (field ctx_path props "type" (present (z_enum ["standard"; "fifo"]))))
      (field ctx_path props "visibilityTimeout" (present (z_number []))))
      (field ctx_path props "messageGroupId" (optional (nullable z_string))))
      (field ctx_path props "maxRetries" (present maxRetries_schema)))
      (field ctx_path props "retryStrategy"
         (present (z_enum ["none"; "exponential"; "jitter"])))).

Definition is_returned {T : Type} (c : Completion T) : bool :=
  match c with
  | Returned _ => true
  | _ => false
  end.

Definition is_ok {T : Type} (r : ParseReturn T) : bool :=
  match r with
  | OK _ => true
  | _ => false
  end.


(** A number that is at least [lo]. *)
Definition required_at_least (lo : Z) (x : JsValue) : bool :=
  match x with
  | JNumber n => num_le (of_Z lo) n
  | _ => false
  end.

(** A number other than NaN. *)
Definition required_number (x : JsValue) : bool :=
  match x with
  | JNumber n => negb (is_nan n)
  | _ => false
  end.

Definition required_enum (values : list string) (x : JsValue) : bool :=
  match x with
  | JString s => existsb (String.eqb s) values
  | _ => false
  end.


Definition queue_valid (x : JsValue) : bool :=
  match x with
  | JObject props =>
      required_enum ["standard"; "fifo"] (get_prop props "type")
      && required_number (get_prop props "visibilityTimeout")
      && opt_id_ok (get_prop props "messageGroupId")
      && required_at_least 0 (get_prop props "maxRetries")
      && required_enum ["none"; "exponential"; "jitter"]
           (get_prop props "retryStrategy")
  | _ => false
  end.

Definition handler_cpu_3 : JsValue :=
  obj [("ram", num 2048); ("cpu", num 3); ("timeout", num 30);
       ("machineType", str "cpu")].

Definition handler_ram_128 (c : number) : JsValue :=
  obj [("ram", num 128); ("cpu", JNumber c); ("timeout", num 30);
       ("machineType", str "cpu")].

Definition queue_fifo_no_key : JsValue :=
  obj [("type", str "fifo"); ("visibilityTimeout", num 60);
       ("maxRetries", num 3); ("retryStrategy", str "none")].

(** ** The step validator

    [validateStep] reads of a parse only whether it threw and, from a
    [ZodError], the path and the message of each issue; a schema is
    modelled here by the status of its parse and these two members of the
    issues it emitted.  The callback of [jsonSchema] calls [parse], which
    throws: a parse completes or throws. *)

Module StepValidator.

(** A segment of an issue path: a property name or an array index. *)
Inductive PathKey : Type :=
| Key (name : string)
| Index (i : nat).

Record Issue : Type := mkIssue {
  path : list PathKey;
  message : string
}.

Inductive Status : Type := valid | dirty | aborted.

(** What a parse threw: a [ZodError] with its issues, or anything
    else. *)
Inductive Exception : Type :=
| ZodError (issues : list Issue)
| OtherError.

Inductive Run (A : Type) : Type :=
| Done (a : A)
| Throw (e : Exception).

Arguments Done {A} a.
Arguments Throw {A} e.

Definition and_then {A B : Type} (m : Run A) (k : A -> Run B) : Run B :=
  match m with
  | Done a => k a
  | Throw e => Throw e
  end.

Notation "'do' x <- m ; k" := (and_then m (fun x => k))
  (at level 10, x name, m at level 100, k at level 200).

(** The status of a parse and the issues added to its context. *)
Definition Outcome : Type := (Status * list Issue)%type.

Definition Schema : Type := list PathKey -> JsValue -> Run Outcome.

(** [ParseStatus.mergeArray] and [mergeObjectSync] on two statuses. *)
Definition merge (a b : Status) : Status :=
  match a, b with
  | aborted, _ | _, aborted => aborted
  | dirty, _ | _, dirty => dirty
  | valid, valid => valid
  end.

Definition both (r rs : Outcome) : Outcome :=
  (merge (fst r) (fst rs), (snd r ++ snd rs)%list).

Definition invalid_type (p : list PathKey) (expected : string) (v : JsValue)
  : Issue :=
  mkIssue p
    match v with
    | JUndefined => "Required"
    | _ => "Expected " ++ expected ++ ", received " ++ getParsedType v
    end.

Definition reject (p : list PathKey) (expected : string) (v : JsValue)
  : Run Outcome :=
  Done (aborted, [invalid_type p expected v]).

Definition z_any : Schema := fun _ _ => Done (valid, []).

Definition z_string : Schema :=
  fun p v =>
    match v with
    | JString _ => Done (valid, [])
    | _ => reject p "string" v
    end.

Definition z_boolean : Schema :=
  fun p v =>
    match v with
    | JBool _ => Done (valid, [])
    | _ => reject p "boolean" v
    end.

Definition z_null : Schema :=
  fun p v =>
    match v with
    | JNull => Done (valid, [])
    | _ => reject p "null" v
    end.

(** [z.literal(value)] for a string literal. *)
Definition z_literal (value : string) : Schema :=
  fun p v =>
    match v with
    | JString s =>
        if String.eqb s value then Done (valid, [])
        else Done (aborted,
                   [mkIssue p ("Invalid literal value, expected "
                               ++ dquote ++ value ++ dquote)])
    | _ => Done (aborted,
                 [mkIssue p ("Invalid literal value, expected "
                             ++ dquote ++ value ++ dquote)])
    end.

Definition z_optional (schema : Schema) : Schema :=
  fun p v =>
    match v with
    | JUndefined => Done (valid, [])
    | _ => schema p v
    end.

(** The elements of an array, parsed in order from index [i] on. *)
Fixpoint elements
    (schema : Schema) (p : list PathKey) (i : nat) (items : list JsValue)
  : Run Outcome :=
  match items with
  | [] => Done (valid, [])
  | x :: rest =>
      do r <- schema (p ++ [Index i])%list x;
      do rs <- elements schema p (S i) rest;
      Done (both r rs)
  end.

Definition z_array (schema : Schema) : Schema :=
  fun p v =>
    match v with
    | JArray items => elements schema p O items
    | _ => reject p "array" v
    end.

(** The values of a record, parsed in the enumeration order of the
    keys; a key is a string and passes the key schema. *)
Fixpoint entries
    (schema : Schema) (p : list PathKey) (props : list (string * JsValue))
    (keys : list string) : Run Outcome :=
  match keys with
  | [] => Done (valid, [])
  | k :: rest =>
      do r <- schema (p ++ [Key k])%list (get_prop props k);
      do rs <- entries schema p props rest;
      Done (both r rs)
  end.

Definition z_record (schema : Schema) : Schema :=
  fun p v =>
    match v with
    | JObject props => entries schema p props (map fst props)
    | _ => reject p "object" v
    end.

(** The members of an object, parsed in the order of the shape. *)
Fixpoint members
    (shape : list (string * Schema)) (p : list PathKey)
    (props : list (string * JsValue)) : Run Outcome :=
  match shape with
  | [] => Done (valid, [])
  | (k, schema) :: rest =>
      do r <- schema (p ++ [Key k])%list (get_prop props k);
      do rs <- members rest p props;
      Done (both r rs)
  end.

Inductive UnknownKeys : Type := strip | strict.

(** The keys of the data that the shape does not name, in the
    enumeration order of the data. *)
Definition extraKeys
    (shape : list (string * Schema)) (props : list (string * JsValue))
  : list string :=
  filter (fun k => negb (existsb (String.eqb k) (map fst shape)))
    (map fst props).

Definition unrecognized_keys (p : list PathKey) (keys : list string) : Issue :=
  mkIssue p
    ("Unrecognized key(s) in object: "
     ++ String.concat ", " (map (fun k => "'" ++ k ++ "'") keys)).

(** [z.object(shape)] and [z.object(shape).strict()]: in strict mode
    the keys outside the shape are reported after the members, in one
    issue that makes the result dirty. *)
Definition z_object (unknownKeys : UnknownKeys) (shape : list (string * Schema))
  : Schema :=
  fun p v =>
    match v with
    | JObject props =>
        do r <- members shape p props;
        match unknownKeys, extraKeys shape props with
        | strict, _ :: _ =>
            Done (merge dirty (fst r),
                  (snd r ++ [unrecognized_keys p (extraKeys shape props)])%list)
        | _, _ => Done r
        end
    | _ => reject p "object" v
    end.

(** The loop of [z.union] over its options: the first valid result
    is returned and the issues of its context are dropped; failing that,
    the first dirty result with its issues; failing that, one
    [invalid_union] issue. *)
Fixpoint options_loop
    (options : list Schema) (p : list PathKey) (v : JsValue)
    (firstDirty : option Outcome) : Run Outcome :=
  match options with
  | [] =>
      match firstDirty with
      | Some d => Done d
      | None => Done (aborted, [mkIssue p "Invalid input"])
      end
  | option :: rest =>
      do r <- option p v;
      match fst r with
      | valid => Done (valid, [])
      | dirty =>
          options_loop rest p v
            match firstDirty with
            | None => Some r
            | Some d => Some d
            end
      | aborted => options_loop rest p v firstDirty
      end
  end.

Definition z_union (options : list Schema) : Schema :=
  fun p v => options_loop options p v None.

(** [schema.refine(check)] without a message: the check runs on the
    data unless the inner parse aborted; a falsy result adds a custom
    issue. *)
Definition refine (schema : Schema) (check : JsValue -> Run bool) : Schema :=
  fun p v =>
    do r <- schema p v;
    match fst r with
    | aborted => Done (aborted, snd r)
    | _ =>
        do passed <- check v;
        if passed then Done r
        else Done (dirty, (snd r ++ [mkIssue p "Invalid input"])%list)
    end.

(** [schema.parse(data)]: returns on a valid status and throws
    otherwise, a [ZodError] when the context holds an issue. *)
Definition parse (schema : Schema) (data : JsValue) : Run unit :=
  do r <- schema [] data;
  match r with
  | (valid, _) => Done tt
  | (_, []) => Throw OtherError
  | (_, issues) => Throw (ZodError issues)
  end.

(** Truthiness of plain data. *)
Definition js_truthy (v : JsValue) : bool :=
  match v with
  | JUndefined | JNull | JBool false | JString EmptyString | JNumber NaN => false
  | JNumber (Fin q) => negb (Qeq_bool q 0)
  | _ => true
  end.

(** [data.type] on data that is neither [undefined] nor [null]. *)
Definition type_of (data : JsValue) : JsValue :=
  match data with
  | JObject props => get_prop props "type"
  | _ => JUndefined
  end.

(** [v === s] for a string literal [s]. *)
Definition is_string (v : JsValue) (s : string) : bool :=
  match v with
  | JString t => String.eqb t s
  | _ => false
  end.

Definition objectShape : list (string * Schema) :=
  [ ("type", z_literal "object");
    ("properties", z_record z_any);
    ("required", z_optional (z_array z_string));
    ("additionalProperties", z_optional z_boolean);
    ("description", z_optional z_string);
    ("title", z_optional z_string) ].

Definition objectSchema : Schema := z_object strip objectShape.

Definition arrayShape : list (string * Schema) :=
  [ ("type", z_literal "array");
    ("items", objectSchema);
    ("description", z_optional z_string);
    ("title", z_optional z_string) ].

Definition arraySchema : Schema := z_object strip arrayShape.

(** The callback of [jsonSchema]: the value that [parse] returns is an
    object, hence truthy. *)
Definition jsonSchema_check (data : JsValue) : Run bool :=
  if negb (js_truthy data) then Done true
  else if is_string (type_of data) "object"
       then do _ <- parse objectSchema data; Done true
  else if is_string (type_of data) "array"
       then do _ <- parse arraySchema data; Done true
  else Done true.

Definition jsonSchema : Schema := refine z_any jsonSchema_check.

Definition emitShape : list (string * Schema) :=
  [ ("topic", z_string);
    ("label", z_optional z_string);
    ("conditional", z_optional z_boolean) ].

Definition emits : Schema :=
  z_array (z_union [ z_string; z_object strict emitShape ]).

Definition noopShape : list (string * Schema) :=
  [ ("type", z_literal "noop");
    ("name", z_string);
    ("description", z_optional z_string);
    ("virtualEmits", emits);
    ("virtualSubscribes", z_array z_string);
    ("flows", z_optional (z_array z_string)) ].

Definition noopSchema : Schema := z_object strict noopShape.

Definition eventShape : list (string * Schema) :=
  [ ("type", z_literal "event");
    ("name", z_string);
    ("description", z_optional z_string);
    ("subscribes", z_array z_string);
    ("emits", emits);
    ("virtualEmits", z_optional emits);
    ("virtualSubscribes", z_optional (z_array z_string));
    ("input", z_optional (z_union [ jsonSchema; z_object strip []; z_null ]));
    ("flows", z_optional (z_array z_string));
    ("includeFiles", z_optional (z_array z_string));
    ("infrastructure", z_optional z_any) ].

Definition eventSchema : Schema := z_object strict eventShape.

Definition queryParamShape : list (string * Schema) :=
  [ ("name", z_string); ("description", z_optional z_string) ].

Definition apiShape : list (string * Schema) :=
  [ ("type", z_literal "api");
    ("name", z_string);
    ("description", z_optional z_string);
    ("path", z_string);
    ("method", z_string);
    ("emits", emits);
    ("virtualEmits", z_optional emits);
    ("virtualSubscribes", z_optional (z_array z_string));
    ("flows", z_optional (z_array z_string));
    ("includeFiles", z_optional (z_array z_string));
    ("middleware", z_optional (z_array z_any));
    ("queryParams", z_optional (z_array (z_object strip queryParamShape)));
    ("bodySchema", z_optional (z_union [ jsonSchema; z_object strip []; z_null ]));
    ("responseSchema", z_optional (z_record jsonSchema));
    ("infrastructure", z_optional z_any) ].

Definition apiSchema : Schema := z_object strict apiShape.

Definition cronShape : list (string * Schema) :=
  [ ("type", z_literal "cron");
    ("name", z_string);
    ("description", z_optional z_string);
    ("cron", z_string);
    ("virtualEmits", z_optional emits);
    ("virtualSubscribes", z_optional (z_array z_string));
    ("emits", emits);
    ("flows", z_optional (z_array z_string));
    ("includeFiles", z_optional (z_array z_string));
    ("infrastructure", z_optional z_any) ].

Definition cronSchema : Schema := z_object strict cronShape.

(** [ValidationResult]: an error entry is a path and a message. *)
Inductive ValidationResult : Type :=
| ValidationSuccess
| ValidationError (error : string) (errors : option (list (string * string))).

Definition show_key (k : PathKey) : string :=
  match k with
  | Key name => name
  | Index i => show_Z (Z.of_nat i)
  end.

(** [err.path.join('.')] *)
Definition join_path (p : list PathKey) : string :=
  String.concat "." (map show_key p).

(** [step.config.type]: reading a property of [undefined] or [null]
    throws a [TypeError]; a primitive or an array has no [type]. *)
Definition config_type (config : JsValue) : Run JsValue :=
  match config with
  | JUndefined | JNull => Throw OtherError
  | JObject props => Done (get_prop props "type")
  | _ => Done JUndefined
  end.

(** The [try] block. *)
Definition validateStep_body (config : JsValue) : Run ValidationResult :=
  do t <- config_type config;
  if is_string t "noop"
  then do _ <- parse noopSchema config; Done ValidationSuccess
  else if is_string t "event"
  then do _ <- parse eventSchema config; Done ValidationSuccess
  else if is_string t "api"
  then do _ <- parse apiSchema config; Done ValidationSuccess
  else if is_string t "cron"
  then do _ <- parse cronSchema config; Done ValidationSuccess
  else Done (ValidationError "Invalid step type" None).

(** [validateStep], applied to [step.config]; the other members of the
    step are not read. *)
Definition validateStep (config : JsValue) : ValidationResult :=
  match validateStep_body config with
  | Done result => result
  | Throw (ZodError issues) =>
      ValidationError
        (String.concat ", " (map message issues))
        (Some (map (fun err => (join_path (path err), message err)) issues))
  | Throw OtherError =>
      ValidationError "Unexpected validation error occurred" None
  end.

(** The shape that [validateStep] selects for a step type. *)
Definition shape_of (t : JsValue) : option (list (string * Schema)) :=
  if is_string t "noop" then Some noopShape
  else if is_string t "event" then Some eventShape
  else if is_string t "api" then Some apiShape
  else if is_string t "cron" then Some cronShape
  else None.

End StepValidator.

(** Vocabulary of the statements about the step validator. *)
Module StepValidatorSpec.
Import StepValidator.

(** A completed parse that is not valid has reported an issue, and a
    thrown value is a [ZodError] that carries one. *)
Definition settled (r : Run Outcome) : Prop :=
  match r with
  | Done (valid, _) => True
  | Done (_, issues) => issues <> []
  | Throw (ZodError issues) => issues <> []
  | Throw OtherError => False
  end.

Definition Settled (schema : Schema) : Prop :=
  forall p v, settled (schema p v).

(** What [parse] may throw when the schema is settled. *)
Definition throws_issues {A : Type} (r : Run A) : Prop :=
  match r with
  | Done _ => True
  | Throw (ZodError issues) => issues <> []
  | Throw OtherError => False
  end.

(** The schema that the callback of [jsonSchema] parses the data
    with. *)
Definition json_schema_of (data : JsValue) : option Schema :=
  if is_string (type_of data) "object" then Some objectSchema
  else if is_string (type_of data) "array" then Some arraySchema
  else None.

(** A schema whose parse always completes. *)
Definition Completes (schema : Schema) : Prop :=
  forall p v, exists r, schema p v = Done r.

(** [accepted] is the set of data on which the parse of [schema]
    completes with a valid status, at any path. *)
Definition Accepts (schema : Schema) (accepted : JsValue -> bool) : Prop :=
  forall p v, (exists issues, schema p v = Done (valid, issues))
              <-> accepted v = true.

(** The failure that [validateStep] builds from a [ZodError]. *)
Definition failure_of (issues : list Issue) : ValidationResult :=
  ValidationError
    (String.concat ", " (map message issues))
    (Some (map (fun err => (join_path (path err), message err)) issues)).

Definition string_ok (v : JsValue) : bool :=
  match v with
  | JString _ => true
  | _ => false
  end.

Definition boolean_ok (v : JsValue) : bool :=
  match v with
  | JBool _ => true
  | _ => false
  end.

Definition optional_ok (ok : JsValue -> bool) (v : JsValue) : bool :=
  match v with
  | JUndefined => true
  | _ => ok v
  end.

Definition array_ok (ok : JsValue -> bool) (v : JsValue) : bool :=
  match v with
  | JArray items => forallb ok items
  | _ => false
  end.

(** No key other than the listed ones. *)
Definition only_keys (keys : list string) (props : list (string * JsValue))
  : bool :=
  forallb (fun k => existsb (String.eqb k) keys) (map fst props).

(** An entry of [emits]: a topic name, or an object with a topic and
    nothing beyond a label and a condition flag. *)
Definition emit_ok (v : JsValue) : bool :=
  match v with
  | JString _ => true
  | JObject props =>
      string_ok (get_prop props "topic")
      && optional_ok string_ok (get_prop props "label")
      && optional_ok boolean_ok (get_prop props "conditional")
      && only_keys ["topic"; "label"; "conditional"] props
  | _ => false
  end.

Definition noop_ok (props : list (string * JsValue)) : bool :=
  string_ok (get_prop props "name")
  && optional_ok string_ok (get_prop props "description")
  && array_ok emit_ok (get_prop props "virtualEmits")
  && array_ok string_ok (get_prop props "virtualSubscribes")
  && optional_ok (array_ok string_ok) (get_prop props "flows")
  && only_keys
       ["type"; "name"; "description"; "virtualEmits"; "virtualSubscribes";
        "flows"] props.

Definition cron_ok (props : list (string * JsValue)) : bool :=
  string_ok (get_prop props "name")
  && optional_ok string_ok (get_prop props "description")
  && string_ok (get_prop props "cron")
  && optional_ok (array_ok emit_ok) (get_prop props "virtualEmits")
  && optional_ok (array_ok string_ok) (get_prop props "virtualSubscribes")
  && array_ok emit_ok (get_prop props "emits")
  && optional_ok (array_ok string_ok) (get_prop props "flows")
  && optional_ok (array_ok string_ok) (get_prop props "includeFiles")
  && only_keys
       ["type"; "name"; "description"; "cron"; "virtualEmits";
        "virtualSubscribes"; "emits"; "flows"; "includeFiles";
        "infrastructure"] props.

Definition object_ok (v : JsValue) : bool :=
  match v with
  | JObject _ => true
  | _ => false
  end.

(** Every value of the record passes. *)
Definition record_ok (ok : JsValue -> bool) (v : JsValue) : bool :=
  match v with
  | JObject props => forallb (fun k => ok (get_prop props k)) (map fst props)
  | _ => false
  end.

(** The data that [objectSchema] accepts: the description of an
    object in JSON Schema. *)
Definition objectSchema_ok (v : JsValue) : bool :=
  match v with
  | JObject props =>
      is_string (get_prop props "type") "object"
      && object_ok (get_prop props "properties")
      && optional_ok (array_ok string_ok) (get_prop props "required")
      && optional_ok boolean_ok (get_prop props "additionalProperties")
      && optional_ok string_ok (get_prop props "description")
      && optional_ok string_ok (get_prop props "title")
  | _ => false
  end.

Definition arraySchema_ok (v : JsValue) : bool :=
  match v with
  | JObject props =>
      is_string (get_prop props "type") "array"
      && objectSchema_ok (get_prop props "items")
      && optional_ok string_ok (get_prop props "description")
      && optional_ok string_ok (get_prop props "title")
  | _ => false
  end.

(** The data that [jsonSchema] accepts: anything falsy, anything whose
    type is neither object nor array, and the descriptions of objects and
    of arrays of objects. *)
Definition json_ok (data : JsValue) : bool :=
  if negb (js_truthy data) then true
  else if is_string (type_of data) "object" then objectSchema_ok data
  else if is_string (type_of data) "array" then arraySchema_ok data
  else true.

Definition event_ok (props : list (string * JsValue)) : bool :=
  string_ok (get_prop props "name")
  && optional_ok string_ok (get_prop props "description")
  && array_ok string_ok (get_prop props "subscribes")
  && array_ok emit_ok (get_prop props "emits")
  && optional_ok (array_ok emit_ok) (get_prop props "virtualEmits")
  && optional_ok (array_ok string_ok) (get_prop props "virtualSubscribes")
  && optional_ok json_ok (get_prop props "input")
  && optional_ok (array_ok string_ok) (get_prop props "flows")
  && optional_ok (array_ok string_ok) (get_prop props "includeFiles")
  && only_keys
       ["type"; "name"; "description"; "subscribes"; "emits"; "virtualEmits";
        "virtualSubscribes"; "input"; "flows"; "includeFiles";
        "infrastructure"] props.

Definition queryParam_ok (v : JsValue) : bool :=
  match v with
  | JObject props =>
      string_ok (get_prop props "name")
      && optional_ok string_ok (get_prop props "description")
  | _ => false
  end.

Definition api_ok (props : list (string * JsValue)) : bool :=
  string_ok (get_prop props "name")
  && optional_ok string_ok (get_prop props "description")
  && string_ok (get_prop props "path")
  && string_ok (get_prop props "method")
  && array_ok emit_ok (get_prop props "emits")
  && optional_ok (array_ok emit_ok) (get_prop props "virtualEmits")
  && optional_ok (array_ok string_ok) (get_prop props "virtualSubscribes")
  && optional_ok (array_ok string_ok) (get_prop props "flows")
  && optional_ok (array_ok string_ok) (get_prop props "includeFiles")
  && optional_ok (array_ok (fun _ => true)) (get_prop props "middleware")
  && optional_ok (array_ok queryParam_ok) (get_prop props "queryParams")
  && optional_ok json_ok (get_prop props "bodySchema")
  && optional_ok (record_ok json_ok) (get_prop props "responseSchema")
  && only_keys
       ["type"; "name"; "description"; "path"; "method"; "emits";
        "virtualEmits"; "virtualSubscribes"; "flows"; "includeFiles";
        "middleware"; "queryParams"; "bodySchema"; "responseSchema";
        "infrastructure"] props.

(** The configurations that pass: an object whose type selects a
    shape and whose members fit it. *)
Definition step_ok (config : JsValue) : bool :=
  match config with
  | JObject props =>
      let t := get_prop props "type" in
      if is_string t "noop" then noop_ok props
      else if is_string t "event" then event_ok props
      else if is_string t "api" then api_ok props
      else if is_string t "cron" then cron_ok props
      else false
  | _ => false
  end.

Definition step (t : string) (rest : list (string * JsValue)) : JsValue :=
  JObject (("type", JString t) :: rest).

Definition event_without_input_properties : JsValue :=
  step "event"
    [ ("name", JNumber (of_Z 7));
      ("subscribes", JArray [JString "orders"]);
      ("emits", JArray []);
      ("input", JObject [("type", JString "object")]) ].

Definition noop_minimal : JsValue :=
  step "noop"
    [ ("name", JString "start");
      ("virtualEmits", JArray [JString "orders"]);
      ("virtualSubscribes", JArray []) ].

End StepValidatorSpec.

(** ** The deployment stream manager

    The stream is the repository's key-value store of stream items; it
    is not part of the sources at hand and is a parameter: a type of
    stream states with [get] and [set].  Each method is modelled as one
    step from stream state to stream state, the calls it awaits taken in
    order; [Date.now()] is an argument. *)

Module DeploymentStream.

Inductive BuildStatus : Type := building | built | build_error.
Inductive UploadStatus : Type := uploading | uploaded | upload_error.
Inductive StepKind : Type := event | api | cron.

Module BuildOutput.
Record t : Type := make {
  packagePath : string;
  language : string;
  status : BuildStatus;
  size : option number;
  type : StepKind;
  errorMessage : option string
}.
End BuildOutput.

Module UploadOutput.
Record t : Type := make {
  packagePath : string;
  language : string;
  status : UploadStatus;
  size : option number;
  progress : option number;
  type : StepKind;
  errorMessage : option string
}.
End UploadOutput.

Inductive Status : Type :=
| idle | status_building | status_uploading | deploying | completed | failed.

Inductive Phase : Type := phase_build | phase_upload | phase_deploy.

Record Metadata : Type := mkMetadata {
  totalSteps : number;
  uploadedSteps : option number;
  buildedSteps : option number
}.

(** [DeploymentData], with the [deploymentId] property that
    [updateDeployment] adds to a stored item. *)
Record DeploymentData : Type := mkData {
  id : string;
  status : Status;
  phase : option Phase;
  progress : number;
  message : string;
  build : list BuildOutput.t;
  upload : list UploadOutput.t;
  error : option string;
  startedAt : option number;
  completedAt : option number;
  metadata : option Metadata;
  deploymentId : option string
}.

(** [Partial<DeploymentData>]: every member is absent or carries a value
    of the member's type. *)
Record Patch : Type := mkPatch {
  p_id : option string;
  p_status : option Status;
  p_phase : option (option Phase);
  p_progress : option number;
  p_message : option string;
  p_build : option (list BuildOutput.t);
  p_upload : option (list UploadOutput.t);
  p_error : option (option string);
  p_startedAt : option (option number);
  p_completedAt : option (option number);
  p_metadata : option (option Metadata)
}.

Definition empty_patch : Patch :=
  mkPatch None None None None None None None None None None None.

Definition createDefaultDeploymentData (deployment : string) : DeploymentData :=
  mkData deployment idle None (of_Z 0) "No deployment in progress" [] []
    None None None (Some (mkMetadata (of_Z 0) None None)) None.

Definition over {A : Type} (base : A) (p : option A) : A :=
  match p with
  | Some x => x
  | None => base
  end.

(** [{ ...base, ...data }] *)
Definition spread (base : DeploymentData) (data : Patch) : DeploymentData :=
  mkData
    (over (id base) (p_id data))
    (over (status base) (p_status data))
    (over (phase base) (p_phase data))
    (over (progress base) (p_progress data))
    (over (message base) (p_message data))
    (over (build base) (p_build data))
    (over (upload base) (p_upload data))
    (over (error base) (p_error data))
    (over (startedAt base) (p_startedAt data))
    (over (completedAt base) (p_completedAt data))
    (over (metadata base) (p_metadata data))
    (deploymentId base).

Definition with_id (d : DeploymentData) (deployment : string) : DeploymentData :=
  mkData deployment (status d) (phase d) (progress d) (message d) (build d)
    (upload d) (error d) (startedAt d) (completedAt d) (metadata d)
    (deploymentId d).

Definition with_deploymentId (d : DeploymentData) (deployment : string)
  : DeploymentData :=
  mkData (id d) (status d) (phase d) (progress d) (message d) (build d)
    (upload d) (error d) (startedAt d) (completedAt d) (metadata d)
    (Some deployment).

(** [arr.findIndex(pred)]; [None] is -1. *)
Fixpoint findIndex {A : Type} (pred : A -> bool) (l : list A) : option nat :=
  match l with
  | [] => None
  | x :: rest =>
      if pred x then Some O
      else match findIndex pred rest with
           | Some i => Some (S i)
           | None => None
           end
  end.

(** [copy[i] = x] for an index within the array. *)
Fixpoint assign {A : Type} (l : list A) (i : nat) (x : A) : list A :=
  match l, i with
  | [], _ => []
  | _ :: rest, O => x :: rest
  | y :: rest, S j => y :: assign rest j x
  end.

(** Replace the first entry that [pred] selects, or push. *)
Definition upsert {A : Type} (pred : A -> bool) (l : list A) (x : A) : list A :=
  match findIndex pred l with
  | Some i => assign l i x
  | None => (l ++ [x])%list
  end.

Definition is_built (b : BuildOutput.t) : bool :=
  match BuildOutput.status b with
  | built => true
  | _ => false
  end.

Definition is_uploaded (u : UploadOutput.t) : bool :=
  match UploadOutput.status u with
  | uploaded => true
  | _ => false
  end.

Definition count_of {A : Type} (pred : A -> bool) (l : list A) : number :=
  of_Z (Z.of_nat (List.length (filter pred l))).

Definition length_of {A : Type} (l : list A) : number :=
  of_Z (Z.of_nat (List.length l)).

(** Truthiness of a number: neither zero nor NaN. *)
Definition truthy (n : number) : bool :=
  match n with
  | Fin q => negb (Qeq_bool q 0)
  | NaN => false
  | _ => true
  end.

(** [current.metadata?.totalSteps || fallback] *)
Definition totalSteps_or (m : option Metadata) (fallback : number) : number :=
  match m with
  | Some md => if truthy (totalSteps md) then totalSteps md else fallback
  | None => fallback
  end.

Section Manager.

Variable Stream : Type.
Variable get : Stream -> string -> string -> option DeploymentData.
Variable set : Stream -> string -> string -> DeploymentData -> Stream.

Definition getDeployment (st : Stream) (deployment : string)
  : option DeploymentData :=
  get st deployment "data".

Definition updateDeployment (st : Stream) (deployment : string) (data : Patch)
  : Stream :=
  match getDeployment st deployment with
  | None =>
      set st deployment "data"
        (with_id (spread (createDefaultDeploymentData deployment) data) deployment)
  | Some current =>
      set st deployment "data"
        (with_deploymentId (with_id (spread current data) deployment) deployment)
  end.

Definition startDeployment (st : Stream) (deployment : string) (now : number)
  : Stream :=
  let defaultData := createDefaultDeploymentData deployment in
  set st deployment "data"
    (mkData deployment status_building (Some phase_build) (progress defaultData)
       "Starting deployment..." (build defaultData) (upload defaultData)
       (error defaultData) (Some now) (completedAt defaultData)
       (metadata defaultData) (deploymentId defaultData)).

Definition completeDeployment
    (st : Stream) (deployment : string) (ok : bool) (err : option string)
    (now : number) : Stream :=
  match getDeployment st deployment with
  | None => st
  | Some current =>
      set st deployment "data"
        (mkData (id current)
           (if ok then completed else failed) None (of_Z 100)
           (if ok then "Deployment completed successfully"
            else "Deployment failed: "
                 ++ match err with Some e => e | None => "undefined" end)
           (build current) (upload current) err (startedAt current)
           (Some now) (metadata current) (deploymentId current))
  end.

Definition updateBuildOutput
    (st : Stream) (deployment : string) (buildOutput : BuildOutput.t) : Stream :=
  match getDeployment st deployment with
  | None => st
  | Some current =>
      let updatedBuild :=
        upsert (fun b => String.eqb (BuildOutput.packagePath b)
                           (BuildOutput.packagePath buildOutput))
               (build current) buildOutput in
      let buildedSteps := count_of is_built updatedBuild in
      let md :=
        mkMetadata
          (totalSteps_or (metadata current) (length_of updatedBuild))
          (match metadata current with
           | Some m => uploadedSteps m
           | None => None
           end)
          (Some buildedSteps) in
      updateDeployment st deployment
        (mkPatch None None None None None (Some updatedBuild) None None None
           None (Some (Some md)))
  end.

Definition updateUploadOutput
    (st : Stream) (deployment : string) (uploadOutput : UploadOutput.t) : Stream :=
  match getDeployment st deployment with
  | None => st
  | Some current =>
      let updatedUpload :=
        upsert (fun u => String.eqb (UploadOutput.packagePath u)
                           (UploadOutput.packagePath uploadOutput))
               (upload current) uploadOutput in
      let uploadedSteps := count_of is_uploaded updatedUpload in
      let md :=
        mkMetadata
          (totalSteps_or (metadata current) (length_of updatedUpload))
          (Some uploadedSteps)
          (match metadata current with
           | Some m => buildedSteps m
           | None => None
           end) in
      updateDeployment st deployment
        (mkPatch None None None None None None (Some updatedUpload) None None
           None (Some (Some md)))
  end.

End Manager.

(** A stream held in memory, for examples: the items, newest first. *)
Definition MemoryStream : Type := list (string * string * DeploymentData).

Fixpoint memory_get (st : MemoryStream) (group item : string)
  : option DeploymentData :=
  match st with
  | [] => None
  | (g, i, d) :: rest =>
      if String.eqb g group && String.eqb i item then Some d
      else memory_get rest group item
  end.

Definition memory_set (st : MemoryStream) (group item : string)
    (d : DeploymentData) : MemoryStream :=
  (group, item, d) :: st.

End DeploymentStream.

(** Vocabulary of the statements about the deployment stream. *)
Module DeploymentStreamSpec.
Import DeploymentStream.

Definition build_at (p : string) (b : BuildOutput.t) : bool :=
  String.eqb (BuildOutput.packagePath b) p.

Definition upload_at (p : string) (u : UploadOutput.t) : bool :=
  String.eqb (UploadOutput.packagePath u) p.

(** The item a patch is applied to: the stored one, or the defaults. *)
Definition base_of (current : option DeploymentData) (deployment : string)
  : DeploymentData :=
  match current with
  | Some c => c
  | None => createDefaultDeploymentData deployment
  end.

Definition uploadedSteps_of (m : option Metadata) : option number :=
  match m with
  | Some md => uploadedSteps md
  | None => None
  end.

Definition buildedSteps_of (m : option Metadata) : option number :=
  match m with
  | Some md => buildedSteps md
  | None => None
  end.

(** A progress report: one call of [updateBuildOutput] or of
    [updateUploadOutput]. *)
Inductive Report : Type :=
| BuildReport (output : BuildOutput.t)
| UploadReport (output : UploadOutput.t).

Section Reports.

Variable Stream : Type.
Variable get : Stream -> string -> string -> option DeploymentData.
Variable set : Stream -> string -> string -> DeploymentData -> Stream.

Definition report (deployment : string) (st : Stream) (r : Report) : Stream :=
  match r with
  | BuildReport output => updateBuildOutput Stream get set st deployment output
  | UploadReport output => updateUploadOutput Stream get set st deployment output
  end.

(** The calls made one after the other. *)
Definition reports (st : Stream) (deployment : string) (rs : list Report)
  : Stream :=
  fold_left (report deployment) rs st.

End Reports.

(** The counter that goes with a list of outputs: absent until the
    first output is reported. *)
Definition counter {A : Type} (done : A -> bool) (l : list A) : option number :=
  match l with
  | [] => None
  | _ :: _ => Some (count_of done l)
  end.

Definition sample_build (p : string) (s : BuildStatus) : BuildOutput.t :=
  BuildOutput.make p "node" s None event None.

Definition sample_upload (p : string) (s : UploadStatus) : UploadOutput.t :=
  UploadOutput.make p "node" s None None event None.

(** A stream in which deployment [d1] was started and reported two
    build outputs. *)
Definition sample_stream : MemoryStream :=
  updateBuildOutput MemoryStream memory_get memory_set
    (updateBuildOutput MemoryStream memory_get memory_set
       (startDeployment MemoryStream memory_set [] "d1" (of_Z 1000))
       "d1" (sample_build "steps/a" building))
    "d1" (sample_build "steps/b" built).

Definition sample_item : DeploymentData :=
  base_of (getDeployment MemoryStream memory_get sample_stream "d1") "d1".

Definition sample_metadata : Metadata :=
  mkMetadata (of_Z 1) None (Some (of_Z 1)).

End DeploymentStreamSpec.

(** * Properties *)

(** ** Comparisons on rationals *)

Lemma Qlt_bool_iff x y : Qlt_bool x y = true <-> x < y.
Proof.
  unfold Qlt_bool. rewrite negb_true_iff.
  split; intro H.
  - apply Qnot_le_lt. intro Hle. apply Qle_bool_iff in Hle. congruence.
  - destruct (Qle_bool y x) eqn:E; [|reflexivity].
    apply Qle_bool_iff in E. exfalso. apply (Qlt_not_le _ _ H E).
Qed.

Lemma Qlt_bool_false_iff x y : Qlt_bool x y = false <-> y <= x.
Proof.
  unfold Qlt_bool. rewrite negb_false_iff. apply Qle_bool_iff.
Qed.

Lemma Qle_bool_false_iff x y : Qle_bool x y = false <-> y < x.
Proof.
  rewrite <- Qlt_bool_iff. unfold Qlt_bool.
  destruct (Qle_bool x y); simpl; split; congruence.
Qed.

(** ** The resolver on the concrete table *)

Lemma ramValues_eq :
  ramValues =
  [128; 256; 512; 1024; 1536; 2048; 3008; 4096; 5120; 6144; 7168; 8192;
   9216; 10240]%Z.
Proof. reflexivity. Qed.

Lemma num_sub_fin x y : num_sub (Fin x) (Fin y) = Fin (x - y).
Proof. reflexivity. Qed.

Lemma num_div_fin x y : ~ y == 0 -> num_div (Fin x) (Fin y) = Fin (x / y).
Proof.
  intro H. unfold num_div.
  destruct (Qeq_bool y 0) eqn:E; [|reflexivity].
  apply Qeq_bool_iff in E. contradiction.
Qed.

Lemma ratio_at_key k v q :
  In (k, v) AWS_LAMBDA_CPU_RATIO -> q == inject_Z k ->
  ratio_at (Fin q) = Some v.
Proof.
  intros Hin Hq.
  assert (E : forall x, Qeq_bool q x = Qeq_bool (inject_Z k) x).
  { intro x. apply Qeqb_comp; [exact Hq | reflexivity]. }
  unfold ratio_at, AWS_LAMBDA_CPU_RATIO. cbn [find fst snd].
  rewrite !E.
  unfold AWS_LAMBDA_CPU_RATIO in Hin. cbn [In] in Hin.
  repeat (destruct Hin as [Hin | Hin];
          [injection Hin as <- <-; reflexivity|]).
  contradiction.
Qed.

Lemma Qeq_bool_false x y : ~ x == y -> Qeq_bool x y = false.
Proof.
  intro H. destruct (Qeq_bool x y) eqn:E; [|reflexivity].
  apply Qeq_bool_iff in E. contradiction.
Qed.

(** Settle every comparison of the goal that the context decides. *)
Ltac settle_tests :=
  repeat match goal with
  | |- context [Qeq_bool ?a ?b] =>
      first [ rewrite (Qeq_bool_false a b) by (unfold inject_Z; lra)
            | rewrite (proj2 (Qeq_bool_iff a b)) by (unfold inject_Z; lra) ]
  | |- context [Qlt_bool ?a ?b] =>
      first [ rewrite (proj2 (Qlt_bool_iff a b)) by (unfold inject_Z; lra)
            | rewrite (proj2 (Qlt_bool_false_iff a b)) by (unfold inject_Z; lra) ]
  | |- context [Qle_bool ?a ?b] =>
      first [ rewrite (proj2 (Qle_bool_iff a b)) by (unfold inject_Z; lra)
            | rewrite (proj2 (Qle_bool_false_iff a b)) by (unfold inject_Z; lra) ]
  end.

Ltac unfold_resolver :=
  unfold getProportionalCpu, ratio_at, AWS_LAMBDA_CPU_RATIO;
  rewrite ?ramValues_eq;
  cbn [find fst snd option_map bracket_loop num_gt num_lt num_le of_Z
       hd_error last].

Ltac eval_ratios :=
  repeat match goal with
  | |- context [ratio_num ?k] =>
      let v := eval vm_compute in (ratio_num k) in
      change (ratio_num k) with v
  end.

Ltac finish_bracket :=
  cbn [andb]; eval_ratios; unfold of_Z;
  rewrite !num_sub_fin, num_div_fin by (unfold inject_Z; lra);
  cbn [num_mul num_add].

Lemma resolver_exact k v q :
  In (k, v) AWS_LAMBDA_CPU_RATIO -> q == inject_Z k ->
  getProportionalCpu (Fin q) = Fin v.
Proof.
  intros Hin Hq. unfold getProportionalCpu.
  rewrite (ratio_at_key k v q Hin Hq). reflexivity.
Qed.

Lemma resolver_between lo clo hi chi q :
  In ((lo, clo), (hi, chi)) (adjacent AWS_LAMBDA_CPU_RATIO) ->
  inject_Z lo < q < inject_Z hi ->
  getProportionalCpu (Fin q) =
  Fin (clo + (chi - clo) * ((q - inject_Z lo) / (inject_Z hi - inject_Z lo))).
Proof.
  intros Hin [H1 H2].
  unfold adjacent, AWS_LAMBDA_CPU_RATIO in Hin. cbn [combine tl In] in Hin.
  repeat (destruct Hin as [Hin | Hin];
          [ injection Hin as <- <- <- <-; unfold inject_Z in H1, H2;
            unfold_resolver; settle_tests; finish_bracket; reflexivity |]).
  contradiction.
Qed.

Lemma resolver_below q : q < 128 -> getProportionalCpu (Fin q) = Fin (1 # 16).
Proof.
  intro H. unfold_resolver. settle_tests. reflexivity.
Qed.

Lemma resolver_above q : 10240 < q -> getProportionalCpu (Fin q) = Fin 5.
Proof.
  intro H. unfold_resolver. settle_tests. reflexivity.
Qed.

Ltac in_list := cbn [In combine tl]; repeat (first [left; reflexivity | right]).

Ltac close_piece :=
  solve [ split; [split; lra | first [lra | field; lra]] | split; lra ].

Ltac solve_piece :=
  lazymatch goal with
  | |- _ \/ _ => first [ left; solve_piece | right; solve_piece ]
  | |- _ => close_piece
  end.

Ltac pick_piece :=
  unfold piecewise, AWS_LAMBDA_CPU_RATIO; cbn [on_segments];
  unfold inject_Z in *; solve_piece.

Ltac walk q prev entries :=
  lazymatch entries with
  | nil =>
      exists 5; split; [apply resolver_above; unfold inject_Z in *; lra | pick_piece]
  | (?k, ?v) :: ?rest =>
      destruct (Q_dec q (inject_Z k)) as [[?H | ?H] | ?H];
      [ lazymatch prev with
        | @None _ =>
            exists (1 # 16); split;
            [apply resolver_below; unfold inject_Z in *; lra | pick_piece]
        | Some (?k0, ?v0) =>
            eexists; split;
            [ apply (resolver_between k0 v0 k v);
              [unfold adjacent, AWS_LAMBDA_CPU_RATIO; in_list | split; assumption]
            | pick_piece ]
        end
      | walk q (Some (k, v)) rest
      | exists v; split;
        [ apply (resolver_exact k v);
          [unfold AWS_LAMBDA_CPU_RATIO; in_list | assumption]
        | pick_piece ] ]
  end.

Lemma resolver_piecewise q :
  exists c, getProportionalCpu (Fin q) = Fin c /\ piecewise q c.
Proof.
  let entries := eval unfold AWS_LAMBDA_CPU_RATIO in AWS_LAMBDA_CPU_RATIO in
  walk q (@None (Z * Q)) entries.
Qed.

Lemma piecewise_monotone a b ca cb :
  a <= b -> piecewise a ca -> piecewise b cb -> ca <= cb.
Proof.
  unfold piecewise, AWS_LAMBDA_CPU_RATIO. cbn [on_segments].
  unfold inject_Z.
  intros Hab Ha Hb.
  repeat match goal with
  | H : _ \/ _ |- _ => destruct H as [H | H]
  | H : _ /\ _ |- _ => destruct H
  | H : False |- _ => contradiction
  end; lra.
Qed.

Lemma piecewise_bounds q c : piecewise q c -> 1 # 16 <= c <= 5.
Proof.
  unfold piecewise, AWS_LAMBDA_CPU_RATIO. cbn [on_segments].
  unfold inject_Z.
  intro H.
  repeat match goal with
  | H : _ \/ _ |- _ => destruct H as [H | H]
  | H : _ /\ _ |- _ => destruct H
  | H : False |- _ => contradiction
  end; split; lra.
Qed.

Lemma resolver_finite n : exists c, getProportionalCpu n = Fin c.
Proof.
  destruct n as [q | | |].
  - destruct (resolver_piecewise q) as (c & Hc & _). exists c. exact Hc.
  - exists 5. reflexivity.
  - exists (1 # 16). reflexivity.
  - exists 5. reflexivity.
Qed.

Example resolve_1024 : getProportionalCpu (Fin 1024) = Fin (1 # 2).
Proof. reflexivity. Qed.

Example resolve_1792 :
  num_eq (getProportionalCpu (Fin 1792)) (Fin (7 # 8)) = true.
Proof. reflexivity. Qed.

Example resolve_64 : getProportionalCpu (Fin 64) = Fin (1 # 16).
Proof. reflexivity. Qed.

Example resolve_20000 : getProportionalCpu (Fin 20000) = Fin 5.
Proof. reflexivity. Qed.

Example resolve_NaN : getProportionalCpu NaN = Fin 5.
Proof. reflexivity. Qed.



(** C9: the resolver is monotonically non-decreasing: [a <= b] implies
    [getProportionalCpu(a) <= getProportionalCpu(b)]. *)
Theorem getProportionalCpu_monotone (a b : number) :
  num_le a b = true ->
  num_le (getProportionalCpu a) (getProportionalCpu b) = true.
Proof.
  intro Hab.
  destruct a as [x | | |], b as [y | | |]; cbn [num_le] in Hab;
    try discriminate; try reflexivity.
  - destruct (resolver_piecewise x) as (cx & -> & Hx).
    destruct (resolver_piecewise y) as (cy & -> & Hy).
    cbn [num_le]. apply Qle_bool_iff. apply Qle_bool_iff in Hab.
    exact (piecewise_monotone x y cx cy Hab Hx Hy).
  - destruct (resolver_piecewise x) as (cx & -> & Hx).
    change (getProportionalCpu PosInf) with (Fin 5).
    cbn [num_le]. apply Qle_bool_iff. apply (piecewise_bounds x cx Hx).
  - destruct (resolver_piecewise y) as (cy & -> & Hy).
    change (getProportionalCpu NegInf) with (Fin (1 # 16)).
    cbn [num_le]. apply Qle_bool_iff. apply (piecewise_bounds y cy Hy).
Qed.

Lemma getProportionalCpu_monotone_witness :
  num_le (getProportionalCpu (Fin 1000)) (getProportionalCpu (Fin 3000)) = true.
Proof.
  apply (getProportionalCpu_monotone (Fin 1000) (Fin 3000)). reflexivity.
Defined.

(** ** Parse results of the combinators *)

Lemma relocate_nil i : relocate [] i = i.
Proof. destruct i; reflexivity. Qed.

Lemma map_relocate_nil l : map (relocate []) l = l.
Proof.
  induction l as [|i l IH]; [reflexivity|].
  cbn [map]. rewrite relocate_nil, IH. reflexivity.
Qed.

Lemma optional_eq {T} (s : ZodType T) p x :
  optional s p x =
  match x with
  | JUndefined => (OK None, [])
  | _ => (map_return Some (fst (s p x)), snd (s p x))
  end.
Proof. unfold optional. destruct x; try reflexivity; destruct (s p _); reflexivity. Qed.

Lemma nullable_eq {T} (s : ZodType T) p x :
  nullable s p x =
  match x with
  | JNull => (OK Null, [])
  | _ => (map_return NotNull (fst (s p x)), snd (s p x))
  end.
Proof. unfold nullable. destruct x; try reflexivity; destruct (s p _); reflexivity. Qed.

Lemma parsed_value_map {A B} (f : A -> B) r :
  parsed_value (map_return f r) = option_map f (parsed_value r).
Proof. destruct r; reflexivity. Qed.

Lemma ap_value {A B} (f : Parsed (A -> B)) (x : Parsed A) :
  parsed_value (fst (ap f x)) =
  match parsed_value (fst f), parsed_value (fst x) with
  | Some g, Some a => Some (g a)
  | _, _ => None
  end.
Proof. destruct f as [[| |] ?], x as [[| |] ?]; reflexivity. Qed.

Lemma ap_issues {A B} (f : Parsed (A -> B)) (x : Parsed A) :
  snd (ap f x) = (snd f ++ snd x)%list.
Proof. reflexivity. Qed.

Lemma coherent_status {T} (l : list ZodIssue) (v : T) : coherent (status_of l v, l).
Proof. destruct l; cbn; [reflexivity | discriminate]. Qed.

Lemma coherent_number checks p x : coherent (z_number checks p x).
Proof.
  destruct x as [| | |n| | |]; try (cbn; discriminate).
  destruct n; try (cbn; discriminate); apply coherent_status.
Qed.

Lemma coherent_string p x : coherent (z_string p x).
Proof. destruct x; cbn; try discriminate; reflexivity. Qed.

Lemma coherent_enum values p x : coherent (z_enum values p x).
Proof.
  destruct x; cbn; try discriminate.
  destruct (existsb _ values); cbn; [reflexivity | discriminate].
Qed.

Lemma coherent_optional {T} (s : ZodType T) p x :
  coherent (s p x) -> coherent (optional s p x).
Proof.
  intro H. rewrite optional_eq.
  destruct x; try reflexivity; unfold coherent in *; cbn [fst snd];
    destruct (fst (s p _)); exact H.
Qed.

Lemma coherent_nullable {T} (s : ZodType T) p x :
  coherent (s p x) -> coherent (nullable s p x).
Proof.
  intro H. rewrite nullable_eq.
  destruct x; try reflexivity; unfold coherent in *; cbn [fst snd];
    destruct (fst (s p _)); exact H.
Qed.

Lemma coherent_pure {T} (v : T) : coherent (pure v).
Proof. reflexivity. Qed.

Lemma coherent_ap {A B} (f : Parsed (A -> B)) (x : Parsed A) :
  coherent f -> coherent x -> coherent (ap f x).
Proof.
  unfold coherent, ap. cbn [fst snd].
  destruct f as [[| g | g] fi], x as [[| a | a] xi]; cbn [fst snd];
    intros Hf Hx; subst; try reflexivity;
    intro E; apply app_eq_nil in E; destruct E; contradiction.
Qed.

Lemma coherent_superRefine {T} (s : ZodType T) r p x :
  coherent (s p x) -> coherent (superRefine s r p x).
Proof.
  unfold coherent, superRefine.
  destruct (s p x) as [[| c | c] issues]; cbn [fst snd]; intro H.
  - exact H.
  - intro E. apply app_eq_nil in E. destruct E. contradiction.
  - subst. cbn [app]. apply (coherent_status _ c).
Qed.

Lemma coherent_object {T} members :
  (forall p props, coherent (members p props)) -> Coherent (@z_object T members).
Proof.
  intros H p x. destruct x; try (cbn; discriminate). apply H.
Qed.

Lemma Coherent_optional {T} (s : ZodType T) : Coherent s -> Coherent (optional s).
Proof. intros H p x. apply coherent_optional, H. Qed.

Lemma Coherent_handler : Coherent handlerBaseSchema_partial.
Proof.
  apply coherent_object. intros p props.
  repeat apply coherent_ap; try apply coherent_pure;
    apply coherent_optional;
    first [apply coherent_number | apply coherent_enum].
Qed.

Lemma Coherent_queue : Coherent queueSchema_partial.
Proof.
  apply coherent_object. intros p props.
  repeat apply coherent_ap; try apply coherent_pure;
    apply coherent_optional;
    first [apply coherent_number | apply coherent_enum
          | apply coherent_nullable, coherent_string].
Qed.

Lemma Coherent_shape : Coherent infrastructureShape.
Proof.
  apply coherent_object. intros p props.
  repeat apply coherent_ap; try apply coherent_pure;
    apply coherent_optional;
    first [apply Coherent_handler | apply Coherent_queue].
Qed.

Lemma Coherent_create s : Coherent (createInfrastructureSchema s).
Proof.
  intros p x. unfold createInfrastructureSchema, infrastructureSchema.
  apply coherent_superRefine, coherent_superRefine, Coherent_shape.
Qed.

(** ** The entry point in terms of the issues of the schema *)

Lemma validate_unfold v name s :
  validateInfrastructureConfig v name s =
  match schema_issues s v with
  | [] => mkResult true None
  | _ :: _ => mkResult false (Some (map to_error (schema_issues s v)))
  end.
Proof.
  unfold validateInfrastructureConfig, parse, schema_issues.
  pose proof (Coherent_create s [] v) as H. unfold coherent in H.
  destruct (createInfrastructureSchema s [] v) as [[| c | c] issues];
    cbn [fst snd] in *.
  - destruct issues; [contradiction | reflexivity].
  - destruct issues; [contradiction | reflexivity].
  - subst. reflexivity.
Qed.

Lemma errors_of_validate v name s :
  errors_of (validateInfrastructureConfig v name s) = map to_error (schema_issues s v).
Proof.
  rewrite validate_unfold. destruct (schema_issues s v); reflexivity.
Qed.

Lemma success_validate v name s :
  success (validateInfrastructureConfig v name s) = true <-> schema_issues s v = [].
Proof.
  rewrite validate_unfold. destruct (schema_issues s v); cbn; split;
    congruence.
Qed.

Lemma schema_issues_eq s v :
  schema_issues s v =
  (field_issues v ++
   match structure v with
   | Some c => infrastructure_refinement c ++ messageGroupId_refinement s c
   | None => []
   end)%list.
Proof.
  unfold schema_issues, createInfrastructureSchema, infrastructureSchema,
    superRefine, structure, field_issues.
  destruct (infrastructureShape [] v) as [[| c | c] fi]; cbn [fst snd parsed_value].
  - rewrite app_nil_r. reflexivity.
  - rewrite !map_relocate_nil, app_assoc. reflexivity.
  - rewrite !map_relocate_nil.
    destruct (infrastructure_refinement c); cbn [status_of];
      rewrite ?map_relocate_nil, ?app_assoc; reflexivity.
Qed.

(** ** Members that did not abort *)

Lemma opt_number_valued checks p x o :
  parsed_value (fst (optional (z_number checks) p x)) = Some o ->
  x = js_of_number o
  /\ o <> Some NaN
  /\ snd (optional (z_number checks) p x) = opt_checks p checks o.
Proof.
  rewrite optional_eq.
  destruct x as [| | |n| | |]; cbn [fst snd parsed_value z_number map_return];
    try discriminate.
  - intros [= <-]. repeat split. discriminate.
  - destruct n; cbn [fst snd]; rewrite ?parsed_value_map; cbn [parsed_value];
      try discriminate.
    + destruct (flat_map _ checks) eqn:E; cbn [status_of parsed_value option_map];
        intros [= <-]; cbn [js_of_number opt_checks]; rewrite E;
        repeat split; discriminate.
    + destruct (flat_map _ checks) eqn:E; cbn [status_of parsed_value option_map];
        intros [= <-]; cbn [js_of_number opt_checks]; rewrite E;
        repeat split; discriminate.
    + destruct (flat_map _ checks) eqn:E; cbn [status_of parsed_value option_map];
        intros [= <-]; cbn [js_of_number opt_checks]; rewrite E;
        repeat split; discriminate.
Qed.

Lemma opt_enum_valued values p x o :
  parsed_value (fst (optional (z_enum values) p x)) = Some o ->
  x = js_of_string o
  /\ snd (optional (z_enum values) p x) = [].
Proof.
  rewrite optional_eq.
  destruct x; cbn [fst snd parsed_value z_enum map_return]; try discriminate.
  - intros [= <-]. split; reflexivity.
  - destruct (existsb _ values); cbn [fst snd parsed_value map_return];
      [| discriminate].
    intros [= <-]. split; reflexivity.
Qed.

Lemma opt_id_valued p x o :
  parsed_value (fst (optional (nullable z_string) p x)) = Some o ->
  x = js_of_id o
  /\ snd (optional (nullable z_string) p x) = [].
Proof.
  rewrite optional_eq.
  destruct x; cbn [fst snd parsed_value z_string nullable map_return];
    try discriminate; intros [= <-]; split; reflexivity.
Qed.

Lemma handler_valued p x o :
  parsed_value (fst (optional handlerBaseSchema_partial p x)) = Some o ->
  snd (optional handlerBaseSchema_partial p x) =
  (opt_checks (p ++ ["ram"]) ram_checks (chain o ram)
   ++ opt_checks (p ++ ["timeout"]) timeout_checks (chain o timeout))%list.
Proof.
  rewrite optional_eq.
  destruct x as [| | | | | | props];
    cbn [fst snd parsed_value handlerBaseSchema_partial z_object map_return];
    try discriminate.
  - intros [= <-]. reflexivity.
  - rewrite parsed_value_map, !ap_value, !ap_issues.
    cbn [pure fst snd parsed_value app].
    unfold field, ram_schema, timeout_schema, machineType_schema.
    destruct (parsed_value (fst (optional (z_number ram_checks) _ _))) as [r|] eqn:E1;
      [| discriminate].
    destruct (parsed_value (fst (optional (z_number timeout_checks) _ _))) as [t|] eqn:E2;
      [| discriminate].
    destruct (parsed_value (fst (optional (z_number []) _ _))) as [c|] eqn:E3;
      [| discriminate].
    destruct (parsed_value (fst (optional (z_enum _) _ _))) as [m|] eqn:E4;
      [| discriminate].
    cbn [option_map]. intros [= <-]. cbn [chain ram timeout].
    apply opt_number_valued in E1 as (_ & _ & ->).
    apply opt_number_valued in E2 as (_ & _ & ->).
    apply opt_number_valued in E3 as (_ & _ & ->).
    apply opt_enum_valued in E4 as (_ & ->).
    destruct c; cbn [opt_checks flat_map]; rewrite !app_nil_r; reflexivity.
Qed.

Lemma queue_valued p x o :
  parsed_value (fst (optional queueSchema_partial p x)) = Some o ->
  snd (optional queueSchema_partial p x) =
  opt_checks (p ++ ["maxRetries"]) maxRetries_checks (chain o maxRetries).
Proof.
  rewrite optional_eq.
  destruct x as [| | | | | | props];
    cbn [fst snd parsed_value queueSchema_partial z_object map_return];
    try discriminate.
  - intros [= <-]. reflexivity.
  - rewrite parsed_value_map, !ap_value, !ap_issues.
    cbn [pure fst snd parsed_value app].
    unfold field, maxRetries_schema.
    destruct (parsed_value (fst (optional (z_enum ["standard"; "fifo"]) _ _)))
      as [ty|] eqn:E1; [| discriminate].
    destruct (parsed_value (fst (optional (z_number []) _ _))) as [vt|] eqn:E2;
      [| discriminate].
    destruct (parsed_value (fst (optional (nullable z_string) _ _))) as [g|] eqn:E3;
      [| discriminate].
    destruct (parsed_value (fst (optional (z_number maxRetries_checks) _ _)))
      as [mr|] eqn:E4; [| discriminate].
    destruct (parsed_value
                (fst (optional (z_enum ["none"; "exponential"; "jitter"]) _ _)))
      as [rs|] eqn:E5; [| discriminate].
    cbn [option_map]. intros [= <-]. cbn [chain maxRetries].
    apply opt_enum_valued in E1 as (_ & ->).
    apply opt_number_valued in E2 as (_ & _ & ->).
    apply opt_id_valued in E3 as (_ & ->).
    apply opt_number_valued in E4 as (_ & _ & ->).
    apply opt_enum_valued in E5 as (_ & ->).
    destruct vt; cbn [opt_checks flat_map app]; rewrite !app_nil_r; reflexivity.
Qed.

Lemma structure_issues v c :
  structure v = Some c ->
  field_issues v = (handler_range_issues c ++ queue_range_issues c)%list.
Proof.
  unfold structure, field_issues.
  destruct v as [| | | | | | props];
    cbn [fst snd parsed_value infrastructureShape z_object]; try discriminate.
  rewrite !ap_value, !ap_issues. cbn [pure fst snd parsed_value app].
  unfold field. cbn [app].
  destruct (parsed_value (fst (optional handlerBaseSchema_partial _ _)))
    as [h|] eqn:E1; [| discriminate].
  destruct (parsed_value (fst (optional queueSchema_partial _ _)))
    as [q|] eqn:E2; [| discriminate].
  intros [= <-].
  rewrite (handler_valued _ _ _ E1), (queue_valued _ _ _ E2).
  reflexivity.
Qed.

Lemma structured_issues s v c :
  structure v = Some c -> schema_issues s v = all_passes s c.
Proof.
  intro H. rewrite schema_issues_eq, H, (structure_issues v c H).
  unfold all_passes, infrastructure_refinement.
  rewrite <- !app_assoc. reflexivity.
Qed.

Lemma aborted_issues s v :
  structure v = None -> schema_issues s v = field_issues v.
Proof.
  intro H. rewrite schema_issues_eq, H, app_nil_r. reflexivity.
Qed.

(** ** Declared types of the members *)

Lemma is_some_ap {A B} (f : Parsed (A -> B)) (x : Parsed A) :
  is_some (parsed_value (fst (ap f x)))
  = is_some (parsed_value (fst f)) && is_some (parsed_value (fst x)).
Proof. destruct f as [[| |] ?], x as [[| |] ?]; reflexivity. Qed.

Lemma is_some_map {A B} (f : A -> B) r :
  is_some (parsed_value (map_return f r)) = is_some (parsed_value r).
Proof. destruct r; reflexivity. Qed.

Lemma opt_number_typed checks p x :
  is_some (parsed_value (fst (optional (z_number checks) p x))) = opt_number_ok x.
Proof.
  rewrite optional_eq.
  destruct x as [| | |n| | |]; try reflexivity.
  destruct n; try reflexivity; cbn [fst z_number]; rewrite is_some_map;
    destruct (flat_map _ checks); reflexivity.
Qed.

Lemma opt_enum_typed values p x :
  is_some (parsed_value (fst (optional (z_enum values) p x))) = opt_enum_ok values x.
Proof.
  rewrite optional_eq.
  destruct x; try reflexivity. cbn [fst z_enum opt_enum_ok].
  destruct (existsb _ values); reflexivity.
Qed.

Lemma opt_id_typed p x :
  is_some (parsed_value (fst (optional (nullable z_string) p x))) = opt_id_ok x.
Proof. rewrite optional_eq. destruct x; reflexivity. Qed.

Lemma handler_typed_eq p x :
  is_some (parsed_value (fst (optional handlerBaseSchema_partial p x)))
  = handler_typed x.
Proof.
  rewrite optional_eq.
  destruct x as [| | | | | | props]; try reflexivity.
  cbn [fst handlerBaseSchema_partial z_object handler_typed].
  rewrite is_some_map, !is_some_ap. unfold field.
  unfold ram_schema, timeout_schema, machineType_schema.
  rewrite !opt_number_typed, opt_enum_typed. reflexivity.
Qed.

Lemma queue_typed_eq p x :
  is_some (parsed_value (fst (optional queueSchema_partial p x)))
  = queue_typed x.
Proof.
  rewrite optional_eq.
  destruct x as [| | | | | | props]; try reflexivity.
  cbn [fst queueSchema_partial z_object queue_typed].
  rewrite is_some_map, !is_some_ap. unfold field, maxRetries_schema.
  rewrite !opt_number_typed, !opt_enum_typed, opt_id_typed. reflexivity.
Qed.

Lemma structure_typed v : is_some (structure v) = well_typed v.
Proof.
  unfold structure.
  destruct v as [| | | | | | props]; try reflexivity.
  cbn [fst infrastructureShape z_object well_typed].
  rewrite !is_some_ap. unfold field.
  rewrite handler_typed_eq, queue_typed_eq. reflexivity.
Qed.

Lemma typed_structure v :
  well_typed v = true -> exists c, structure v = Some c.
Proof.
  rewrite <- structure_typed.
  destruct (structure v) as [c|]; [eauto | discriminate].
Qed.

Lemma untyped_structure v : well_typed v = false -> structure v = None.
Proof.
  rewrite <- structure_typed.
  destruct (structure v) as [c|]; [discriminate | reflexivity].
Qed.

(** ** The typed descriptor reflects the members of the value *)

Lemma handler_reflects p x o :
  parsed_value (fst (optional handlerBaseSchema_partial p x)) = Some o ->
  member x "ram" = js_of_number (chain o ram)
  /\ member x "timeout" = js_of_number (chain o timeout)
  /\ member x "cpu" = js_of_number (chain o cpu)
  /\ member x "machineType" = js_of_string (chain o machineType).
Proof.
  rewrite optional_eq.
  destruct x as [| | | | | | props];
    cbn [fst snd parsed_value handlerBaseSchema_partial z_object map_return];
    try discriminate.
  - intros [= <-]. repeat split.
  - rewrite parsed_value_map, !ap_value.
    cbn [pure fst snd parsed_value].
    unfold field, ram_schema, timeout_schema, machineType_schema.
    destruct (parsed_value (fst (optional (z_number ram_checks) _ _))) as [r|] eqn:E1;
      [| discriminate].
    destruct (parsed_value (fst (optional (z_number timeout_checks) _ _))) as [t|] eqn:E2;
      [| discriminate].
    destruct (parsed_value (fst (optional (z_number []) _ _))) as [c|] eqn:E3;
      [| discriminate].
    destruct (parsed_value (fst (optional (z_enum _) _ _))) as [m|] eqn:E4;
      [| discriminate].
    cbn [option_map]. intros [= <-]. cbn [chain ram timeout cpu machineType member].
    apply opt_number_valued in E1 as (-> & _).
    apply opt_number_valued in E2 as (-> & _).
    apply opt_number_valued in E3 as (-> & _).
    apply opt_enum_valued in E4 as (-> & _).
    repeat split.
Qed.

Lemma queue_reflects p x o :
  parsed_value (fst (optional queueSchema_partial p x)) = Some o ->
  member x "type" = js_of_string (chain o type)
  /\ member x "visibilityTimeout" = js_of_number (chain o visibilityTimeout)
  /\ member x "messageGroupId" = js_of_id (chain o messageGroupId)
  /\ member x "maxRetries" = js_of_number (chain o maxRetries)
  /\ member x "retryStrategy" = js_of_string (chain o retryStrategy).
Proof.
  rewrite optional_eq.
  destruct x as [| | | | | | props];
    cbn [fst snd parsed_value queueSchema_partial z_object map_return];
    try discriminate.
  - intros [= <-]. repeat split.
  - rewrite parsed_value_map, !ap_value.
    cbn [pure fst snd parsed_value].
    unfold field, maxRetries_schema.
    destruct (parsed_value (fst (optional (z_enum ["standard"; "fifo"]) _ _)))
      as [ty|] eqn:E1; [| discriminate].
    destruct (parsed_value (fst (optional (z_number []) _ _))) as [vt|] eqn:E2;
      [| discriminate].
    destruct (parsed_value (fst (optional (nullable z_string) _ _))) as [g|] eqn:E3;
      [| discriminate].
    destruct (parsed_value (fst (optional (z_number maxRetries_checks) _ _)))
      as [mr|] eqn:E4; [| discriminate].
    destruct (parsed_value
                (fst (optional (z_enum ["none"; "exponential"; "jitter"]) _ _)))
      as [rs|] eqn:E5; [| discriminate].
    cbn [option_map]. intros [= <-].
    cbn [chain type visibilityTimeout messageGroupId maxRetries retryStrategy member].
    apply opt_enum_valued in E1 as (-> & _).
    apply opt_number_valued in E2 as (-> & _).
    apply opt_id_valued in E3 as (-> & _).
    apply opt_number_valued in E4 as (-> & _).
    apply opt_enum_valued in E5 as (-> & _).
    repeat split.
Qed.

Lemma structure_reflects v c :
  structure v = Some c ->
  (member (member v "handler") "ram" = js_of_number (chain (handler c) ram)
   /\ member (member v "handler") "timeout" = js_of_number (chain (handler c) timeout)
   /\ member (member v "handler") "cpu" = js_of_number (chain (handler c) cpu)
   /\ member (member v "handler") "machineType"
      = js_of_string (chain (handler c) machineType))
  /\ (member (member v "queue") "type" = js_of_string (chain (queue c) type)
   /\ member (member v "queue") "visibilityTimeout"
      = js_of_number (chain (queue c) visibilityTimeout)
   /\ member (member v "queue") "messageGroupId"
      = js_of_id (chain (queue c) messageGroupId)
   /\ member (member v "queue") "maxRetries"
      = js_of_number (chain (queue c) maxRetries)
   /\ member (member v "queue") "retryStrategy"
      = js_of_string (chain (queue c) retryStrategy)).
Proof.
  unfold structure.
  destruct v as [| | | | | | props];
    cbn [fst snd parsed_value infrastructureShape z_object]; try discriminate.
  rewrite !ap_value. cbn [pure fst snd parsed_value].
  unfold field.
  destruct (parsed_value (fst (optional handlerBaseSchema_partial _ _)))
    as [h|] eqn:E1; [| discriminate].
  destruct (parsed_value (fst (optional queueSchema_partial _ _)))
    as [q|] eqn:E2; [| discriminate].
  intros [= <-]. cbn [handler queue member].
  split; [exact (handler_reflects _ _ _ E1) | exact (queue_reflects _ _ _ E2)].
Qed.

(** ** Paths of the issues *)

Lemma opt_checks_at q checks o : all_at q (opt_checks q checks o).
Proof.
  intros i Hi. destruct o as [n|]; [| contradiction].
  cbn [opt_checks] in Hi. apply in_flat_map in Hi as (c & _ & Hc).
  destruct c; cbn [check_issue] in Hc;
    match type of Hc with In _ (if ?b then _ else _) => destruct b end;
    cbn [In] in Hc;
    first [contradiction | destruct Hc as [<- | []]; reflexivity].
Qed.

Lemma proportionality_at c : all_at ["handler"; "cpu"] (proportionality_check c).
Proof.
  intros i Hi. unfold proportionality_check in Hi.
  destruct (chain (handler c) cpu); [| contradiction].
  destruct (chain (handler c) ram); [| contradiction].
  destruct (num_gt _ _); [| contradiction].
  destruct Hi as [<- | []]. reflexivity.
Qed.

Lemma visibility_at c : all_at ["queue"; "visibilityTimeout"] (visibility_check c).
Proof.
  intros i Hi. unfold visibility_check in Hi.
  destruct (chain (queue c) visibilityTimeout); [| contradiction].
  destruct (chain (handler c) timeout); [| contradiction].
  destruct (num_le _ _); [| contradiction].
  destruct Hi as [<- | []]. reflexivity.
Qed.

Lemma fifo_at c : all_at ["queue"; "messageGroupId"] (fifo_check c).
Proof.
  intros i Hi. unfold fifo_check in Hi.
  destruct (chain (queue c) type); [| contradiction].
  destruct (_ && _); [| contradiction].
  destruct Hi as [<- | []]. reflexivity.
Qed.

Lemma query_shape_at schema g issues :
  query_shape schema g = Ret issues -> all_at ["queue"; "messageGroupId"] issues.
Proof.
  unfold query_shape, bind.
  destruct (shape schema) as [sv | e]; [| discriminate].
  destruct (shape_falsy sv).
  - intros [= <-] i [<- | []]. reflexivity.
  - destruct (js_in g sv) as [found | e]; [| discriminate].
    intros [= <-] i Hi. destruct (negb found); [| contradiction].
    destruct Hi as [<- | []]. reflexivity.
Qed.

Lemma messageGroupId_at s c :
  all_at ["queue"; "messageGroupId"] (messageGroupId_refinement s c).
Proof.
  intros i Hi. unfold messageGroupId_refinement in Hi.
  destruct (falsy_id _); [contradiction|].
  destruct (chain (queue c) messageGroupId) as [[| g]|]; try contradiction.
  destruct s as [schema|].
  - destruct (_ || _).
    + destruct Hi as [<- | []]. reflexivity.
    + destruct (query_shape schema g) eqn:E.
      * exact (query_shape_at _ _ _ E i Hi).
      * destruct Hi as [<- | []]. reflexivity.
  - destruct Hi as [<- | []]. reflexivity.
Qed.

Lemma filter_other p q l :
  all_at q l -> dotted q <> p ->
  filter (fun e => String.eqb (path e) p) (map to_error l) = [].
Proof.
  intros Hat Hne. induction l as [|i l IH]; [reflexivity|].
  cbn [map filter]. unfold to_error at 1. cbn [path].
  rewrite (Hat i (or_introl eq_refl)).
  destruct (String.eqb_spec (dotted q) p) as [E | _]; [contradiction|].
  apply IH. intros j Hj. apply Hat. right. exact Hj.
Qed.

Lemma filter_same p q l :
  all_at q l -> dotted q = p ->
  filter (fun e => String.eqb (path e) p) (map to_error l) = map to_error l.
Proof.
  intros Hat He. induction l as [|i l IH]; [reflexivity|].
  cbn [map filter]. unfold to_error at 1. cbn [path].
  rewrite (Hat i (or_introl eq_refl)), He, String.eqb_refl.
  f_equal. apply IH. intros j Hj. apply Hat. right. exact Hj.
Qed.

(** The errors reported at a path, pass by pass. *)
Ltac by_path :=
  repeat rewrite ?map_app, ?filter_app;
  repeat first
    [ rewrite (filter_other _ _ _ (opt_checks_at _ _ _)) by discriminate
    | rewrite (filter_other _ _ _ (proportionality_at _)) by discriminate
    | rewrite (filter_other _ _ _ (visibility_at _)) by discriminate
    | rewrite (filter_other _ _ _ (fifo_at _)) by discriminate
    | rewrite (filter_other _ _ _ (messageGroupId_at _ _)) by discriminate
    | rewrite (filter_same _ _ _ (opt_checks_at _ _ _)) by reflexivity
    | rewrite (filter_same _ _ _ (proportionality_at _)) by reflexivity
    | rewrite (filter_same _ _ _ (visibility_at _)) by reflexivity
    | rewrite (filter_same _ _ _ (fifo_at _)) by reflexivity
    | rewrite (filter_same _ _ _ (messageGroupId_at _ _)) by reflexivity ];
  cbn [app]; rewrite ?app_nil_r.

Lemma reported_visibility v name s c :
  structure v = Some c ->
  reported_at "queue.visibilityTimeout" (validateInfrastructureConfig v name s)
  = map to_error (visibility_check c).
Proof.
  intro H. unfold reported_at.
  rewrite errors_of_validate, (structured_issues s v c H).
  unfold all_passes, handler_range_issues, queue_range_issues.
  by_path. reflexivity.
Qed.


Lemma leaf_number_at checks p x : all_at p (snd (optional (z_number checks) p x)).
Proof.
  rewrite optional_eq.
  destruct x as [| | |n| | |]; cbn [fst snd z_number];
    try (intros i [<- | []]; reflexivity); try (intros i []).
  destruct n; cbn [snd];
    try (intros i [<- | []]; reflexivity);
    apply (opt_checks_at p checks (Some _)).
Qed.

Lemma leaf_enum_at values p x : all_at p (snd (optional (z_enum values) p x)).
Proof.
  rewrite optional_eq.
  destruct x; cbn [fst snd z_enum];
    try (intros i [<- | []]; reflexivity); try (intros i []).
  destruct (existsb _ values); cbn [snd];
    [intros i [] | intros i [<- | []]; reflexivity].
Qed.

Lemma leaf_id_at p x : all_at p (snd (optional (nullable z_string) p x)).
Proof.
  rewrite optional_eq.
  destruct x; cbn [fst snd z_string nullable];
    try (intros i [<- | []]; reflexivity); intros i [].
Qed.

Lemma all_at_app q l1 l2 : all_at q l1 -> all_at q l2 -> all_at q (l1 ++ l2).
Proof.
  intros H1 H2 i Hi. apply in_app_or in Hi as [Hi | Hi]; auto.
Qed.

Lemma at_under k rest l : all_at (k :: rest) l -> all_under k l.
Proof. intros H i Hi. exists rest. apply H, Hi. Qed.

Lemma under_app k l1 l2 : all_under k l1 -> all_under k l2 -> all_under k (l1 ++ l2).
Proof.
  intros H1 H2 i Hi. apply in_app_or in Hi as [Hi | Hi]; auto.
Qed.

Lemma handler_under x :
  all_under "handler" (snd (optional handlerBaseSchema_partial ["handler"] x)).
Proof.
  rewrite optional_eq.
  destruct x as [| | | | | | props];
    cbn [fst snd handlerBaseSchema_partial z_object];
    try (intros i [<- | []]; exists []; reflexivity); try (intros i []).
  rewrite !ap_issues. cbn [pure snd app]. unfold field. cbn [app].
  repeat apply under_app.
  - apply (at_under _ ["ram"]), leaf_number_at.
  - apply (at_under _ ["timeout"]), leaf_number_at.
  - apply (at_under _ ["cpu"]), leaf_number_at.
  - apply (at_under _ ["machineType"]), leaf_enum_at.
Qed.

Lemma filter_under p k l :
  all_under k l -> (forall rest, dotted (k :: rest) <> p) ->
  filter (fun e => String.eqb (path e) p) (map to_error l) = [].
Proof.
  intros Hu Hne. induction l as [|i l IH]; [reflexivity|].
  cbn [map filter]. unfold to_error at 1. cbn [path].
  destruct (Hu i (or_introl eq_refl)) as (rest & ->).
  destruct (String.eqb_spec (dotted (k :: rest)) p) as [E | _].
  - exfalso. exact (Hne rest E).
  - apply IH. intros j Hj. apply Hu. right. exact Hj.
Qed.

Lemma handler_not_queue rest p :
  dotted ("handler" :: rest) <> String "q" p.
Proof.
  destruct rest; cbn; discriminate.
Qed.

Lemma queue_member_issues qprops :
  snd (optional queueSchema_partial ["queue"] (JObject qprops)) =
  (snd (optional (z_enum ["standard"; "fifo"]) ["queue"; "type"]
          (get_prop qprops "type"))
   ++ snd (optional (z_number []) ["queue"; "visibilityTimeout"]
             (get_prop qprops "visibilityTimeout"))
   ++ snd (optional (nullable z_string) ["queue"; "messageGroupId"]
             (get_prop qprops "messageGroupId"))
   ++ snd (optional maxRetries_schema ["queue"; "maxRetries"]
             (get_prop qprops "maxRetries"))
   ++ snd (optional (z_enum ["none"; "exponential"; "jitter"])
             ["queue"; "retryStrategy"] (get_prop qprops "retryStrategy")))%list.
Proof.
  rewrite optional_eq. cbn [snd queueSchema_partial z_object].
  rewrite !ap_issues. cbn [pure snd app]. unfold field. cbn [app].
  rewrite <- !app_assoc. reflexivity.
Qed.

Lemma reported_maxRetries props qprops name s :
  get_prop props "queue" = JObject qprops ->
  reported_at "queue.maxRetries"
    (validateInfrastructureConfig (JObject props) name s)
  = map to_error
      (snd (optional maxRetries_schema ["queue"; "maxRetries"]
              (get_prop qprops "maxRetries"))).
Proof.
  intro Hq. unfold reported_at.
  rewrite errors_of_validate, schema_issues_eq.
  unfold field_issues. cbn [snd infrastructureShape z_object].
  rewrite !ap_issues. cbn [pure snd app]. unfold field. cbn [app].
  rewrite Hq, queue_member_issues.
  rewrite !map_app, !filter_app.
  rewrite (filter_under _ _ _ (handler_under _))
    by (intro rest; apply handler_not_queue).
  rewrite (filter_other _ _ _ (leaf_enum_at _ _ _)) by discriminate.
  rewrite (filter_other _ _ _ (leaf_number_at _ _ _)) by discriminate.
  rewrite (filter_other _ _ _ (leaf_id_at _ _)) by discriminate.
  rewrite (filter_other _ _ _ (leaf_enum_at _ _ _)) by discriminate.
  unfold maxRetries_schema.
  rewrite (filter_same _ _ _ (leaf_number_at _ _ _)) by reflexivity.
  destruct (structure _) as [c|]; cbn [app]; rewrite ?app_nil_r; [| reflexivity].
  unfold infrastructure_refinement. by_path. reflexivity.
Qed.

Lemma maxRetries_accepted p x :
  x <> JUndefined ->
  (snd (optional maxRetries_schema p x) = []
   <-> exists n, x = JNumber n /\ num_le (of_Z 0) n = true).
Proof.
  intro Hx. rewrite optional_eq. unfold maxRetries_schema.
  destruct x as [| | |n| | |]; try contradiction;
    cbn [snd z_number];
    try (split; [discriminate | intros (n & [=] & _)]).
  destruct n as [q | | |]; cbn [snd flat_map maxRetries_checks check_issue num_lt of_Z app].
  - unfold Qlt_bool. destruct (Qle_bool (inject_Z 0) q) eqn:E; cbn [negb app].
    + split; [intros _ | reflexivity]. exists (Fin q). split; [reflexivity | exact E].
    + split; [discriminate|]. intros (n & [= <-] & H). cbn in H. congruence.
  - split; [intros _ | reflexivity]. exists PosInf. split; reflexivity.
  - split; [discriminate|]. intros (n & [= <-] & H). discriminate.
  - split; [discriminate|]. intros (n & [= <-] & H). discriminate.
Qed.

Lemma js_number_inv o n : js_of_number o = JNumber n -> o = Some n.
Proof. destruct o; cbn; [intros [= ->]; reflexivity | discriminate]. Qed.

Lemma js_number_undefined o : js_of_number o = JUndefined -> o = None.
Proof. destruct o; cbn; [discriminate | reflexivity]. Qed.

Lemma js_id_inv o g : js_of_id o = JString g -> o = Some (NotNull g).
Proof.
  destruct o as [[| s]|]; cbn; try discriminate. intros [= ->]. reflexivity.
Qed.

(** ** Accumulation of the passes *)

(** C1 (as amended): when no present member fails a type or an enum
    check, the errors are those of the handler range checks, the queue
    range checks, the proportionality, cross-field and fifo checks and the
    message-grouping-key check, all in one batch; in particular an
    out-of-range [handler.ram] and a visibility timeout not above the
    handler timeout are both reported.  When a member fails a type or an
    enum check, the errors are those of the members alone. *)
Theorem passes_batched v name s :
  (well_typed v = true ->
   exists c,
     structure v = Some c
     /\ errors_of (validateInfrastructureConfig v name s)
        = map to_error (all_passes s c))
  /\ (well_typed v = false ->
      errors_of (validateInfrastructureConfig v name s)
      = map to_error (field_issues v))
  /\ (well_typed v = true ->
      forall r vt t,
        member (member v "handler") "ram" = JNumber r ->
        member (member v "queue") "visibilityTimeout" = JNumber vt ->
        member (member v "handler") "timeout" = JNumber t ->
        num_le vt t = true ->
        (num_lt r (of_Z 128) = true ->
         In (mkError "handler.ram" [Text "RAM must be at least 128 MB"])
            (errors_of (validateInfrastructureConfig v name s)))
        /\ (num_gt r (of_Z 10240) = true ->
            In (mkError "handler.ram" [Text "RAM cannot exceed 10240 MB"])
               (errors_of (validateInfrastructureConfig v name s)))
        /\ In (mkError "queue.visibilityTimeout" (visibility_message vt t))
              (errors_of (validateInfrastructureConfig v name s))).
Proof.
  split; [| split].
  - intro H. destruct (typed_structure v H) as (c & Hc). exists c.
    split; [exact Hc|].
    rewrite errors_of_validate, (structured_issues s v c Hc). reflexivity.
  - intro H. apply untyped_structure in H.
    rewrite errors_of_validate, (aborted_issues s v H). reflexivity.
  - intros Hs r vt t Hr Hvt Ht Hle.
    destruct (typed_structure v Hs) as (c & Hc).
    destruct (structure_reflects v c Hc) as ((Er & Et & _) & (_ & Evt & _)).
    rewrite Er in Hr. rewrite Evt in Hvt. rewrite Et in Ht.
    apply js_number_inv in Hr, Hvt, Ht.
    rewrite errors_of_validate, (structured_issues s v c Hc).
    unfold all_passes, handler_range_issues, visibility_check.
    rewrite Hr, Hvt, Ht, Hle.
    cbn [opt_checks flat_map ram_checks check_issue].
    change Limits.MIN_RAM_MB with 128%Z. change Limits.MAX_RAM_MB with 10240%Z.
    split; [| split].
    + intro Hlt. rewrite Hlt.
      apply (in_map to_error _ (mkIssue too_small ["handler"; "ram"]
                                  [Text "RAM must be at least 128 MB"])).
      left. reflexivity.
    + intro Hgt. rewrite Hgt.
      apply (in_map to_error _ (mkIssue too_big ["handler"; "ram"]
                                  [Text "RAM cannot exceed 10240 MB"])).
      apply in_or_app. left. apply in_or_app. left. apply in_or_app. right.
      left. reflexivity.
    + apply (in_map to_error _ (mkIssue custom ["queue"; "visibilityTimeout"]
                                   (visibility_message vt t))).
      apply in_or_app. right. apply in_or_app. right. apply in_or_app. right.
      left. reflexivity.
Qed.

Lemma passes_batched_witness :
  In (mkError "handler.ram" [Text "RAM must be at least 128 MB"])
     (errors_of (validateInfrastructureConfig descriptor_small_ram "step" None))
  /\ In (mkError "queue.visibilityTimeout"
           (visibility_message (of_Z 30) (of_Z 30)))
        (errors_of (validateInfrastructureConfig descriptor_small_ram "step" None)).
Proof.
  destruct (passes_batched descriptor_small_ram "step" None) as (_ & _ & H).
  assert (Hs : well_typed descriptor_small_ram = true) by reflexivity.
  destruct (H Hs (of_Z 64) (of_Z 30) (of_Z 30)) as (Hsmall & _ & Hvis);
    try reflexivity.
  split; [apply Hsmall; reflexivity | exact Hvis].
Defined.

Lemma passes_batched_counterexample :
  well_typed descriptor_bad_machine = false
  /\ member (member descriptor_bad_machine "queue") "visibilityTimeout" = num 30
  /\ member (member descriptor_bad_machine "handler") "timeout" = num 30
  /\ num_le (of_Z 30) (of_Z 30) = true
  /\ errors_of (validateInfrastructureConfig descriptor_bad_machine "step" None)
     = [mkError "handler.machineType"
          [Text "Invalid enum value. Expected 'cpu' | 'memory' | 'gpu', received 'tpu'"]]
  /\ ~ In (mkError "queue.visibilityTimeout"
             (visibility_message (of_Z 30) (of_Z 30)))
          (errors_of (validateInfrastructureConfig descriptor_bad_machine "step" None)).
Proof.
  repeat split; try reflexivity.
  intros [H | []]. discriminate H.
Qed.

(** ** The cross-field rule *)

(** C3 (as amended): when no present member fails a type or an enum
    check and [queue.visibilityTimeout] and [handler.timeout] are both
    present, a violation is reported at [queue.visibilityTimeout] exactly
    when [visibilityTimeout <= timeout]; its message is "Visibility
    timeout (<visibilityTimeout>s) must be greater than handler timeout
    (<timeout>s) to prevent premature message redelivery", with the two
    observed values; when either is absent none is reported. *)
Theorem visibility_rule v name s :
  well_typed v = true ->
  (forall vt t,
      member (member v "queue") "visibilityTimeout" = JNumber vt ->
      member (member v "handler") "timeout" = JNumber t ->
      reported_at "queue.visibilityTimeout"
        (validateInfrastructureConfig v name s)
      = if num_le vt t
        then [mkError "queue.visibilityTimeout"
                [ Text "Visibility timeout ("; Shown vt;
                  Text "s) must be greater than handler timeout ("; Shown t;
                  Text "s) to prevent premature message redelivery" ]]
        else [])
  /\ (member (member v "queue") "visibilityTimeout" = JUndefined
      \/ member (member v "handler") "timeout" = JUndefined ->
      reported_at "queue.visibilityTimeout"
        (validateInfrastructureConfig v name s) = []).
Proof.
  intro Hs. destruct (typed_structure v Hs) as (c & Hc).
  destruct (structure_reflects v c Hc) as ((_ & Et & _) & (_ & Evt & _)).
  rewrite (reported_visibility v name s c Hc), Et, Evt.
  unfold visibility_check. split.
  - intros vt t Hvt Ht. apply js_number_inv in Hvt, Ht. rewrite Hvt, Ht.
    destruct (num_le vt t); reflexivity.
  - intros [H | H]; apply js_number_undefined in H; rewrite H;
      [| destruct (chain (queue c) visibilityTimeout)]; reflexivity.
Qed.

Lemma visibility_rule_witness :
  reported_at "queue.visibilityTimeout"
    (validateInfrastructureConfig descriptor_equal_timeouts "step" None)
  = [mkError "queue.visibilityTimeout"
       [ Text "Visibility timeout ("; Shown (of_Z 30);
         Text "s) must be greater than handler timeout ("; Shown (of_Z 30);
         Text "s) to prevent premature message redelivery" ]]
  /\ reported_at "queue.visibilityTimeout"
       (validateInfrastructureConfig descriptor_longer_visibility "step" None)
     = [].
Proof.
  split.
  - apply (proj1 (visibility_rule descriptor_equal_timeouts "step" None
                    eq_refl) (of_Z 30) (of_Z 30));
      reflexivity.
  - apply (proj1 (visibility_rule descriptor_longer_visibility "step" None
                    eq_refl) (of_Z 31) (of_Z 30));
      reflexivity.
Defined.

Lemma visibility_rule_counterexample :
  member (member descriptor_bad_strategy "queue") "visibilityTimeout" = num 30
  /\ member (member descriptor_bad_strategy "handler") "timeout" = num 30
  /\ num_le (of_Z 30) (of_Z 30) = true
  /\ reported_at "queue.visibilityTimeout"
       (validateInfrastructureConfig descriptor_bad_strategy "step" None) = [].
Proof. repeat split. Qed.

(** ** The proportionality rule *)




(** ** The message-grouping key *)

(** The decision order of the key validator on a typed descriptor. *)
Lemma messageGroupId_decision_order s c :
  (length (messageGroupId_refinement s c) <= 1)%nat
  /\ (falsy_id (chain (queue c) messageGroupId) = true ->
      messageGroupId_refinement s c = [])
  /\ (forall g,
        chain (queue c) messageGroupId = Some (NotNull g) ->
        String.length g <> 0%nat ->
        (s = None ->
         messageGroupId_refinement s c = [group_issue (no_schema_message g)])
        /\ (forall schema,
              s = Some schema ->
              includes g "."%char || includes g "["%char = true ->
              messageGroupId_refinement s c = [group_issue (key_path_message g)])
        /\ (forall own,
              s = Some (mkInputSchema (Ret (ShapeObject own))) ->
              includes g "."%char || includes g "["%char = false ->
              messageGroupId_refinement s c =
              if existsb (String.eqb g) own
                 || existsb (String.eqb g) Object_prototype
              then [] else [group_issue (not_found_message g)])).
Proof.
  unfold messageGroupId_refinement. split; [| split].
  - destruct (falsy_id _); [cbn; lia|].
    destruct (chain (queue c) messageGroupId) as [[| g]|]; try (cbn; lia).
    destruct s as [schema|]; [| cbn; lia].
    destruct (_ || _); [cbn; lia|].
    unfold query_shape, bind.
    destruct (shape schema) as [sv|]; [| cbn; lia].
    destruct (shape_falsy sv); [cbn; lia|].
    destruct (js_in g sv) as [[|]|]; cbn; lia.
  - intros ->. reflexivity.
  - intros g Hg Hne. rewrite Hg. cbn [falsy_id].
    destruct (Nat.eqb_spec (String.length g) 0) as [E | _]; [contradiction|].
    split; [| split].
    + intros ->. reflexivity.
    + intros schema -> ->. reflexivity.
    + intros own -> ->. unfold query_shape, bind.
      cbn [shape shape_falsy js_in].
      destruct (existsb _ own || existsb _ Object_prototype); reflexivity.
Qed.

(** C4, at the failing input: a grouping key that names a property
    inherited from [Object.prototype] is accepted against a schema that has
    no such field. *)
Theorem inherited_name_accepted :
  existsb (String.eqb "toString") ["traceId"] = false
  /\ validateInfrastructureConfig (descriptor_group "toString") "step"
       (Some (z_object_of ["traceId"]))
     = mkResult true None
  /\ validateInfrastructureConfig (descriptor_group "constructor") "step"
       (Some (z_object_of ["traceId"]))
     = mkResult true None
  /\ errors_of (validateInfrastructureConfig (descriptor_group "userId") "step"
                  (Some (z_object_of ["traceId"])))
     = [mkError "queue.messageGroupId" [Text (not_found_message "userId")]].
Proof. repeat split. Qed.

(** ** A reported grouping-key error *)

Lemma group_error_reported v name s c m :
  structure v = Some c ->
  messageGroupId_refinement s c = [group_issue m] ->
  success (validateInfrastructureConfig v name s) = false
  /\ In (mkError "queue.messageGroupId" [Text m])
        (errors_of (validateInfrastructureConfig v name s)).
Proof.
  intros Hc Hm. split.
  - destruct (success _) eqn:E; [| reflexivity].
    apply success_validate in E.
    rewrite (structured_issues s v c Hc) in E. unfold all_passes in E.
    rewrite Hm in E.
    repeat (apply app_eq_nil in E; destruct E as [_ E]). discriminate E.
  - rewrite errors_of_validate, (structured_issues s v c Hc).
    unfold all_passes. rewrite Hm.
    apply (in_map to_error _ (group_issue m)).
    repeat (apply in_or_app; right). left. reflexivity.
Qed.

(** ** Structural mismatches *)

Lemma get_prop_other k x props key :
  k <> key -> get_prop ((k, x) :: props) key = get_prop props key.
Proof.
  intro H. cbn [get_prop].
  destruct (String.eqb_spec k key) as [E | _]; [contradiction | reflexivity].
Qed.

Lemma schema_issues_unknown_key k x props s :
  k <> "handler" -> k <> "queue" ->
  createInfrastructureSchema s [] (JObject ((k, x) :: props))
  = createInfrastructureSchema s [] (JObject props).
Proof.
  intros Hh Hq.
  unfold createInfrastructureSchema, infrastructureSchema, superRefine,
    infrastructureShape, z_object, field.
  rewrite !(get_prop_other k x props) by assumption. reflexivity.
Qed.

(** C7 (as amended): a descriptor that is not an object is reported at
    path [infrastructure], and a [handler] or [queue] that is neither
    absent nor an object is reported at its path; a key of the descriptor
    other than [handler] and [queue] is ignored: it changes nothing in the
    result. *)
Theorem structural_mismatches :
  (forall v name s,
      (forall props, v <> JObject props) ->
      validateInfrastructureConfig v name s
      = mkResult false
          (Some [mkError "infrastructure"
                   (issue_message (invalid_type_issue [] "object" v))]))
  /\ (forall props key x name s,
      key = "handler" \/ key = "queue" ->
      get_prop props key = x ->
      x <> JUndefined -> (forall inner, x <> JObject inner) ->
      success (validateInfrastructureConfig (JObject props) name s) = false
      /\ In (mkError key (issue_message (invalid_type_issue [key] "object" x)))
            (errors_of (validateInfrastructureConfig (JObject props) name s)))
  /\ (forall k x props name s,
      k <> "handler" -> k <> "queue" ->
      validateInfrastructureConfig (JObject ((k, x) :: props)) name s
      = validateInfrastructureConfig (JObject props) name s).
Proof.
  split; [| split].
  - intros v name s Hv.
    destruct v; try reflexivity. exfalso. exact (Hv props eq_refl).
  - intros props key x name s Hkey Hx Hu Ho.
    assert (Hin : In (mkIssue invalid_type [key]
                        (issue_message (invalid_type_issue [key] "object" x)))
                     (schema_issues s (JObject props))).
    { rewrite schema_issues_eq. apply in_or_app. left.
      unfold field_issues. cbn [snd infrastructureShape z_object].
      rewrite !ap_issues. cbn [pure snd app]. unfold field. cbn [app].
      destruct Hkey as [-> | ->]; rewrite Hx, optional_eq;
        [apply in_or_app; left | apply in_or_app; right];
        destruct x; try contradiction; try (left; reflexivity);
        exfalso; exact (Ho _ eq_refl). }
    split.
    + destruct (success _) eqn:E; [| reflexivity].
      apply success_validate in E. rewrite E in Hin. contradiction.
    + rewrite errors_of_validate.
      apply (in_map to_error) in Hin.
      destruct Hkey as [-> | ->]; exact Hin.
  - intros k x props name s Hh Hq.
    unfold validateInfrastructureConfig, parse.
    rewrite (schema_issues_unknown_key k x props s Hh Hq). reflexivity.
Qed.

Lemma structural_mismatches_witness :
  validateInfrastructureConfig (str "2 GB") "step" None
  = mkResult false
      (Some [mkError "infrastructure" [Text "Expected object, received string"]])
  /\ validateInfrastructureConfig
       (JObject [("region", str "eu-west-1"); ("handler", obj [("ram", num 64)])])
       "step" None
     = validateInfrastructureConfig
         (JObject [("handler", obj [("ram", num 64)])]) "step" None.
Proof.
  destruct structural_mismatches as (Hshape & _ & Hkey).
  split.
  - apply (Hshape (str "2 GB") "step" None). intros props. discriminate.
  - apply (Hkey "region" (str "eu-west-1")); discriminate.
Defined.

Lemma structural_mismatches_counterexample :
  member descriptor_unknown_key "region" = str "eu-west-1"
  /\ validateInfrastructureConfig descriptor_unknown_key "step" None
     = mkResult true None.
Proof. split; reflexivity. Qed.

(** ** Retries *)

(** C8 (as amended): a present [maxRetries] is accepted exactly when it
    is a number, integer or not, that is at least 0. *)
Theorem maxRetries_rule v name s qprops x :
  member v "queue" = JObject qprops ->
  get_prop qprops "maxRetries" = x ->
  x <> JUndefined ->
  (reported_at "queue.maxRetries" (validateInfrastructureConfig v name s) = []
   <-> exists n, x = JNumber n /\ num_le (of_Z 0) n = true).
Proof.
  intros Hq Hx Hu.
  destruct v as [| | | | | | props]; try discriminate Hq.
  cbn [member] in Hq.
  rewrite (reported_maxRetries props qprops name s Hq), Hx.
  rewrite <- (maxRetries_accepted ["queue"; "maxRetries"] x Hu).
  destruct (snd _); cbn [map]; split; congruence.
Qed.

Lemma maxRetries_rule_witness :
  reported_at "queue.maxRetries"
    (validateInfrastructureConfig descriptor_fractional_retries "step" None) = []
  /\ reported_at "queue.maxRetries"
       (validateInfrastructureConfig descriptor_negative_retries "step" None) <> [].
Proof.
  split.
  - apply (maxRetries_rule descriptor_fractional_retries "step" None
             [("type", str "standard"); ("visibilityTimeout", num 60);
              ("maxRetries", JNumber (Fin (7 # 2)));
              ("retryStrategy", str "none")]
             (JNumber (Fin (7 # 2)))); try reflexivity; try discriminate.
    exists (Fin (7 # 2)). split; reflexivity.
  - intro H.
    apply (maxRetries_rule descriptor_negative_retries "step" None
             [("type", str "standard"); ("visibilityTimeout", num 60);
              ("maxRetries", num (-1)); ("retryStrategy", str "none")]
             (num (-1))) in H; try reflexivity; try discriminate.
    destruct H as (n & [= <-] & H). discriminate H.
Defined.

Lemma maxRetries_rule_counterexample :
  member (member descriptor_fractional_retries "queue") "maxRetries"
  = JNumber (Fin (7 # 2))
  /\ validateInfrastructureConfig descriptor_fractional_retries "step" None
     = mkResult true None.
Proof. split; reflexivity. Qed.

(** ** The two entry points *)

(** The two-argument entry point has the body of the three-argument
    one around a factory that it imports from [./schemas].  Whether the two
    return the same result is decided by that factory: they do for a
    factory whose schemas parse as those of [createInfrastructureSchema],
    whatever the step name, and a factory that refuses every descriptor
    makes them differ on the empty descriptor. *)
Lemma entry_points_agree_on_a_factory
    (factory : option InputSchema -> ZodType InfrastructureConfig)
    v stepName s :
  parse (factory s) v = parse (createInfrastructureSchema s) v ->
  InfrastructureValidator.validateInfrastructureConfig factory v s
  = validateInfrastructureConfig v stepName s.
Proof.
  intro H. unfold InfrastructureValidator.validateInfrastructureConfig,
    validateInfrastructureConfig. rewrite H. reflexivity.
Qed.

Example entry_points_differ_on_a_factory :
  InfrastructureValidator.validateInfrastructureConfig
    (fun _ _ _ => (INVALID, [])) (obj []) None
  <> validateInfrastructureConfig (obj []) "step" None.
Proof. discriminate. Qed.
(** ** Doubles *)

(** The double nearest to one tenth is the tolerance; a difference
    half way between two doubles goes to the one with the even significand
    ([-0.03750000000000001 - 0.0625] is [-0.1]); the largest double plus
    half a spacing overflows; half the smallest double rounds to zero. *)
Example binary64_samples :
  binary64 (1 # 10) = tolerance
  /\ double_sub (Fin (- (5404319552844597 # 144115188075855872)))
       (Fin (1 # 16))
     = num_neg tolerance
  /\ double_sub (of_Z 3) (of_Z 1) = of_Z 2
  /\ binary64 (pow2 1024 - pow2 970) = PosInf
  /\ binary64 (pow2 (-1075)) = Fin 0
  /\ binary64 (3 * pow2 (-1075)) = Fin (pow2 (-1073)).
Proof. vm_compute. repeat split. Qed.

(** ** Numbers other than NaN *)

Lemma not_lt_le a b :
  is_nan a = false -> is_nan b = false -> negb (num_lt a b) = num_le b a.
Proof.
  destruct a, b; cbn; try discriminate; try reflexivity.
  intros _ _. unfold Qlt_bool. apply negb_involutive.
Qed.





Lemma opt_number_cases x :
  opt_number_ok x = true ->
  x = JUndefined \/ exists n, x = JNumber n /\ is_nan n = false.
Proof.
  destruct x as [| | |n| | |]; try discriminate; [left; reflexivity|].
  destruct n; try discriminate; intros _; right; eexists; split; reflexivity.
Qed.



Lemma is_nil_true {A} (l : list A) : is_nil l = true <-> l = [].
Proof. destruct l; cbn; split; congruence. Qed.


(** ** The validator against the declarative validity *)



Lemma resolver_not_nan n : is_nan (getProportionalCpu n) = false.
Proof. destruct (resolver_finite n) as (c & ->). reflexivity. Qed.



Lemma falsy_id_js o : falsy_id o = js_falsy_id (js_of_id o).
Proof. destruct o as [[| g]|]; reflexivity. Qed.





(** ** The range of the resolver *)

(** X2: [getProportionalCpu] returns a finite number between 0.0625,
    the cpu of the smallest calibration point, and 5, the cpu of the
    largest, on every input: every finite ram, the two infinities and
    NaN. *)
Theorem getProportionalCpu_range n :
  exists e, getProportionalCpu n = Fin e /\ 1 # 16 <= e <= 5.
Proof.
  destruct n as [q | | |].
  - destruct (resolver_piecewise q) as (e & He & Hp). exists e.
    split; [exact He | exact (piecewise_bounds q e Hp)].
  - exists 5. split; [reflexivity | split; lra].
  - exists (1 # 16). split; [reflexivity | split; lra].
  - exists 5. split; [reflexivity | split; lra].
Qed.

(** ** Required grouping key of a fifo queue *)

Lemma reported_group v name s c :
  structure v = Some c ->
  reported_at "queue.messageGroupId" (validateInfrastructureConfig v name s)
  = (map to_error (fifo_check c)
     ++ map to_error (messageGroupId_refinement s c))%list.
Proof.
  intro H. unfold reported_at.
  rewrite errors_of_validate, (structured_issues s v c H).
  unfold all_passes, handler_range_issues, queue_range_issues.
  by_path. reflexivity.
Qed.

Lemma group_messages s c i :
  In i (messageGroupId_refinement s c) ->
  issue_message i <> [Text fifo_required_message].
Proof.
  unfold messageGroupId_refinement.
  destruct (falsy_id _); [contradiction|].
  destruct (chain (queue c) messageGroupId) as [[| g]|]; try contradiction.
  destruct s as [schema|].
  - destruct (_ || _).
    + intros [<- | []] H. cbn in H. discriminate H.
    + unfold query_shape, bind.
      destruct (shape schema) as [sv | e].
      * destruct (shape_falsy sv).
        -- intros [<- | []] H. cbn in H. discriminate H.
        -- destruct (js_in g sv) as [found | e].
           ++ destruct (negb found); [| contradiction].
              intros [<- | []] H. cbn in H. discriminate H.
           ++ intros [<- | []] H. cbn in H. discriminate H.
      * intros [<- | []] H. cbn in H. discriminate H.
  - intros [<- | []] H. cbn in H. discriminate H.
Qed.

(** X3: for a descriptor whose present members have their declared
    types, the error "messageGroupId is required when queue type is fifo"
    is reported exactly when [queue.type] is ['fifo'] and
    [queue.messageGroupId] is absent, null or empty; in that case it is
    the only error at [queue.messageGroupId], whatever the input schema. *)
Theorem fifo_rule v name s :
  well_typed v = true ->
  (js_falsy_id (queue_member v "messageGroupId") = true ->
   reported_at "queue.messageGroupId" (validateInfrastructureConfig v name s)
   = if js_is_string "fifo" (queue_member v "type")
     then [mkError "queue.messageGroupId" [Text fifo_required_message]]
     else [])
  /\ (js_falsy_id (queue_member v "messageGroupId") = false ->
      ~ In (mkError "queue.messageGroupId" [Text fifo_required_message])
           (errors_of (validateInfrastructureConfig v name s))).
Proof.
  intro Hw. destruct (typed_structure v Hw) as (c & Hc).
  destruct (structure_reflects v c Hc) as (_ & (Ety & _ & Eid & _)).
  fold (queue_member v "type") in Ety.
  fold (queue_member v "messageGroupId") in Eid.
  rewrite Ety, Eid, <- falsy_id_js. split.
  - intro F. rewrite (reported_group v name s c Hc).
    unfold messageGroupId_refinement. rewrite F. cbn [map]. rewrite app_nil_r.
    unfold fifo_check. rewrite F.
    destruct (chain (queue c) type) as [t|]; [| reflexivity].
    cbn [js_of_string js_is_string]. rewrite andb_true_r.
    destruct (String.eqb t "fifo"); reflexivity.
  - intros F Hin.
    assert (Hr : In (mkError "queue.messageGroupId" [Text fifo_required_message])
                   (reported_at "queue.messageGroupId"
                      (validateInfrastructureConfig v name s))).
    { unfold reported_at. apply filter_In. split; [exact Hin | reflexivity]. }
    rewrite (reported_group v name s c Hc) in Hr.
    unfold fifo_check in Hr. rewrite F in Hr.
    assert (Hnil : (match chain (queue c) type with
                    | Some t => if String.eqb t "fifo" && false then
                                  [mkIssue custom ["queue"; "messageGroupId"]
                                     [Text ("messageGroupId is required when queue type is "
                                            ++ dquote ++ "fifo" ++ dquote)]]
                                else []
                    | None => []
                    end) = []).
    { destruct (chain (queue c) type); [rewrite andb_false_r|]; reflexivity. }
    rewrite Hnil in Hr. cbn [map app] in Hr.
    apply in_map_iff in Hr as (i & Hi & Hin').
    apply (group_messages s c i Hin').
    unfold to_error in Hi. injection Hi as _ Hm. exact Hm.
Qed.

Lemma fifo_rule_witness :
  reported_at "queue.messageGroupId"
    (validateInfrastructureConfig descriptor_fifo_no_key "step"
       (Some (z_object_of ["traceId"])))
  = [mkError "queue.messageGroupId" [Text fifo_required_message]].
Proof.
  apply (proj1 (fifo_rule descriptor_fifo_no_key "step"
                  (Some (z_object_of ["traceId"])) eq_refl)).
  reflexivity.
Defined.

(** ** The input schema is consulted only for a grouping key *)

(** X4: the input schema and the step name have no effect on the result
    unless the descriptor is well typed and carries a non-empty grouping
    key; and a grouping key that contains ['.'] or ['['] is rejected
    without reading the schema, so that any two schemas give the same
    result. *)
Theorem schema_consulted_for_key_only v :
  (well_typed v = false
   \/ js_falsy_id (queue_member v "messageGroupId") = true ->
   forall name1 name2 s1 s2,
     validateInfrastructureConfig v name1 s1
     = validateInfrastructureConfig v name2 s2)
  /\ (forall g,
        queue_member v "messageGroupId" = JString g ->
        includes g "."%char || includes g "["%char = true ->
        forall name1 name2 schema1 schema2,
          validateInfrastructureConfig v name1 (Some schema1)
          = validateInfrastructureConfig v name2 (Some schema2)).
Proof.
  assert (Hgen : forall s1 s2 name1 name2,
             schema_issues s1 v = schema_issues s2 v ->
             validateInfrastructureConfig v name1 s1
             = validateInfrastructureConfig v name2 s2).
  { intros s1 s2 name1 name2 H. rewrite !validate_unfold, H. reflexivity. }
  split.
  - intros H name1 name2 s1 s2. apply Hgen.
    destruct (well_typed v) eqn:Hw.
    + destruct H as [H | F]; [discriminate|].
      destruct (typed_structure v Hw) as (c & Hc).
      destruct (structure_reflects v c Hc) as (_ & (_ & _ & Eid & _)).
      fold (queue_member v "messageGroupId") in Eid.
      rewrite Eid, <- falsy_id_js in F.
      rewrite !(structured_issues _ v c Hc). unfold all_passes.
      unfold messageGroupId_refinement. rewrite F. reflexivity.
    + rewrite !(aborted_issues _ v (untyped_structure v Hw)). reflexivity.
  - intros g Hg Hinc name1 name2 schema1 schema2. apply Hgen.
    destruct (well_typed v) eqn:Hw.
    + destruct (typed_structure v Hw) as (c & Hc).
      destruct (structure_reflects v c Hc) as (_ & (_ & _ & Eid & _)).
      fold (queue_member v "messageGroupId") in Eid.
      rewrite Eid in Hg. apply js_id_inv in Hg.
      rewrite !(structured_issues _ v c Hc). unfold all_passes.
      unfold messageGroupId_refinement. rewrite Hg, Hinc. reflexivity.
    + rewrite !(aborted_issues _ v (untyped_structure v Hw)). reflexivity.
Qed.

Lemma schema_consulted_for_key_only_witness :
  validateInfrastructureConfig descriptor_equal_timeouts "a" None
  = validateInfrastructureConfig descriptor_equal_timeouts "b"
      (Some (mkInputSchema (Raise NonError)))
  /\ validateInfrastructureConfig (descriptor_group "user.id") "a"
       (Some (z_object_of ["user.id"]))
     = validateInfrastructureConfig (descriptor_group "user.id") "b"
         (Some (mkInputSchema (Raise NonError))).
Proof.
  destruct (schema_consulted_for_key_only descriptor_equal_timeouts) as (H1 & _).
  destruct (schema_consulted_for_key_only (descriptor_group "user.id")) as (_ & H2).
  split.
  - apply H1. right. reflexivity.
  - apply (H2 "user.id"); reflexivity.
Defined.

(** ** Bounds of the handler *)

Lemma queue_under x :
  all_under "queue" (snd (optional queueSchema_partial ["queue"] x)).
Proof.
  rewrite optional_eq.
  destruct x as [| | | | | | props];
    try (intros i [<- | []]; exists []; reflexivity); try (intros i []).
  change (all_under "queue"
            (snd (optional queueSchema_partial ["queue"] (JObject props)))).
  rewrite queue_member_issues.
  repeat apply under_app.
  - apply (at_under _ ["type"]), leaf_enum_at.
  - apply (at_under _ ["visibilityTimeout"]), leaf_number_at.
  - apply (at_under _ ["messageGroupId"]), leaf_id_at.
  - apply (at_under _ ["maxRetries"]), leaf_number_at.
  - apply (at_under _ ["retryStrategy"]), leaf_enum_at.
Qed.

Lemma queue_not_handler rest p : dotted ("queue" :: rest) <> String "h" p.
Proof. destruct rest; cbn; discriminate. Qed.

Lemma handler_member_issues hprops :
  snd (optional handlerBaseSchema_partial ["handler"] (JObject hprops)) =
  (snd (optional ram_schema ["handler"; "ram"] (get_prop hprops "ram"))
   ++ snd (optional timeout_schema ["handler"; "timeout"]
             (get_prop hprops "timeout"))
   ++ snd (optional (z_number []) ["handler"; "cpu"] (get_prop hprops "cpu"))
   ++ snd (optional machineType_schema ["handler"; "machineType"]
             (get_prop hprops "machineType")))%list.
Proof.
  rewrite optional_eq. cbn [snd handlerBaseSchema_partial z_object].
  rewrite !ap_issues. cbn [pure snd app]. unfold field. cbn [app].
  rewrite <- !app_assoc. reflexivity.
Qed.

Lemma field_issues_object props :
  field_issues (JObject props)
  = (snd (optional handlerBaseSchema_partial ["handler"] (get_prop props "handler"))
     ++ snd (optional queueSchema_partial ["queue"] (get_prop props "queue")))%list.
Proof.
  unfold field_issues. cbn [snd infrastructureShape z_object].
  rewrite !ap_issues. reflexivity.
Qed.

Lemma reported_ram props hprops name s :
  get_prop props "handler" = JObject hprops ->
  reported_at "handler.ram"
    (validateInfrastructureConfig (JObject props) name s)
  = map to_error
      (snd (optional ram_schema ["handler"; "ram"] (get_prop hprops "ram"))).
Proof.
  intro Hh. unfold reported_at.
  rewrite errors_of_validate, schema_issues_eq, field_issues_object.
  rewrite Hh, handler_member_issues.
  rewrite !map_app, !filter_app.
  rewrite (filter_under _ _ _ (queue_under _))
    by (intro rest; apply queue_not_handler).
  unfold ram_schema, timeout_schema, machineType_schema.
  rewrite (filter_same _ _ _ (leaf_number_at ram_checks _ _)) by reflexivity.
  rewrite (filter_other _ _ _ (leaf_number_at timeout_checks _ _)) by discriminate.
  rewrite (filter_other _ _ _ (leaf_number_at [] _ _)) by discriminate.
  rewrite (filter_other _ _ _ (leaf_enum_at _ _ _)) by discriminate.
  destruct (structure _) as [c|]; cbn [app]; rewrite ?app_nil_r; [| reflexivity].
  unfold infrastructure_refinement. by_path. reflexivity.
Qed.

Lemma reported_timeout props hprops name s :
  get_prop props "handler" = JObject hprops ->
  reported_at "handler.timeout"
    (validateInfrastructureConfig (JObject props) name s)
  = map to_error
      (snd (optional timeout_schema ["handler"; "timeout"]
              (get_prop hprops "timeout"))).
Proof.
  intro Hh. unfold reported_at.
  rewrite errors_of_validate, schema_issues_eq, field_issues_object.
  rewrite Hh, handler_member_issues.
  rewrite !map_app, !filter_app.
  rewrite (filter_under _ _ _ (queue_under _))
    by (intro rest; apply queue_not_handler).
  unfold ram_schema, timeout_schema, machineType_schema.
  rewrite (filter_other _ _ _ (leaf_number_at ram_checks _ _)) by discriminate.
  rewrite (filter_same _ _ _ (leaf_number_at timeout_checks _ _)) by reflexivity.
  rewrite (filter_other _ _ _ (leaf_number_at [] _ _)) by discriminate.
  rewrite (filter_other _ _ _ (leaf_enum_at _ _ _)) by discriminate.
  destruct (structure _) as [c|]; cbn [app]; rewrite ?app_nil_r; [| reflexivity].
  unfold infrastructure_refinement. by_path. reflexivity.
Qed.

(** The errors of a number member with an inclusive lower and upper
    bound, [lo <= hi]. *)
Lemma bounded_member_errors p lo hi m1 m2 x :
  (lo <= hi)%Z ->
  snd (optional (z_number [CheckMin lo m1; CheckMax hi m2]) p x) =
  match x with
  | JUndefined => []
  | JNumber n =>
      if is_nan n then [invalid_type_issue p "number" x]
      else if num_lt n (of_Z lo) then [mkIssue too_small p [Text m1]]
      else if num_gt n (of_Z hi) then [mkIssue too_big p [Text m2]]
      else []
  | _ => [invalid_type_issue p "number" x]
  end.
Proof.
  intro Hle. rewrite optional_eq.
  destruct x as [| | |n| | |]; try reflexivity.
  destruct n as [q | | |]; try reflexivity;
    cbn [snd z_number flat_map check_issue is_nan app].
  cbn [num_lt num_gt of_Z].
  destruct (Qlt_bool q (inject_Z lo)) eqn:E1; [| destruct (Qlt_bool _ q); reflexivity].
  destruct (Qlt_bool (inject_Z hi) q) eqn:E2; [| reflexivity].
  apply Qlt_bool_iff in E1, E2. exfalso.
  assert (inject_Z lo <= inject_Z hi) by (rewrite <- Zle_Qle; exact Hle).
  lra.
Qed.

(** X5: when [handler] is an object, the errors at [handler.ram] are
    none for an absent ram or a number within 128 and 10240, the message
    "RAM must be at least 128 MB" below 128, "RAM cannot exceed 10240 MB"
    above 10240, and a type error for NaN or a value that is not a number;
    this holds whatever else the descriptor contains. *)
Theorem ram_rule v name s hprops x :
  member v "handler" = JObject hprops ->
  get_prop hprops "ram" = x ->
  reported_at "handler.ram" (validateInfrastructureConfig v name s) =
  match x with
  | JUndefined => []
  | JNumber n =>
      if is_nan n
      then [mkError "handler.ram" [Text "Expected number, received nan"]]
      else if num_lt n (of_Z 128)
      then [mkError "handler.ram" [Text "RAM must be at least 128 MB"]]
      else if num_gt n (of_Z 10240)
      then [mkError "handler.ram" [Text "RAM cannot exceed 10240 MB"]]
      else []
  | _ =>
      [mkError "handler.ram"
         [Text ("Expected number, received " ++ getParsedType x)]]
  end.
Proof.
  intros Hh Hx.
  destruct v as [| | | | | | props]; try discriminate Hh.
  cbn [member] in Hh.
  rewrite (reported_ram props hprops name s Hh), Hx.
  unfold ram_schema, ram_checks.
  rewrite bounded_member_errors by (cbv; discriminate).
  destruct x as [| | |n| | |]; try reflexivity.
  destruct n as [q | | |]; try reflexivity.
  cbn [is_nan].
  change (of_Z Limits.MIN_RAM_MB) with (of_Z 128).
  change (of_Z Limits.MAX_RAM_MB) with (of_Z 10240).
  destruct (num_lt (Fin q) (of_Z 128)); [reflexivity|].
  destruct (num_gt (Fin q) (of_Z 10240)); reflexivity.
Qed.

Lemma ram_rule_witness :
  reported_at "handler.ram"
    (validateInfrastructureConfig descriptor_small_ram "step" None)
  = [mkError "handler.ram" [Text "RAM must be at least 128 MB"]].
Proof.
  apply (ram_rule descriptor_small_ram "step" None
           [("ram", num 64); ("timeout", num 30); ("machineType", str "cpu")]
           (num 64)); reflexivity.
Defined.

(** X6: when [handler] is an object, the errors at [handler.timeout] are
    none for an absent timeout or a number within 1 and 900, the message
    "Timeout must be at least 1s" below 1, "Timeout cannot exceed 900s"
    above 900, and a type error for NaN or a value that is not a
    number. *)
Theorem timeout_rule v name s hprops x :
  member v "handler" = JObject hprops ->
  get_prop hprops "timeout" = x ->
  reported_at "handler.timeout" (validateInfrastructureConfig v name s) =
  match x with
  | JUndefined => []
  | JNumber n =>
      if is_nan n
      then [mkError "handler.timeout" [Text "Expected number, received nan"]]
      else if num_lt n (of_Z 1)
      then [mkError "handler.timeout" [Text "Timeout must be at least 1s"]]
      else if num_gt n (of_Z 900)
      then [mkError "handler.timeout" [Text "Timeout cannot exceed 900s"]]
      else []
  | _ =>
      [mkError "handler.timeout"
         [Text ("Expected number, received " ++ getParsedType x)]]
  end.
Proof.
  intros Hh Hx.
  destruct v as [| | | | | | props]; try discriminate Hh.
  cbn [member] in Hh.
  rewrite (reported_timeout props hprops name s Hh), Hx.
  unfold timeout_schema, timeout_checks.
  rewrite bounded_member_errors by (cbv; discriminate).
  destruct x as [| | |n| | |]; try reflexivity.
  destruct n as [q | | |]; try reflexivity.
  cbn [is_nan].
  change (of_Z Limits.MIN_TIMEOUT_SECONDS) with (of_Z 1).
  change (of_Z Limits.MAX_TIMEOUT_SECONDS) with (of_Z 900).
  destruct (num_lt (Fin q) (of_Z 1)); [reflexivity|].
  destruct (num_gt (Fin q) (of_Z 900)); reflexivity.
Qed.

Lemma timeout_rule_witness :
  reported_at "handler.timeout"
    (validateInfrastructureConfig descriptor_long_timeout "step" None)
  = [mkError "handler.timeout" [Text "Timeout cannot exceed 900s"]].
Proof.
  apply (timeout_rule descriptor_long_timeout "step" None
           [("ram", num 1024); ("timeout", num 1000); ("machineType", str "cpu")]
           (num 1000)); reflexivity.
Defined.

(** ** The exported handler and queue schemas *)

Lemma present_eq {T} (s : ZodType T) p x :
  present s p x = (map_return Some (fst (s p x)), snd (s p x)).
Proof. unfold present. destruct (s p x). reflexivity. Qed.

Lemma is_ok_ap {A B} (f : Parsed (A -> B)) (x : Parsed A) :
  is_ok (fst (ap f x)) = is_ok (fst f) && is_ok (fst x).
Proof. destruct f as [[| |] ?], x as [[| |] ?]; reflexivity. Qed.

Lemma is_ok_map {A B} (f : A -> B) r : is_ok (map_return f r) = is_ok r.
Proof. destruct r; reflexivity. Qed.

Lemma is_ok_value {T} (r : ParseReturn T) :
  is_ok r = true -> exists c, r = OK c.
Proof. destruct r; try discriminate. eauto. Qed.

Lemma is_ok_status {T} (l : list ZodIssue) (v : T) :
  is_ok (status_of l v) = is_nil l.
Proof. destruct l; reflexivity. Qed.


Lemma present_at_least_ok p lo m x :
  is_ok (fst (present (z_number [CheckMin lo m]) p x)) = required_at_least lo x.
Proof.
  rewrite present_eq. cbn [fst]. rewrite is_ok_map.
  destruct x as [| | |n| | |]; try reflexivity.
  destruct n as [q | | |]; try reflexivity.
  cbn [fst z_number flat_map check_issue required_at_least app].
  rewrite is_ok_status.
  rewrite <- (not_lt_le (Fin q) (of_Z lo)) by reflexivity.
  destruct (num_lt _ _); reflexivity.
Qed.

Lemma present_number_ok p x :
  is_ok (fst (present (z_number []) p x)) = required_number x.
Proof.
  rewrite present_eq. cbn [fst]. rewrite is_ok_map.
  destruct x as [| | |n| | |]; try reflexivity.
  destruct n; reflexivity.
Qed.

Lemma present_enum_ok values p x :
  is_ok (fst (present (z_enum values) p x)) = required_enum values x.
Proof.
  rewrite present_eq. cbn [fst]. rewrite is_ok_map.
  destruct x; try reflexivity. cbn [fst z_enum required_enum].
  destruct (existsb _ values); reflexivity.
Qed.


Lemma optional_id_ok p x :
  is_ok (fst (optional (nullable z_string) p x)) = opt_id_ok x.
Proof. rewrite optional_eq. destruct x; reflexivity. Qed.


Lemma is_returned_parse {T} (s : ZodType T) x :
  is_returned (parse s x) = is_ok (fst (s [] x)).
Proof. unfold parse. destruct (s [] x) as [[| |] ?]; reflexivity. Qed.




(** The partial schema of the validator accepts the same handler when
    the required members are left out; [handlerSchema] reports each as
    [Required], and reports a cpu that is not proportional at path
    [cpu]. *)
Example handlerSchema_required :
  parse handlerSchema (obj [("ram", num 2048)])
  = ThrewZodError
      [ mkIssue invalid_type ["timeout"] [Text "Required"];
        mkIssue invalid_type ["machineType"] [Text "Required"] ]
  /\ parse handlerSchema handler_cpu_3
     = ThrewZodError
         [ mkIssue custom ["cpu"]
             (proportionality_message (of_Z 3) (of_Z 2048) (Fin 1)) ].
Proof. split; reflexivity. Qed.

(** At ram 128 the expected cpu is 0.0625: the cpu
    [-0.037500000000000006], whose difference to it is the double 0.1, is
    accepted, and so is the next double below, whose difference rounds to
    it; the double after that is refused. *)
Example handlerSchema_at_the_tolerance :
  is_returned
    (parse handlerSchema
       (handler_ram_128 (Fin (- (1351079888211149 # 36028797018963968)))))
  = true
  /\ is_returned
       (parse handlerSchema
          (handler_ram_128 (Fin (- (5404319552844597 # 144115188075855872)))))
     = true
  /\ is_returned
       (parse handlerSchema
          (handler_ram_128 (Fin (- (2702159776422299 # 72057594037927936)))))
     = false.
Proof. vm_compute. repeat split. Qed.

Lemma queueSchema_ok props :
  is_ok (fst (queueSchema [] (JObject props)))
  = queue_valid (JObject props).
Proof.
  cbn [queueSchema z_object queue_valid]. rewrite !is_ok_ap. unfold field.
  unfold maxRetries_schema, maxRetries_checks.
  rewrite !present_enum_ok, present_number_ok, optional_id_ok,
    present_at_least_ok.
  reflexivity.
Qed.

(** X8: [queueSchema] accepts a value exactly when it is an object with
    a type among standard and fifo, a visibilityTimeout that is a number, a
    maxRetries that is a number at least 0 and a retryStrategy among none,
    exponential and jitter, all four present, and a messageGroupId that is
    absent, null or a string.  The schema itself does not require a
    grouping key of a fifo queue. *)
Theorem queueSchema_accepts x :
  is_returned (parse queueSchema x) = queue_valid x.
Proof.
  rewrite is_returned_parse.
  destruct x as [| | | | | | props]; try reflexivity.
  apply queueSchema_ok.
Qed.

Example queueSchema_fifo_without_key :
  is_returned (parse queueSchema queue_fifo_no_key) = true.
Proof. reflexivity. Qed.

(** ** Faults *)

Lemma throwing_superRefine_completes {T} (schema : ZodType T) r r' :
  (forall c, r' c = AnyCaller.Completes (r c)) ->
  forall p v,
    AnyCaller.superRefine schema r' p v
    = AnyCaller.Completes (superRefine schema r p v).
Proof.
  intros H p v. unfold AnyCaller.superRefine, superRefine.
  destruct (schema p v) as [[| c | c] issues]; rewrite ?H; reflexivity.
Qed.

Lemma throwing_validate_completes v name s s' :
  (forall c,
      AnyCaller.messageGroupId_refinement s' c
      = AnyCaller.Completes (messageGroupId_refinement s c)) ->
  AnyCaller.validateInfrastructureConfig v name s'
  = AnyCaller.Completes (validateInfrastructureConfig v name s).
Proof.
  intro H.
  unfold AnyCaller.validateInfrastructureConfig, AnyCaller.parse,
    AnyCaller.createInfrastructureSchema.
  rewrite (throwing_superRefine_completes _ _ _ H).
  unfold validateInfrastructureConfig, parse, createInfrastructureSchema.
  destruct (superRefine infrastructureSchema (messageGroupId_refinement s) [] v)
    as [[| c | c] issues]; reflexivity.
Qed.

(** On a schema whose thrown values can be inspected the callback is
    the one of the validator. *)
Lemma inspectable_refinement s c :
  AnyCaller.messageGroupId_refinement (option_map AnyCaller.of_schema s) c
  = AnyCaller.Completes (messageGroupId_refinement s c).
Proof.
  unfold AnyCaller.messageGroupId_refinement, messageGroupId_refinement.
  destruct (falsy_id _); [reflexivity|].
  destruct (chain (queue c) messageGroupId) as [[| g]|]; try reflexivity.
  destruct s as [schema|]; [| reflexivity]. cbn [option_map].
  destruct (_ || _); [reflexivity|].
  unfold AnyCaller.query_shape, query_shape, bind, AnyCaller.of_schema.
  cbn [AnyCaller.read_shape].
  destruct (shape schema) as [sv | e]; [| reflexivity].
  cbn [AnyCaller.is_falsy AnyCaller.has_key].
  destruct (shape_falsy sv); [reflexivity|].
  destruct (js_in g sv) as [found | e]; reflexivity.
Qed.

(** The entry point of the validator is the restriction of
    [AnyCaller.validateInfrastructureConfig] to the input schemas whose
    thrown values can be inspected. *)
Lemma inspectable_validate v name s :
  AnyCaller.validateInfrastructureConfig v name
    (option_map AnyCaller.of_schema s)
  = AnyCaller.Completes (validateInfrastructureConfig v name s).
Proof. apply throwing_validate_completes. apply inspectable_refinement. Qed.

(** A key that reaches the [try] block. *)
Lemma refinement_reaches_query schema c g :
  chain (queue c) messageGroupId = Some (NotNull g) ->
  String.length g <> 0%nat ->
  includes g "."%char || includes g "["%char = false ->
  AnyCaller.messageGroupId_refinement (Some schema) c
  = match AnyCaller.query_shape schema g with
    | AnyCaller.Completes issues => AnyCaller.Completes issues
    | AnyCaller.Throws error =>
        match AnyCaller.describe error with
        | AnyCaller.Completes description =>
            AnyCaller.Completes
              [group_issue
                 ("Failed to validate messageGroupId " ++ dquote ++ g
                  ++ dquote ++ " against input schema: " ++ description)]
        | AnyCaller.Throws raised => AnyCaller.Throws raised
        end
    end.
Proof.
  intros Hg Hlen Hinc. unfold AnyCaller.messageGroupId_refinement.
  rewrite Hg. cbn [falsy_id].
  destruct (Nat.eqb_spec (String.length g) 0) as [E | _]; [contradiction|].
  rewrite Hinc. reflexivity.
Qed.

Lemma query_throws schema g e :
  AnyCaller.thrown_by schema = Some e ->
  AnyCaller.query_shape schema g = AnyCaller.Throws e.
Proof.
  unfold AnyCaller.thrown_by, AnyCaller.query_shape.
  destruct (AnyCaller.read_shape schema) as [[[| own | m] | t] | t];
    intros [= <-]; reflexivity.
Qed.

Lemma query_thrown schema g e :
  AnyCaller.query_shape schema g = AnyCaller.Throws e ->
  AnyCaller.thrown_by schema = Some e.
Proof.
  unfold AnyCaller.thrown_by, AnyCaller.query_shape.
  destruct (AnyCaller.read_shape schema) as [[[| own | m] | t] | t];
    cbn [AnyCaller.is_falsy AnyCaller.has_key shape_falsy js_in];
    try discriminate; intros [= <-]; reflexivity.
Qed.

Lemma refinement_thrown s c second :
  AnyCaller.messageGroupId_refinement s c = AnyCaller.Throws second ->
  exists schema first,
    s = Some schema
    /\ AnyCaller.thrown_by schema = Some first
    /\ (first = AnyCaller.Resisting second
        \/ exists errors,
             first
             = AnyCaller.ZodErrorInstance errors (AnyCaller.Throws second)).
Proof.
  unfold AnyCaller.messageGroupId_refinement.
  destruct (falsy_id _); [discriminate|].
  destruct (chain (queue c) messageGroupId) as [[| g]|]; try discriminate.
  destruct s as [schema|]; [| discriminate].
  destruct (_ || _); [discriminate|].
  destruct (AnyCaller.query_shape schema g) as [issues | x] eqn:Q;
    [discriminate|].
  intro H. exists schema, x. split; [reflexivity|].
  split; [exact (query_thrown schema g _ Q)|].
  destruct x as [t | raised | errors [m | raised]];
    cbn [AnyCaller.describe] in H; try discriminate;
    injection H as ->; [left | right; exists errors]; reflexivity.
Qed.

Lemma validate_thrown v name s e :
  AnyCaller.validateInfrastructureConfig v name s = AnyCaller.Throws e ->
  exists second,
    AnyCaller.createInfrastructureSchema s [] v = AnyCaller.Throws second
    /\ (second = AnyCaller.Resisting e
        \/ exists message,
             second
             = AnyCaller.ZodErrorInstance (AnyCaller.Throws e) message).
Proof.
  unfold AnyCaller.validateInfrastructureConfig, AnyCaller.parse.
  destruct (AnyCaller.createInfrastructureSchema s [] v)
    as [[[| c | c] issues] | x]; cbn [AnyCaller.catch_all]; try discriminate.
  intro H. exists x. split; [reflexivity|].
  destruct x as [t | raised | [issues | raised] message];
    cbn [AnyCaller.catch_all AnyCaller.describe] in H; try discriminate;
    injection H as ->; [left | right; exists message]; reflexivity.
Qed.

Lemma schema_thrown s v e :
  AnyCaller.createInfrastructureSchema s [] v = AnyCaller.Throws e ->
  exists c, AnyCaller.messageGroupId_refinement s c = AnyCaller.Throws e.
Proof.
  unfold AnyCaller.createInfrastructureSchema, AnyCaller.superRefine.
  destruct (infrastructureSchema [] v) as [[| c | c] issues];
    [discriminate | |];
    destruct (AnyCaller.messageGroupId_refinement s c) eqn:E;
    try discriminate; intros [= <-]; exists c; exact E.
Qed.

(** The typed descriptor that the callback receives. *)
Lemma schema_value v c :
  structure v = Some c ->
  exists st issues,
    infrastructureSchema [] v = (st, issues) /\ parsed_value st = Some c.
Proof.
  unfold structure, infrastructureSchema, superRefine.
  destruct (infrastructureShape [] v) as [[| d | d] issues];
    cbn [fst parsed_value]; try discriminate; intros [= ->];
    do 2 eexists; (split; [reflexivity|]); [reflexivity|].
  destruct (map _ _); reflexivity.
Qed.

Lemma validate_throws v name schema c g first x :
  structure v = Some c ->
  chain (queue c) messageGroupId = Some (NotNull g) ->
  String.length g <> 0%nat ->
  includes g "."%char || includes g "["%char = false ->
  AnyCaller.thrown_by schema = Some first ->
  first = AnyCaller.Resisting x
  \/ (exists errors,
        first = AnyCaller.ZodErrorInstance errors (AnyCaller.Throws x)) ->
  AnyCaller.validateInfrastructureConfig v name (Some schema)
  = AnyCaller.catch_all (@AnyCaller.Threw InfrastructureConfig x).
Proof.
  intros Hc Hg Hlen Hinc Ht Hfirst.
  unfold AnyCaller.validateInfrastructureConfig, AnyCaller.parse,
    AnyCaller.createInfrastructureSchema, AnyCaller.superRefine.
  destruct (schema_value v c Hc) as (st & issues & -> & Hst).
  assert (Hr : AnyCaller.messageGroupId_refinement (Some schema) c
               = AnyCaller.Throws x).
  { rewrite (refinement_reaches_query schema c g Hg Hlen Hinc).
    rewrite (query_throws schema g _ Ht).
    destruct Hfirst as [-> | [errors ->]]; reflexivity. }
  destruct st as [| d | d]; cbn [parsed_value] in Hst; try discriminate;
    injection Hst as ->; rewrite Hr; reflexivity.
Qed.

Lemma reported_introspection v name c g t :
  structure v = Some c ->
  chain (queue c) messageGroupId = Some (NotNull g) ->
  String.length g <> 0%nat ->
  includes g "."%char || includes g "["%char = false ->
  let r := validateInfrastructureConfig v name
             (Some (mkInputSchema (Raise t))) in
  success r = false
  /\ reported_at "queue.messageGroupId" r
     = [mkError "queue.messageGroupId"
          [Text ("Failed to validate messageGroupId " ++ dquote ++ g
                 ++ dquote ++ " against input schema: "
                 ++ error_description t)]].
Proof.
  intros Hc Hg Hlen Hinc r. subst r.
  assert (Hm : messageGroupId_refinement (Some (mkInputSchema (Raise t))) c
               = [group_issue (introspection_message g t)]).
  { unfold messageGroupId_refinement. rewrite Hg. cbn [falsy_id].
    destruct (Nat.eqb_spec (String.length g) 0) as [E | _]; [contradiction|].
    rewrite Hinc. reflexivity. }
  split.
  - apply (group_error_reported v name _ c _ Hc Hm).
  - rewrite (reported_group v name _ c Hc), Hm.
    unfold fifo_check. rewrite Hg.
    destruct (chain (queue c) type) as [ty|]; [| reflexivity].
    cbn [falsy_id].
    destruct (Nat.eqb_spec (String.length g) 0) as [E | _]; [contradiction|].
    rewrite andb_false_r. reflexivity.
Qed.

Lemma validate_described v name schema c g x d :
  structure v = Some c ->
  chain (queue c) messageGroupId = Some (NotNull g) ->
  String.length g <> 0%nat ->
  includes g "."%char || includes g "["%char = false ->
  AnyCaller.thrown_by schema = Some x ->
  AnyCaller.describe x = AnyCaller.Completes d ->
  exists r,
    AnyCaller.validateInfrastructureConfig v name (Some schema)
    = AnyCaller.Completes r
    /\ success r = false
    /\ reported_at "queue.messageGroupId" r
       = [mkError "queue.messageGroupId"
            [Text ("Failed to validate messageGroupId " ++ dquote ++ g
                   ++ dquote ++ " against input schema: " ++ d)]].
Proof.
  intros Hc Hg Hlen Hinc Ht Hd.
  exists (validateInfrastructureConfig v name
            (Some (mkInputSchema (Raise (ErrorObject d))))).
  split; [| exact (reported_introspection v name c g (ErrorObject d)
                     Hc Hg Hlen Hinc)].
  unfold AnyCaller.validateInfrastructureConfig, AnyCaller.parse,
    AnyCaller.createInfrastructureSchema, AnyCaller.superRefine,
    validateInfrastructureConfig, parse, createInfrastructureSchema,
    superRefine.
  destruct (schema_value v c Hc) as (st & issues & -> & Hst).
  assert (Hr : AnyCaller.messageGroupId_refinement (Some schema) c
               = AnyCaller.Completes
                   (messageGroupId_refinement
                      (Some (mkInputSchema (Raise (ErrorObject d)))) c)).
  { rewrite (refinement_reaches_query schema c g Hg Hlen Hinc).
    rewrite (query_throws schema g _ Ht), Hd.
    unfold messageGroupId_refinement. rewrite Hg. cbn [falsy_id].
    destruct (Nat.eqb_spec (String.length g) 0) as [E | _]; [contradiction|].
    rewrite Hinc. reflexivity. }
  destruct st as [| k | k]; cbn [parsed_value] in Hst; try discriminate;
    injection Hst as ->; rewrite Hr; cbn [map];
    [reflexivity | destruct (status_of _ c); reflexivity].
Qed.

(** C6 (as amended): a call returns a structured result unless two
    inspections in a row raise.  When the schema query throws an [Error]
    with message [m], the result fails with the violation "Failed to
    validate messageGroupId "<key>" against input schema: <m>" at
    [queue.messageGroupId]; a value that is not an [Error] gives "Unknown
    error" in place of [m].  When the description of the thrown value
    raises a second value, [parse] lets it through and the outer handler
    returns the single error "Unexpected validation error: <m>" at path
    [infrastructure] for an [Error] with message [m] ("Unknown error" for
    a value that is not one, the issues for a [ZodError] whose errors can
    be mapped).  When the inspection of the second value raises too, the
    call throws what it raised; and a call throws in no other case. *)
Theorem fault_handling :
  (forall v name s e,
      AnyCaller.validateInfrastructureConfig v name s = AnyCaller.Throws e ->
      exists schema first second,
        s = Some schema
        /\ AnyCaller.thrown_by schema = Some first
        /\ (first = AnyCaller.Resisting second
            \/ exists errors,
                 first
                 = AnyCaller.ZodErrorInstance errors
                     (AnyCaller.Throws second))
        /\ (second = AnyCaller.Resisting e
            \/ exists message,
                 second
                 = AnyCaller.ZodErrorInstance (AnyCaller.Throws e) message))
  /\ (forall v name schema g,
      well_typed v = true ->
      member (member v "queue") "messageGroupId" = JString g ->
      String.length g <> 0%nat ->
      includes g "."%char || includes g "["%char = false ->
      let failed_at_key (m : string) :=
        exists r,
          AnyCaller.validateInfrastructureConfig v name (Some schema)
          = AnyCaller.Completes r
          /\ success r = false
          /\ reported_at "queue.messageGroupId" r
             = [mkError "queue.messageGroupId"
                  [Text ("Failed to validate messageGroupId " ++ dquote ++ g
                         ++ dquote ++ " against input schema: " ++ m)]] in
      let failed_outside (m : string) :=
        AnyCaller.validateInfrastructureConfig v name (Some schema)
        = AnyCaller.Completes
            (mkResult false
               (Some [mkError "infrastructure"
                        [Text ("Unexpected validation error: " ++ m)]])) in
      let raises (second : AnyCaller.Caught) :=
        AnyCaller.thrown_by schema = Some (AnyCaller.Resisting second)
        \/ exists errors,
             AnyCaller.thrown_by schema
             = Some (AnyCaller.ZodErrorInstance errors
                       (AnyCaller.Throws second)) in
      (forall m,
          AnyCaller.thrown_by schema
          = Some (AnyCaller.Inspectable (ErrorObject m)) ->
          failed_at_key m)
      /\ (AnyCaller.thrown_by schema = Some (AnyCaller.Inspectable NonError) ->
          failed_at_key "Unknown error")
      /\ (forall errors m,
            AnyCaller.thrown_by schema
            = Some (AnyCaller.ZodErrorInstance errors (AnyCaller.Completes m)) ->
            failed_at_key m)
      /\ (forall m,
            raises (AnyCaller.Inspectable (ErrorObject m)) ->
            failed_outside m)
      /\ (raises (AnyCaller.Inspectable NonError) ->
          failed_outside "Unknown error")
      /\ (forall issues message,
            raises (AnyCaller.ZodErrorInstance (AnyCaller.Completes issues)
                      message) ->
            AnyCaller.validateInfrastructureConfig v name (Some schema)
            = AnyCaller.Completes (mkResult false (Some (map to_error issues))))
      /\ (forall e,
            raises (AnyCaller.Resisting e) ->
            AnyCaller.validateInfrastructureConfig v name (Some schema)
            = AnyCaller.Throws e)
      /\ (forall e message,
            raises (AnyCaller.ZodErrorInstance (AnyCaller.Throws e) message) ->
            AnyCaller.validateInfrastructureConfig v name (Some schema)
            = AnyCaller.Throws e)).
Proof.
  split.
  - intros v name s e H.
    destruct (validate_thrown v name s e H) as (second & Hx & Hsecond).
    destruct (schema_thrown s v _ Hx) as (c & Hc).
    destruct (refinement_thrown s c _ Hc) as (schema & first & Hs & Ht & Hf).
    exists schema, first, second. auto.
  - intros v name schema g Hw Hg Hlen Hinc failed_at_key failed_outside raises.
    subst failed_at_key failed_outside raises.
    destruct (typed_structure v Hw) as (c & Hc).
    destruct (structure_reflects v c Hc) as (_ & (_ & _ & Eg & _)).
    rewrite Eg in Hg. apply js_id_inv in Hg.
    assert (Hraises : forall x,
               AnyCaller.thrown_by schema = Some (AnyCaller.Resisting x)
               \/ (exists errors,
                     AnyCaller.thrown_by schema
                     = Some (AnyCaller.ZodErrorInstance errors
                               (AnyCaller.Throws x))) ->
               AnyCaller.validateInfrastructureConfig v name (Some schema)
               = AnyCaller.catch_all (@AnyCaller.Threw InfrastructureConfig x)).
    { intros x [H | [errors H]];
        apply (validate_throws v name schema c g _ x Hc Hg Hlen Hinc H);
        [left | right; exists errors]; reflexivity. }
    repeat split.
    + intros m H.
      exact (validate_described v name schema c g _ m Hc Hg Hlen Hinc H eq_refl).
    + intro H.
      exact (validate_described v name schema c g _ _ Hc Hg Hlen Hinc H eq_refl).
    + intros errors m H.
      exact (validate_described v name schema c g _ m Hc Hg Hlen Hinc H eq_refl).
    + intros m H. rewrite (Hraises _ H). reflexivity.
    + intro H. rewrite (Hraises _ H). reflexivity.
    + intros issues message H. rewrite (Hraises _ H). reflexivity.
    + intros e H. rewrite (Hraises _ H). reflexivity.
    + intros e message H. rewrite (Hraises _ H). reflexivity.
Qed.

Lemma fault_handling_witness :
  (exists r,
      AnyCaller.validateInfrastructureConfig (descriptor_group "traceId")
        "step"
        (Some (AnyCaller.throwing
                 (AnyCaller.Inspectable (ErrorObject "shape is gone"))))
      = AnyCaller.Completes r
      /\ success r = false
      /\ reported_at "queue.messageGroupId" r
         = [mkError "queue.messageGroupId"
              [Text ("Failed to validate messageGroupId " ++ dquote
                     ++ "traceId" ++ dquote
                     ++ " against input schema: shape is gone")]])
  /\ AnyCaller.validateInfrastructureConfig (descriptor_group "traceId")
       "step"
       (Some (AnyCaller.throwing
                (AnyCaller.Resisting
                   (AnyCaller.Inspectable (ErrorObject "shape is gone")))))
     = AnyCaller.Completes
         (mkResult false
            (Some [mkError "infrastructure"
                     [Text "Unexpected validation error: shape is gone"]])).
Proof.
  destruct fault_handling as (_ & H).
  split.
  - destruct (H (descriptor_group "traceId") "step"
                (AnyCaller.throwing
                   (AnyCaller.Inspectable (ErrorObject "shape is gone")))
                "traceId" eq_refl eq_refl ltac:(discriminate) eq_refl)
      as (H1 & _).
    exact (H1 "shape is gone" eq_refl).
  - destruct (H (descriptor_group "traceId") "step"
                (AnyCaller.throwing
                   (AnyCaller.Resisting
                      (AnyCaller.Inspectable (ErrorObject "shape is gone"))))
                "traceId" eq_refl eq_refl ltac:(discriminate) eq_refl)
      as (_ & _ & _ & H4 & _).
    exact (H4 "shape is gone" (or_introl eq_refl)).
Defined.

(** The claim as stated fails: the call throws when the [shape] getter
    throws a value whose inspection raises a value whose inspection raises
    again. *)
Lemma never_throws_counterexample :
  AnyCaller.validateInfrastructureConfig (descriptor_group "traceId") "step"
    (Some (AnyCaller.throwing
             (AnyCaller.Resisting
                (AnyCaller.Resisting
                   (AnyCaller.Inspectable (ErrorObject "boom"))))))
  = AnyCaller.Throws (AnyCaller.Inspectable (ErrorObject "boom")).
Proof. reflexivity. Qed.

(** The outer handler maps the [errors] of an instance of [ZodError]:
    when the instance has none to map, as
    [Object.create(z.ZodError.prototype)], the mapping raises a
    [TypeError], which leaves the call. *)
Example unmappable_ZodError_leaves_the_call :
  AnyCaller.validateInfrastructureConfig (descriptor_group "traceId") "step"
    (Some (AnyCaller.throwing
             (AnyCaller.Resisting
                (AnyCaller.ZodErrorInstance
                   (AnyCaller.Throws
                      (AnyCaller.Inspectable
                         (ErrorObject "Cannot read properties of undefined")))
                   (AnyCaller.Completes "undefined")))))
  = AnyCaller.Throws
      (AnyCaller.Inspectable
         (ErrorObject "Cannot read properties of undefined")).
Proof. reflexivity. Qed.

(** ** The step validator *)

Module StepValidatorFacts.
Import StepValidator StepValidatorSpec.

Lemma merge_valid a b : merge a b = valid -> a = valid /\ b = valid.
Proof. destruct a, b; cbn; intro H; try discriminate; split; reflexivity. Qed.

Lemma settled_both r rs :
  settled (Done r) -> settled (Done rs) -> settled (Done (both r rs)).
Proof.
  destruct r as [a ia], rs as [b ib]. unfold both. cbn [fst snd].
  destruct a, b; cbn; intros Ha Hb; try exact I;
    intro H; apply app_eq_nil in H as [H1 H2]; subst; congruence.
Qed.

Lemma Settled_any : Settled z_any.
Proof. intros p v. exact I. Qed.

Lemma Settled_string : Settled z_string.
Proof. intros p v. destruct v; cbn; try exact I; discriminate. Qed.

Lemma Settled_boolean : Settled z_boolean.
Proof. intros p v. destruct v; cbn; try exact I; discriminate. Qed.

Lemma Settled_null : Settled z_null.
Proof. intros p v. destruct v; cbn; try exact I; discriminate. Qed.

Lemma Settled_literal value : Settled (z_literal value).
Proof.
  intros p v. destruct v; cbn; try discriminate.
  destruct (String.eqb s value); cbn; [exact I | discriminate].
Qed.

Lemma Settled_optional s : Settled s -> Settled (z_optional s).
Proof. intros H p v. destruct v; cbn; try apply H. exact I. Qed.

Lemma Settled_elements s :
  Settled s -> forall p items i, settled (elements s p i items).
Proof.
  intros H p items. induction items as [|x rest IH]; intro i; cbn [elements].
  - exact I.
  - specialize (H (p ++ [Index i])%list x).
    destruct (s (p ++ [Index i])%list x) as [r|e]; cbn [and_then]; [| exact H].
    specialize (IH (S i)).
    destruct (elements s p (S i) rest) as [rs|e]; cbn [and_then]; [| exact IH].
    apply settled_both; assumption.
Qed.

Lemma Settled_array s : Settled s -> Settled (z_array s).
Proof.
  intros H p v. destruct v; cbn [z_array reject]; try (cbn; discriminate).
  apply Settled_elements. exact H.
Qed.

Lemma Settled_entries s :
  Settled s -> forall p props keys, settled (entries s p props keys).
Proof.
  intros H p props keys. induction keys as [|k rest IH]; cbn [entries].
  - exact I.
  - specialize (H (p ++ [Key k])%list (get_prop props k)).
    destruct (s (p ++ [Key k])%list (get_prop props k)) as [r|e];
      cbn [and_then]; [| exact H].
    destruct (entries s p props rest) as [rs|e]; cbn [and_then]; [| exact IH].
    apply settled_both; assumption.
Qed.

Lemma Settled_record s : Settled s -> Settled (z_record s).
Proof.
  intros H p v. destruct v; cbn [z_record reject]; try (cbn; discriminate).
  apply Settled_entries. exact H.
Qed.

Lemma Settled_members shape :
  Forall (fun ks => Settled (snd ks)) shape ->
  forall p props, settled (members shape p props).
Proof.
  intros H p props. induction H as [|[k s] rest Hs _ IH]; cbn [members].
  - exact I.
  - cbn [snd] in Hs. specialize (Hs (p ++ [Key k])%list (get_prop props k)).
    destruct (s (p ++ [Key k])%list (get_prop props k)) as [r|e];
      cbn [and_then]; [| exact Hs].
    destruct (members rest p props) as [rs|e]; cbn [and_then]; [| exact IH].
    apply settled_both; assumption.
Qed.

Lemma Settled_object mode shape :
  Forall (fun ks => Settled (snd ks)) shape -> Settled (z_object mode shape).
Proof.
  intros H p v. destruct v; cbn [z_object reject]; try (cbn; discriminate).
  pose proof (Settled_members shape H p props) as Hm.
  destruct (members shape p props) as [[st issues]|e]; cbn [and_then];
    [| exact Hm].
  destruct mode; [exact Hm|].
  destruct (extraKeys shape props); [exact Hm|].
  cbn [fst snd]. destruct st; cbn; intro E; apply app_eq_nil in E as [_ E];
    discriminate.
Qed.

Lemma Settled_options options :
  Forall Settled options ->
  forall p v firstDirty,
    match firstDirty with Some d => settled (Done d) | None => True end ->
    settled (options_loop options p v firstDirty).
Proof.
  intros H p v. induction H as [|o rest Ho _ IH]; intros fd Hfd;
    cbn [options_loop].
  - destruct fd; [exact Hfd | cbn; discriminate].
  - specialize (Ho p v). destruct (o p v) as [[st issues]|e]; cbn [and_then];
      [| exact Ho].
    cbn [fst]. destruct st.
    + exact I.
    + apply IH. destruct fd; [exact Hfd | exact Ho].
    + apply IH. exact Hfd.
Qed.

Lemma Settled_union options : Forall Settled options -> Settled (z_union options).
Proof. intros H p v. apply Settled_options; [exact H | exact I]. Qed.

Lemma parse_settled s v : Settled s -> throws_issues (parse s v).
Proof.
  intro H. unfold parse. specialize (H [] v).
  destruct (s [] v) as [[st issues]|e]; cbn [and_then]; [| exact H].
  destruct st; [exact I | |]; cbn in H; destruct issues; cbn; congruence.
Qed.

Create HintDb settled.
Create HintDb completes.

#[local] Hint Resolve Settled_any Settled_string Settled_boolean Settled_null
  Settled_literal Settled_optional Settled_array Settled_record
  Settled_object Settled_union : settled.
#[local] Hint Constructors Forall : settled.

Ltac settle_shape :=
  apply Settled_object;
  repeat (apply Forall_cons; [cbn [snd]; auto 20 with settled |]);
  apply Forall_nil.

Lemma Settled_objectSchema : Settled objectSchema.
Proof. unfold objectSchema, objectShape. settle_shape. Qed.

#[local] Hint Resolve Settled_objectSchema : settled.

Lemma Settled_arraySchema : Settled arraySchema.
Proof. unfold arraySchema, arrayShape. settle_shape. Qed.

Lemma Settled_emit_object : Settled (z_object strict emitShape).
Proof. unfold emitShape. settle_shape. Qed.

Lemma Settled_empty_object : Settled (z_object strip []).
Proof. settle_shape. Qed.

Lemma Settled_queryParam : Settled (z_object strip queryParamShape).
Proof. unfold queryParamShape. settle_shape. Qed.

#[local] Hint Resolve Settled_emit_object Settled_empty_object
  Settled_queryParam : settled.

Lemma Settled_jsonSchema : Settled jsonSchema.
Proof.
  intros p v. unfold jsonSchema, refine, z_any. cbn [and_then fst snd].
  unfold jsonSchema_check.
  destruct (negb (js_truthy v)); [exact I|].
  destruct (is_string (type_of v) "object").
  - pose proof (parse_settled objectSchema v Settled_objectSchema) as H.
    destruct (parse objectSchema v) as [[]|e]; cbn [and_then]; [exact I | exact H].
  - destruct (is_string (type_of v) "array"); [| exact I].
    pose proof (parse_settled arraySchema v Settled_arraySchema) as H.
    destruct (parse arraySchema v) as [[]|e]; cbn [and_then]; [exact I | exact H].
Qed.

#[local] Hint Resolve Settled_jsonSchema : settled.

Lemma Settled_emits : Settled emits.
Proof. unfold emits. auto 20 with settled. Qed.

#[local] Hint Resolve Settled_emits : settled.

Lemma shape_of_settled t shape :
  shape_of t = Some shape -> Forall (fun ks => Settled (snd ks)) shape.
Proof.
  unfold shape_of. intro H.
  repeat match type of H with
         | (if ?c then _ else _) = _ => destruct c
         end;
    inversion H; subst;
    unfold noopShape, eventShape, apiShape, cronShape;
    repeat (apply Forall_cons; [cbn [snd]; auto 20 with settled |]);
    apply Forall_nil.
Qed.

(** [validateStep] on an object: the shape is chosen by the type and
    parsed in strict mode. *)
Lemma validateStep_object props :
  validateStep (JObject props) =
  match shape_of (get_prop props "type") with
  | Some shape =>
      match parse (z_object strict shape) (JObject props) with
      | Done _ => ValidationSuccess
      | Throw (ZodError issues) => failure_of issues
      | Throw OtherError =>
          ValidationError "Unexpected validation error occurred" None
      end
  | None => ValidationError "Invalid step type" None
  end.
Proof.
  unfold validateStep, validateStep_body, shape_of. cbn [config_type and_then].
  unfold noopSchema, eventSchema, apiSchema, cronSchema.
  repeat match goal with
         | |- context [if ?c then _ else _] => destruct c
         end;
    try reflexivity;
    match goal with
    | |- context [parse ?s ?v] => destruct (parse s v) as [[]|[]]; reflexivity
    end.
Qed.

Lemma validateStep_object_cases props :
  validateStep (JObject props) = ValidationSuccess
  \/ validateStep (JObject props) = ValidationError "Invalid step type" None
  \/ exists issues, issues <> []
                    /\ validateStep (JObject props) = failure_of issues.
Proof.
  rewrite validateStep_object.
  destruct (shape_of (get_prop props "type")) as [shape|] eqn:E;
    [| right; left; reflexivity].
  pose proof (parse_settled (z_object strict shape) (JObject props)
                (Settled_object strict shape (shape_of_settled _ _ E))) as H.
  destruct (parse (z_object strict shape) (JObject props)) as [[]|[issues|]].
  - left. reflexivity.
  - right. right. exists issues. split; [exact H | reflexivity].
  - contradiction.
Qed.

(** X9: [validateStep] answers with the unexpected-error text exactly
    when the configuration is [undefined] or [null]; a failure that lists
    errors lists at least one and its text is the messages of the list
    joined by a comma; a failure without a list says "Invalid step type" or
    is the unexpected-error answer. *)
Theorem unexpected_only_without_config config :
  (validateStep config
   = ValidationError "Unexpected validation error occurred" None
   <-> config = JUndefined \/ config = JNull)
  /\ (forall error errors,
         validateStep config = ValidationError error (Some errors) ->
         errors <> [] /\ error = String.concat ", " (map snd errors))
  /\ (forall error,
         validateStep config = ValidationError error None ->
         error = "Invalid step type"
         \/ error = "Unexpected validation error occurred").
Proof.
  split; [| split].
  - split.
    + intro H. destruct config; try (left; reflexivity); try (right; reflexivity);
        try (cbn in H; discriminate).
      destruct (validateStep_object_cases props) as [E | [E | [issues [_ E]]]];
        rewrite E in H; discriminate.
    + intros [-> | ->]; reflexivity.
  - intros error errors H. destruct config; try (cbn in H; discriminate).
    destruct (validateStep_object_cases props) as [E | [E | [issues [Hne E]]]];
      rewrite E in H; try discriminate.
    unfold failure_of in H. inversion H; subst. split.
    + destruct issues; [congruence | discriminate].
    + rewrite map_map. reflexivity.
  - intros error H.
    destruct config;
      try (cbn in H; injection H as <-; (left; reflexivity) || (right; reflexivity)).
    destruct (validateStep_object_cases props) as [E | [E | [issues [_ E]]]];
      rewrite E in H; try discriminate.
    injection H as <-. left. reflexivity.
Qed.

Lemma strict_extra_not_valid shape p props :
  extraKeys shape props <> [] ->
  forall issues, z_object strict shape p (JObject props) <> Done (valid, issues).
Proof.
  intros H issues. cbn [z_object].
  destruct (members shape p props) as [[st l]|e]; cbn [and_then];
    [| discriminate].
  destruct (extraKeys shape props); [congruence|].
  cbn [fst]. destruct st; discriminate.
Qed.

Lemma extraKeys_in shape props k :
  In k (map fst props) -> ~ In k (map fst shape) ->
  extraKeys shape props <> [].
Proof.
  intros Hin Hout E.
  assert (Hk : In k (extraKeys shape props)).
  { unfold extraKeys. apply filter_In. split; [exact Hin|].
    apply negb_true_iff. apply not_true_is_false. intro Hex.
    apply existsb_exists in Hex as [x [Hx Hxk]].
    apply String.eqb_eq in Hxk. subst. contradiction. }
  rewrite E in Hk. exact Hk.
Qed.

Lemma parse_not_valid s v :
  (forall issues, s [] v <> Done (valid, issues)) ->
  forall u, parse s v <> Done u.
Proof.
  intros H u. unfold parse. destruct (s [] v) as [[st issues]|e];
    cbn [and_then]; [| discriminate].
  destruct st; [elim (H issues); reflexivity | |]; destruct issues; discriminate.
Qed.

Lemma extra_key_not_parsed shape props k :
  In k (map fst props) ->
  ~ In k (map fst shape) ->
  forall u, parse (z_object strict shape) (JObject props) <> Done u.
Proof.
  intros Hin Hout. apply parse_not_valid. apply strict_extra_not_valid.
  apply (extraKeys_in shape props k Hin Hout).
Qed.

Lemma shape_failure props shape :
  shape_of (get_prop props "type") = Some shape ->
  (forall u, parse (z_object strict shape) (JObject props) <> Done u) ->
  exists issues,
    issues <> [] /\ validateStep (JObject props) = failure_of issues.
Proof.
  intros Hs Hp.
  destruct (validateStep_object_cases props) as [E | [E | H]]; [| | exact H];
    exfalso; rewrite validateStep_object, Hs in E;
    destruct (parse (z_object strict shape) (JObject props)) as [u|[|]];
    try discriminate.
  elim (Hp u). reflexivity.
Qed.

(** X10: a step configuration that carries a key outside the shape of
    its step type is never accepted: [validateStep] fails and lists at least
    one error. *)
Theorem unknown_key_rejected props shape k :
  shape_of (get_prop props "type") = Some shape ->
  In k (map fst props) ->
  ~ In k (map fst shape) ->
  exists issues,
    issues <> [] /\ validateStep (JObject props) = failure_of issues.
Proof.
  intros Hs Hin Hout. apply (shape_failure props shape Hs).
  exact (extra_key_not_parsed shape props k Hin Hout).
Qed.

Lemma get_prop_insert_other before after k v k' :
  k' <> k ->
  get_prop (before ++ (k, v) :: after) k' = get_prop (before ++ after) k'.
Proof.
  intro H. induction before as [|[a b] l IH]; cbn.
  - destruct (String.eqb k k') eqn:E; [| reflexivity].
    apply String.eqb_eq in E. congruence.
  - rewrite IH. reflexivity.
Qed.

Lemma members_ext shape p props1 props2 :
  Forall (fun ks => forall q,
              snd ks q (get_prop props1 (fst ks))
              = snd ks q (get_prop props2 (fst ks))) shape ->
  members shape p props1 = members shape p props2.
Proof.
  intro H. induction H as [|[k s] rest Hs _ IH]; cbn [members]; [reflexivity|].
  cbn [fst snd] in Hs. rewrite Hs, IH. reflexivity.
Qed.

Lemma extraKeys_insert shape before after k v :
  existsb (String.eqb k) (map fst shape) = true ->
  extraKeys shape (before ++ (k, v) :: after) = extraKeys shape (before ++ after).
Proof.
  intro H. unfold extraKeys. rewrite !map_app, !filter_app. cbn [map fst filter].
  rewrite H. reflexivity.
Qed.

Lemma optional_any_accepts q v : z_optional z_any q v = Done (valid, []).
Proof. destruct v; reflexivity. Qed.

Ltac same_member :=
  cbn [fst snd]; intro;
  first [ rewrite get_prop_insert_other by discriminate; reflexivity
        | rewrite !optional_any_accepts; reflexivity ].

Ltac same_members :=
  repeat (apply Forall_cons; [same_member |]); apply Forall_nil.

Lemma infrastructure_member_ignored shape before after v :
  shape = eventShape \/ shape = apiShape \/ shape = cronShape ->
  parse (z_object strict shape)
    (JObject (before ++ ("infrastructure", v) :: after))
  = parse (z_object strict shape) (JObject (before ++ after)).
Proof.
  intro H. unfold parse. cbn [z_object].
  assert (Hm : forall p,
             members shape p (before ++ ("infrastructure", v) :: after)
             = members shape p (before ++ after)).
  { intro p. apply members_ext.
    destruct H as [-> | [-> | ->]];
      unfold eventShape, apiShape, cronShape; same_members. }
  assert (Hx : extraKeys shape (before ++ ("infrastructure", v) :: after)
               = extraKeys shape (before ++ after)).
  { apply extraKeys_insert. destruct H as [-> | [-> | ->]]; reflexivity. }
  rewrite Hm, Hx. reflexivity.
Qed.

(** X11: [validateStep] does not look into [infrastructure]: adding the
    key, with any value, to the configuration of a step whose type is not
    noop leaves the answer as it was; added to a noop step it makes the step
    fail. *)
Theorem infrastructure_not_validated before after v :
  (is_string (get_prop (before ++ after) "type") "noop" = false ->
   validateStep (JObject (before ++ ("infrastructure", v) :: after))
   = validateStep (JObject (before ++ after)))
  /\ (is_string (get_prop (before ++ after) "type") "noop" = true ->
      exists issues,
        issues <> []
        /\ validateStep (JObject (before ++ ("infrastructure", v) :: after))
           = failure_of issues).
Proof.
  split; intro Ht.
  - rewrite !validateStep_object.
    rewrite get_prop_insert_other by discriminate.
    unfold shape_of. rewrite Ht.
    repeat match goal with
           | |- context [if ?c then _ else _] => destruct c
           end;
      try reflexivity; rewrite infrastructure_member_ignored; auto.
  - apply (shape_failure _ noopShape).
    + rewrite get_prop_insert_other by discriminate.
      unfold shape_of. rewrite Ht. reflexivity.
    + apply (extra_key_not_parsed _ _ "infrastructure").
      * rewrite map_app. apply in_or_app. right. left. reflexivity.
      * cbn. intros [H | [H | [H | [H | [H | [H | []]]]]]]; discriminate.
Qed.

Lemma Completes_any : Completes z_any.
Proof. intros p v. eexists. reflexivity. Qed.

Lemma Completes_string : Completes z_string.
Proof. intros p v. destruct v; eexists; reflexivity. Qed.

Lemma Completes_boolean : Completes z_boolean.
Proof. intros p v. destruct v; eexists; reflexivity. Qed.

Lemma Completes_null : Completes z_null.
Proof. intros p v. destruct v; eexists; reflexivity. Qed.

Lemma Completes_literal value : Completes (z_literal value).
Proof.
  intros p v. destruct v; cbn; try (eexists; reflexivity).
  destruct (String.eqb s value); eexists; reflexivity.
Qed.

Lemma Completes_optional s : Completes s -> Completes (z_optional s).
Proof. intros H p v. destruct v; cbn; try apply H. eexists. reflexivity. Qed.

Lemma Completes_elements s :
  Completes s -> forall p items i, exists r, elements s p i items = Done r.
Proof.
  intros H p items. induction items as [|x rest IH]; intro i; cbn [elements].
  - eexists. reflexivity.
  - destruct (H (p ++ [Index i])%list x) as [r ->].
    destruct (IH (S i)) as [rs ->]. eexists. reflexivity.
Qed.

Lemma Completes_array s : Completes s -> Completes (z_array s).
Proof.
  intros H p v. destruct v; cbn [z_array]; try (eexists; reflexivity).
  apply Completes_elements. exact H.
Qed.

Lemma Completes_members shape :
  Forall (fun ks => Completes (snd ks)) shape ->
  forall p props, exists r, members shape p props = Done r.
Proof.
  intros H p props. induction H as [|[k s] rest Hs _ IH]; cbn [members].
  - eexists. reflexivity.
  - cbn [snd] in Hs. destruct (Hs (p ++ [Key k])%list (get_prop props k)) as [r ->].
    destruct IH as [rs ->]. eexists. reflexivity.
Qed.

Lemma Completes_object mode shape :
  Forall (fun ks => Completes (snd ks)) shape -> Completes (z_object mode shape).
Proof.
  intros H p v. destruct v; cbn [z_object]; try (eexists; reflexivity).
  destruct (Completes_members shape H p props) as [r ->]. cbn [and_then].
  destruct mode; [eexists; reflexivity|].
  destruct (extraKeys shape props); eexists; reflexivity.
Qed.

Lemma Completes_options options :
  Forall Completes options ->
  forall p v firstDirty, exists r, options_loop options p v firstDirty = Done r.
Proof.
  intros H p v. induction H as [|o rest Ho _ IH]; intro fd; cbn [options_loop].
  - destruct fd; eexists; reflexivity.
  - destruct (Ho p v) as [[st issues] ->]. cbn [and_then fst].
    destruct st; [eexists; reflexivity | apply IH | apply IH].
Qed.

Lemma Completes_union options :
  Forall Completes options -> Completes (z_union options).
Proof. intros H p v. apply Completes_options. exact H. Qed.

#[local] Hint Resolve Completes_any Completes_string Completes_boolean
  Completes_null Completes_literal Completes_optional Completes_array
  Completes_object Completes_union : completes.
#[local] Hint Constructors Forall : completes.

Ltac complete_shape :=
  repeat (apply Forall_cons; [cbn [snd]; auto 20 with completes |]);
  apply Forall_nil.

Lemma Completes_emit_object : Completes (z_object strict emitShape).
Proof. apply Completes_object. unfold emitShape. complete_shape. Qed.

#[local] Hint Resolve Completes_emit_object : completes.

Lemma Completes_emits : Completes emits.
Proof. unfold emits. auto 20 with completes. Qed.

#[local] Hint Resolve Completes_emits : completes.

Lemma members_throw shape1 k s shape2 p props e :
  Forall (fun ks => Completes (snd ks)) shape1 ->
  s (p ++ [Key k])%list (get_prop props k) = Throw e ->
  members (shape1 ++ (k, s) :: shape2) p props = Throw e.
Proof.
  intros H Hs. induction H as [|[k1 s1] rest H1 _ IH]; cbn [members app].
  - rewrite Hs. reflexivity.
  - cbn [snd] in H1. destruct (H1 (p ++ [Key k1])%list (get_prop props k1)) as [r ->].
    rewrite IH. reflexivity.
Qed.

Lemma jsonSchema_throws p data s e :
  json_schema_of data = Some s ->
  parse s data = Throw e ->
  jsonSchema p data = Throw e.
Proof.
  unfold json_schema_of. intros Hs Hp.
  assert (Ht : js_truthy data = true).
  { destruct data; cbn in Hs; try discriminate. reflexivity. }
  unfold jsonSchema, refine, z_any. cbn [and_then fst snd].
  unfold jsonSchema_check. rewrite Ht. cbn [negb].
  destruct (is_string (type_of data) "object").
  - inversion Hs; subst. rewrite Hp. reflexivity.
  - destruct (is_string (type_of data) "array"); [| discriminate].
    inversion Hs; subst. rewrite Hp. reflexivity.
Qed.

(** X12: when the [input] of an event step declares the type object or
    array and the schema for that type rejects it, [validateStep] answers
    with the issues of that inner parse alone: their paths are relative to
    the input, and nothing else about the step is reported. *)
Theorem input_issues_mask_the_step props s issues :
  get_prop props "type" = JString "event" ->
  json_schema_of (get_prop props "input") = Some s ->
  parse s (get_prop props "input") = Throw (ZodError issues) ->
  validateStep (JObject props) = failure_of issues.
Proof.
  intros Ht Hs Hp. rewrite validateStep_object, Ht.
  change (shape_of (JString "event")) with (Some eventShape).
  cbv iota beta.
  assert (Hm : members eventShape [] props = Throw (ZodError issues)).
  { change eventShape with
      (firstn 7 eventShape ++
       ("input", z_optional (z_union [ jsonSchema; z_object strip []; z_null ]))
       :: skipn 8 eventShape)%list.
    apply members_throw.
    - cbn [firstn eventShape]. complete_shape.
    - destruct (get_prop props "input") eqn:Ei; try (cbn in Hs; discriminate).
      cbn [z_optional z_union options_loop].
      rewrite (jsonSchema_throws _ _ s _ Hs Hp). reflexivity. }
  unfold parse. cbn [z_object]. rewrite Hm. reflexivity.
Qed.

Lemma Accepts_ext s ok ok' :
  Accepts s ok -> (forall v, ok v = ok' v) -> Accepts s ok'.
Proof. intros H E p v. rewrite <- E. apply H. Qed.

Lemma Accepts_any : Accepts z_any (fun _ => true).
Proof. intros p v. split; [reflexivity | intros _; eexists; reflexivity]. Qed.

Ltac leaf_accepts :=
  let p := fresh "p" in
  let v := fresh "v" in
  let H := fresh "H" in
  let iss := fresh "iss" in
  intros p v; split;
  [ intros [iss H]; destruct v; cbn in H; try discriminate; reflexivity
  | intro H; destruct v; try discriminate; eexists; reflexivity ].

Lemma Accepts_string : Accepts z_string string_ok.
Proof. leaf_accepts. Qed.

Lemma Accepts_boolean : Accepts z_boolean boolean_ok.
Proof. leaf_accepts. Qed.

Lemma Accepts_literal value :
  Accepts (z_literal value) (fun v => is_string v value).
Proof.
  intros p v. split.
  - intros [iss H]. destruct v; cbn in H; try discriminate.
    cbn. destruct (String.eqb s value); [reflexivity | discriminate].
  - intro H. destruct v; try discriminate. cbn in *. rewrite H.
    eexists. reflexivity.
Qed.

Lemma Accepts_optional s ok :
  Accepts s ok -> Accepts (z_optional s) (optional_ok ok).
Proof.
  intros H p v. destruct v; cbn [z_optional optional_ok]; try apply H.
  split; [reflexivity | intros _; eexists; reflexivity].
Qed.

(** Two outcomes merge to a valid one exactly when both are valid. *)
Lemma then_both_valid (m ms : Run Outcome) :
  (exists iss, (do r <- m; do rs <- ms; Done (both r rs)) = Done (valid, iss))
  <-> (exists iss, m = Done (valid, iss)) /\ (exists iss, ms = Done (valid, iss)).
Proof.
  split.
  - intros [iss H]. destruct m as [[a ia]|e]; cbn [and_then] in H;
      [| discriminate].
    destruct ms as [[b ib]|e]; cbn [and_then] in H; [| discriminate].
    unfold both in H. cbn [fst snd] in H. inversion H as [[Hm Hi]].
    apply merge_valid in Hm as [-> ->]. split; eexists; reflexivity.
  - intros [[ia ->] [ib ->]]. cbn. eexists. reflexivity.
Qed.

Lemma elements_accepts s ok :
  Accepts s ok ->
  forall p items i,
    (exists iss, elements s p i items = Done (valid, iss))
    <-> forallb ok items = true.
Proof.
  intros H p items. induction items as [|x rest IH]; intro i;
    cbn [elements forallb].
  - split; [reflexivity | intros _; eexists; reflexivity].
  - rewrite then_both_valid, andb_true_iff, (H _ x), (IH (S i)). reflexivity.
Qed.

Lemma Accepts_array s ok : Accepts s ok -> Accepts (z_array s) (array_ok ok).
Proof.
  intros H p v. destruct v; cbn [z_array array_ok];
    try (split; [intros [iss E]; discriminate | discriminate]).
  apply elements_accepts. exact H.
Qed.

Lemma entries_accepts s ok :
  Accepts s ok ->
  forall p props keys,
    (exists iss, entries s p props keys = Done (valid, iss))
    <-> forallb (fun k => ok (get_prop props k)) keys = true.
Proof.
  intros H p props keys. induction keys as [|k rest IH]; cbn [entries forallb].
  - split; [reflexivity | intros _; eexists; reflexivity].
  - rewrite then_both_valid, andb_true_iff, (H _ (get_prop props k)), IH.
    reflexivity.
Qed.

Lemma Accepts_record s ok : Accepts s ok -> Accepts (z_record s) (record_ok ok).
Proof.
  intros H p v. destruct v; cbn [z_record record_ok];
    try (split; [intros [iss E]; discriminate | discriminate]).
  apply entries_accepts. exact H.
Qed.

Lemma Accepts_record_any : Accepts (z_record z_any) object_ok.
Proof.
  apply (Accepts_ext _ _ _ (Accepts_record _ _ Accepts_any)).
  intros [| | | | | |props]; try reflexivity.
  cbn [record_ok object_ok]. induction (map fst props); [reflexivity | assumption].
Qed.

(** The members of a shape against the list of their acceptance
    tests. *)
Lemma members_accept shape oks :
  Forall2 (fun ks ok => Accepts (snd ks) ok) shape oks ->
  forall p props,
    (exists iss, members shape p props = Done (valid, iss))
    <-> forallb (fun kok => snd kok (get_prop props (fst kok)))
          (combine (map fst shape) oks) = true.
Proof.
  intros H p props. induction H as [|[k s] ok rest oks Hs _ IH];
    cbn [members map combine forallb fst snd].
  - split; [reflexivity | intros _; eexists; reflexivity].
  - cbn [snd] in Hs.
    rewrite then_both_valid, andb_true_iff, (Hs _ (get_prop props k)), IH.
    reflexivity.
Qed.

Lemma extraKeys_only shape props :
  extraKeys shape props = [] <-> only_keys (map fst shape) props = true.
Proof.
  unfold extraKeys, only_keys. induction (map fst props) as [|k l IH];
    cbn [filter forallb].
  - split; reflexivity.
  - destruct (existsb (String.eqb k) (map fst shape)); cbn [negb andb].
    + exact IH.
    + split; discriminate.
Qed.

Lemma object_accepts mode shape oks :
  Forall2 (fun ks ok => Accepts (snd ks) ok) shape oks ->
  Accepts (z_object mode shape)
    (fun v =>
       match v with
       | JObject props =>
           forallb (fun kok => snd kok (get_prop props (fst kok)))
             (combine (map fst shape) oks)
           && match mode with
              | strict => only_keys (map fst shape) props
              | strip => true
              end
       | _ => false
       end).
Proof.
  intros H p v. destruct v; cbn [z_object];
    try (split; [intros [iss E]; discriminate | discriminate]).
  rewrite andb_true_iff, <- (members_accept shape oks H p props).
  destruct (members shape p props) as [[st l]|e]; cbn [and_then].
  - destruct mode.
    + split; [intros [iss E]; split; [eexists; exact E | reflexivity]
             | intros [E _]; exact E].
    + rewrite <- extraKeys_only.
      destruct (extraKeys shape props) eqn:Ex.
      * split; [intros [iss E]; split; [eexists; exact E | reflexivity]
               | intros [E _]; exact E].
      * cbn [fst snd]. split.
        -- intros [iss E]. destruct st; discriminate.
        -- intros [_ E]. discriminate.
  - split; [intros [iss E]; discriminate | intros [[iss E] _]; discriminate].
Qed.

Create HintDb accepts.

#[local] Hint Resolve Accepts_any Accepts_string Accepts_boolean
  Accepts_literal Accepts_optional Accepts_array Accepts_record
  Accepts_record_any : accepts.

Ltac accept_shape :=
  repeat (apply Forall2_cons; [cbn [snd]; auto 20 with accepts |]);
  apply Forall2_nil.

Ltac flatten_tests :=
  cbn [forallb combine map fst snd];
  rewrite ?andb_true_r, ?andb_assoc.

Lemma Accepts_emit_object :
  Accepts (z_object strict emitShape)
    (fun v => match v with JObject _ => emit_ok v | _ => false end).
Proof.
  eapply Accepts_ext.
  - apply (object_accepts strict emitShape
             [string_ok; optional_ok string_ok; optional_ok boolean_ok]).
    unfold emitShape. accept_shape.
  - intros [| | | | | |props]; try reflexivity.
    unfold emitShape, emit_ok. flatten_tests. reflexivity.
Qed.

Lemma Accepts_emit :
  Accepts (z_union [ z_string; z_object strict emitShape ]) emit_ok.
Proof.
  intros p v.
  destruct v;
    try (split; [intros [iss E]; cbn in E; discriminate | discriminate]).
  - split; [reflexivity | intros _; eexists; reflexivity].
  - cbn [z_union options_loop z_string reject and_then fst].
    rewrite <- (Accepts_emit_object p (JObject props)).
    destruct (Completes_emit_object p (JObject props)) as [[st l] ->].
    cbn [and_then fst]. destruct st.
    + split; intros _; eexists; reflexivity.
    + split; intros [iss E]; discriminate.
    + split; intros [iss E]; discriminate.
Qed.

#[local] Hint Resolve Accepts_emit : accepts.

Lemma Accepts_emits : Accepts emits (array_ok emit_ok).
Proof. unfold emits. auto with accepts. Qed.

#[local] Hint Resolve Accepts_emits : accepts.

Lemma Accepts_objectSchema : Accepts objectSchema objectSchema_ok.
Proof.
  eapply Accepts_ext.
  - apply (object_accepts strip objectShape
             [ (fun v => is_string v "object"); object_ok;
               optional_ok (array_ok string_ok); optional_ok boolean_ok;
               optional_ok string_ok; optional_ok string_ok ]).
    unfold objectShape. accept_shape.
  - intros [| | | | | |props]; try reflexivity.
    unfold objectShape, objectSchema_ok. flatten_tests. reflexivity.
Qed.

#[local] Hint Resolve Accepts_objectSchema : accepts.

Lemma Accepts_arraySchema : Accepts arraySchema arraySchema_ok.
Proof.
  eapply Accepts_ext.
  - apply (object_accepts strip arrayShape
             [ (fun v => is_string v "array"); objectSchema_ok;
               optional_ok string_ok; optional_ok string_ok ]).
    unfold arrayShape. accept_shape.
  - intros [| | | | | |props]; try reflexivity.
    unfold arrayShape, arraySchema_ok. flatten_tests. reflexivity.
Qed.

Lemma parse_done s ok v :
  Accepts s ok -> (parse s v = Done tt <-> ok v = true).
Proof.
  intro H. rewrite <- (H [] v). unfold parse.
  destruct (s [] v) as [[st l]|e]; cbn [and_then].
  - destruct st.
    + split; [intros _; eexists; reflexivity | reflexivity].
    + split; [destruct l; discriminate | intros [iss E]; discriminate].
    + split; [destruct l; discriminate | intros [iss E]; discriminate].
  - split; [discriminate | intros [iss E]; discriminate].
Qed.

(** [jsonSchema] completes with a valid status or throws. *)
Lemma jsonSchema_cases p data :
  (json_ok data = true /\ jsonSchema p data = Done (valid, []))
  \/ (json_ok data = false /\ exists e, jsonSchema p data = Throw e).
Proof.
  unfold jsonSchema, refine, z_any, json_ok, jsonSchema_check.
  cbn [and_then fst snd].
  destruct (negb (js_truthy data)); [left; split; reflexivity|].
  destruct (is_string (type_of data) "object").
  - pose proof (parse_done objectSchema _ data Accepts_objectSchema) as H.
    destruct (parse objectSchema data) as [[]|e]; cbn [and_then].
    + left. split; [apply H; reflexivity | reflexivity].
    + right. split; [| eexists; reflexivity].
      destruct (objectSchema_ok data); [| reflexivity].
      destruct H as [_ H]. discriminate (H eq_refl).
  - destruct (is_string (type_of data) "array"); [| left; split; reflexivity].
    pose proof (parse_done arraySchema _ data Accepts_arraySchema) as H.
    destruct (parse arraySchema data) as [[]|e]; cbn [and_then].
    + left. split; [apply H; reflexivity | reflexivity].
    + right. split; [| eexists; reflexivity].
      destruct (arraySchema_ok data); [| reflexivity].
      destruct H as [_ H]. discriminate (H eq_refl).
Qed.

Lemma Accepts_jsonSchema : Accepts jsonSchema json_ok.
Proof.
  intros p v. destruct (jsonSchema_cases p v) as [[Hok ->] | [Hok [e ->]]];
    rewrite Hok.
  - split; [reflexivity | intros _; eexists; reflexivity].
  - split; [intros [iss E]; discriminate | discriminate].
Qed.

Lemma Accepts_json_union :
  Accepts (z_union [ jsonSchema; z_object strip []; z_null ]) json_ok.
Proof.
  intros p v. cbn [z_union options_loop].
  destruct (jsonSchema_cases p v) as [[Hok ->] | [Hok [e ->]]];
    rewrite Hok; cbn [and_then fst].
  - split; [reflexivity | intros _; eexists; reflexivity].
  - split; [intros [iss E]; discriminate | discriminate].
Qed.

Lemma Accepts_queryParam : Accepts (z_object strip queryParamShape) queryParam_ok.
Proof.
  eapply Accepts_ext.
  - apply (object_accepts strip queryParamShape
             [ string_ok; optional_ok string_ok ]).
    unfold queryParamShape. accept_shape.
  - intros [| | | | | |props]; try reflexivity.
    unfold queryParamShape, queryParam_ok. flatten_tests. reflexivity.
Qed.

#[local] Hint Resolve Accepts_jsonSchema Accepts_json_union Accepts_queryParam
  : accepts.

Lemma noop_accepts props :
  is_string (get_prop props "type") "noop" = true ->
  (parse noopSchema (JObject props) = Done tt <-> noop_ok props = true).
Proof.
  intro Ht.
  rewrite (parse_done noopSchema _ (JObject props)
             (object_accepts strict noopShape
                [ (fun v => is_string v "noop"); string_ok;
                  optional_ok string_ok; array_ok emit_ok; array_ok string_ok;
                  optional_ok (array_ok string_ok) ]
                ltac:(unfold noopShape; accept_shape))).
  unfold noopShape, noop_ok. flatten_tests. rewrite Ht. reflexivity.
Qed.

Lemma event_accepts props :
  is_string (get_prop props "type") "event" = true ->
  (parse eventSchema (JObject props) = Done tt <-> event_ok props = true).
Proof.
  intro Ht.
  rewrite (parse_done eventSchema _ (JObject props)
             (object_accepts strict eventShape
                [ (fun v => is_string v "event"); string_ok;
                  optional_ok string_ok; array_ok string_ok; array_ok emit_ok;
                  optional_ok (array_ok emit_ok);
                  optional_ok (array_ok string_ok); optional_ok json_ok;
                  optional_ok (array_ok string_ok);
                  optional_ok (array_ok string_ok);
                  optional_ok (fun _ => true) ]
                ltac:(unfold eventShape; accept_shape))).
  unfold eventShape, event_ok. flatten_tests. rewrite Ht.
  replace (optional_ok (fun _ => true) (get_prop props "infrastructure"))
    with true by (destruct (get_prop props "infrastructure"); reflexivity).
  rewrite ?andb_true_r. reflexivity.
Qed.

Lemma api_accepts props :
  is_string (get_prop props "type") "api" = true ->
  (parse apiSchema (JObject props) = Done tt <-> api_ok props = true).
Proof.
  intro Ht.
  rewrite (parse_done apiSchema _ (JObject props)
             (object_accepts strict apiShape
                [ (fun v => is_string v "api"); string_ok;
                  optional_ok string_ok; string_ok; string_ok;
                  array_ok emit_ok; optional_ok (array_ok emit_ok);
                  optional_ok (array_ok string_ok);
                  optional_ok (array_ok string_ok);
                  optional_ok (array_ok string_ok);
                  optional_ok (array_ok (fun _ => true));
                  optional_ok (array_ok queryParam_ok);
                  optional_ok json_ok; optional_ok (record_ok json_ok);
                  optional_ok (fun _ => true) ]
                ltac:(unfold apiShape; accept_shape))).
  unfold apiShape, api_ok. flatten_tests. rewrite Ht.
  replace (optional_ok (fun _ => true) (get_prop props "infrastructure"))
    with true by (destruct (get_prop props "infrastructure"); reflexivity).
  rewrite ?andb_true_r. reflexivity.
Qed.

Lemma cron_accepts props :
  is_string (get_prop props "type") "cron" = true ->
  (parse cronSchema (JObject props) = Done tt <-> cron_ok props = true).
Proof.
  intro Ht.
  rewrite (parse_done cronSchema _ (JObject props)
             (object_accepts strict cronShape
                [ (fun v => is_string v "cron"); string_ok;
                  optional_ok string_ok; string_ok;
                  optional_ok (array_ok emit_ok);
                  optional_ok (array_ok string_ok); array_ok emit_ok;
                  optional_ok (array_ok string_ok);
                  optional_ok (array_ok string_ok);
                  optional_ok (fun _ => true) ]
                ltac:(unfold cronShape; accept_shape))).
  unfold cronShape, cron_ok. flatten_tests. rewrite Ht.
  replace (optional_ok (fun _ => true) (get_prop props "infrastructure"))
    with true by (destruct (get_prop props "infrastructure"); reflexivity).
  rewrite ?andb_true_r. reflexivity.
Qed.

Lemma branch_accepts (s : Schema) (v : JsValue) (ok : bool) :
  (parse s v = Done tt <-> ok = true) ->
  (match (do _ <- parse s v; Done ValidationSuccess) with
   | Done result => result
   | Throw (ZodError issues) => failure_of issues
   | Throw OtherError =>
       ValidationError "Unexpected validation error occurred" None
   end = ValidationSuccess <-> ok = true).
Proof.
  intro H. rewrite <- H. destruct (parse s v) as [[]|[issues|]]; cbn [and_then].
  - split; reflexivity.
  - split; discriminate.
  - split; discriminate.
Qed.

(** X13: [validateStep] succeeds exactly on the configurations that are
    objects whose type is noop, event, api or cron and whose members fit
    the shape of that type, with no key outside it. *)
Theorem validateStep_accepts config :
  validateStep config = ValidationSuccess <-> step_ok config = true.
Proof.
  destruct config; try (split; [cbn; discriminate | discriminate]).
  unfold validateStep, validateStep_body, step_ok.
  cbn [config_type and_then].
  fold (failure_of).
  destruct (is_string (get_prop props "type") "noop") eqn:E1;
    [apply branch_accepts, noop_accepts; exact E1|].
  destruct (is_string (get_prop props "type") "event") eqn:E2;
    [apply branch_accepts, event_accepts; exact E2|].
  destruct (is_string (get_prop props "type") "api") eqn:E3;
    [apply branch_accepts, api_accepts; exact E3|].
  destruct (is_string (get_prop props "type") "cron") eqn:E4;
    [apply branch_accepts, cron_accepts; exact E4|].
  split; discriminate.
Qed.

Lemma unexpected_only_without_config_witness :
  validateStep event_without_input_properties
  = ValidationError "Required" (Some [("properties", "Required")])
  /\ [("properties", "Required")] <> []
  /\ "Required" = String.concat ", " (map snd [("properties", "Required")]).
Proof.
  split; [reflexivity|].
  destruct (unexpected_only_without_config event_without_input_properties)
    as (_ & H & _).
  exact (H "Required" [("properties", "Required")] eq_refl).
Defined.

Lemma unknown_key_rejected_witness :
  exists issues,
    issues <> []
    /\ validateStep
         (step "noop"
            [ ("name", JString "start"); ("virtualEmits", JArray []);
              ("virtualSubscribes", JArray []); ("emits", JArray []) ])
       = failure_of issues.
Proof.
  apply (unknown_key_rejected _ noopShape "emits").
  - reflexivity.
  - cbn. do 4 right. left. reflexivity.
  - cbn. intros [H | [H | [H | [H | [H | [H | []]]]]]]; discriminate.
Defined.

Lemma infrastructure_not_validated_witness :
  validateStep
    (step "cron"
       [ ("name", JString "nightly"); ("infrastructure", JNumber (of_Z 7));
         ("cron", JString "0 0 * * *"); ("emits", JArray []) ])
  = validateStep
      (step "cron"
         [ ("name", JString "nightly"); ("cron", JString "0 0 * * *");
           ("emits", JArray []) ]).
Proof.
  destruct (infrastructure_not_validated
              [ ("type", JString "cron"); ("name", JString "nightly") ]
              [ ("cron", JString "0 0 * * *"); ("emits", JArray []) ]
              (JNumber (of_Z 7))) as [H _].
  exact (H eq_refl).
Defined.

Lemma input_issues_mask_the_step_witness :
  validateStep event_without_input_properties
  = failure_of [mkIssue [Key "properties"] "Required"].
Proof.
  apply (input_issues_mask_the_step _ objectSchema).
  - reflexivity.
  - reflexivity.
  - reflexivity.
Defined.

End StepValidatorFacts.

(** ** The deployment stream manager *)

Module DeploymentStreamFacts.
Import DeploymentStream DeploymentStreamSpec.

Section Lists.
Context {A : Type}.
Variable key : A -> string.

Let at_key (p : string) (x : A) : bool := String.eqb (key x) p.

Lemma upsert_nil (pred : A -> bool) x : upsert pred [] x = [x].
Proof. reflexivity. Qed.

Lemma upsert_cons (pred : A -> bool) y l x :
  upsert pred (y :: l) x = if pred y then x :: l else y :: upsert pred l x.
Proof.
  unfold upsert. cbn [findIndex]. destruct (pred y); [reflexivity|].
  destruct (findIndex pred l); reflexivity.
Qed.

Lemma find_upsert_same l x :
  find (at_key (key x)) (upsert (at_key (key x)) l x) = Some x.
Proof.
  induction l as [|y l IH].
  - cbn. unfold at_key. rewrite String.eqb_refl. reflexivity.
  - rewrite upsert_cons. destruct (at_key (key x) y) eqn:E.
    + cbn [find]. unfold at_key at 1. rewrite String.eqb_refl. reflexivity.
    + cbn [find]. rewrite E. exact IH.
Qed.

Lemma find_upsert_other l x p :
  p <> key x ->
  find (at_key p) (upsert (at_key (key x)) l x) = find (at_key p) l.
Proof.
  intro Hp.
  assert (Hx : at_key p x = false).
  { unfold at_key. apply String.eqb_neq. congruence. }
  induction l as [|y l IH].
  - cbn. rewrite Hx. reflexivity.
  - rewrite upsert_cons. destruct (at_key (key x) y) eqn:E.
    + cbn [find]. rewrite Hx.
      assert (Hy : at_key p y = false).
      { unfold at_key in *. apply String.eqb_eq in E. apply String.eqb_neq.
        congruence. }
      rewrite Hy. reflexivity.
    + cbn [find]. rewrite IH. reflexivity.
Qed.

Lemma length_upsert l x :
  List.length (upsert (at_key (key x)) l x)
  = if existsb (at_key (key x)) l then List.length l else S (List.length l).
Proof.
  induction l as [|y l IH]; [reflexivity|].
  rewrite upsert_cons. cbn [existsb]. destruct (at_key (key x) y); [reflexivity|].
  cbn [List.length orb]. rewrite IH. destruct (existsb _ l); reflexivity.
Qed.

Lemma keys_upsert l x y :
  In y (map key (upsert (at_key (key x)) l x)) ->
  y = key x \/ In y (map key l).
Proof.
  induction l as [|z l IH].
  - cbn. intros [<- | []]. left. reflexivity.
  - rewrite upsert_cons. destruct (at_key (key x) z) eqn:E.
    + cbn. intros [<- | H]; [left; reflexivity | right; right; exact H].
    + cbn. intros [<- | H]; [right; left; reflexivity|].
      destruct (IH H) as [-> | H']; [left; reflexivity | right; right; exact H'].
Qed.

Lemma NoDup_upsert l x :
  NoDup (map key l) -> NoDup (map key (upsert (at_key (key x)) l x)).
Proof.
  induction l as [|z l IH]; intro H.
  - cbn. constructor; [intros [] | constructor].
  - rewrite upsert_cons. destruct (at_key (key x) z) eqn:E.
    + unfold at_key in E. apply String.eqb_eq in E. cbn in *. rewrite <- E.
      exact H.
    + cbn in *. inversion H as [| ? ? Hnot Hrest]; subst.
      constructor; [| apply IH; exact Hrest].
      intro Hin. destruct (keys_upsert l x (key z) Hin) as [Hz | Hz].
      * unfold at_key in E. apply String.eqb_neq in E. contradiction.
      * contradiction.
Qed.

Lemma upsert_idempotent l x :
  upsert (at_key (key x)) (upsert (at_key (key x)) l x) x
  = upsert (at_key (key x)) l x.
Proof.
  induction l as [|y l IH].
  - cbn [upsert_nil]. rewrite upsert_nil, upsert_cons.
    unfold at_key. rewrite String.eqb_refl. reflexivity.
  - rewrite (upsert_cons _ y l). destruct (at_key (key x) y) eqn:E.
    + rewrite upsert_cons. unfold at_key at 1. rewrite String.eqb_refl.
      reflexivity.
    + rewrite upsert_cons, E, IH. reflexivity.
Qed.

Lemma upsert_not_nil l x : upsert (at_key (key x)) l x <> [].
Proof.
  destruct l as [|y l]; [discriminate|].
  rewrite upsert_cons. destruct (at_key (key x) y); discriminate.
Qed.

End Lists.

Lemma truthy_length {A} (l : list A) : l <> [] -> truthy (length_of l) = true.
Proof.
  destruct l as [|x l]; [contradiction|]. intros _.
  unfold length_of, of_Z, truthy. cbn [List.length].
  rewrite Qeq_bool_false; [reflexivity|].
  unfold inject_Z, Qeq. cbn. lia.
Qed.

Lemma totalSteps_or_truthy m n :
  truthy n = true -> truthy (totalSteps_or m n) = true.
Proof.
  intro H. unfold totalSteps_or. destruct m as [md|]; [| exact H].
  destruct (truthy (totalSteps md)) eqn:E; [exact E | exact H].
Qed.

Section Laws.

Variable Stream : Type.
Variable get : Stream -> string -> string -> option DeploymentData.
Variable set : Stream -> string -> string -> DeploymentData -> Stream.

Hypothesis get_set_same :
  forall st g i d, get (set st g i d) g i = Some d.
Hypothesis get_set_other :
  forall st g i d g', g' <> g -> get (set st g i d) g' i = get st g' i.

Lemma updateDeployment_get st d p :
  getDeployment Stream get (updateDeployment Stream get set st d p) d =
  Some match getDeployment Stream get st d with
       | None => with_id (spread (createDefaultDeploymentData d) p) d
       | Some current => with_deploymentId (with_id (spread current p) d) d
       end.
Proof.
  unfold updateDeployment. destruct (getDeployment Stream get st d) eqn:E;
    unfold getDeployment in *; rewrite get_set_same; reflexivity.
Qed.

Lemma updateDeployment_frame st d p d' :
  d' <> d ->
  getDeployment Stream get (updateDeployment Stream get set st d p) d'
  = getDeployment Stream get st d'.
Proof.
  intro H. unfold updateDeployment, getDeployment.
  destruct (get st d "data"); apply get_set_other; exact H.
Qed.

(** X14: [updateDeployment] stores under the deployment an item whose id
    is the deployment's, whatever id the data carries; every member named
    in the data has the data's value and every other member keeps the value
    of the stored item, or of the defaults when none was stored; the item
    gets a [deploymentId] only when one was stored before; the items of
    other deployments are left as they were. *)
Theorem updateDeployment_merges st d p :
  let base := base_of (getDeployment Stream get st d) d in
  (exists data,
      getDeployment Stream get (updateDeployment Stream get set st d p) d = Some data
      /\ id data = d
      /\ status data = over (status base) (p_status p)
      /\ phase data = over (phase base) (p_phase p)
      /\ progress data = over (progress base) (p_progress p)
      /\ message data = over (message base) (p_message p)
      /\ build data = over (build base) (p_build p)
      /\ upload data = over (upload base) (p_upload p)
      /\ error data = over (error base) (p_error p)
      /\ startedAt data = over (startedAt base) (p_startedAt p)
      /\ completedAt data = over (completedAt base) (p_completedAt p)
      /\ metadata data = over (metadata base) (p_metadata p)
      /\ deploymentId data
         = match getDeployment Stream get st d with
           | Some _ => Some d
           | None => None
           end)
  /\ (forall d',
         d' <> d ->
         getDeployment Stream get (updateDeployment Stream get set st d p) d'
         = getDeployment Stream get st d').
Proof.
  intro base. subst base. split.
  - rewrite updateDeployment_get. eexists. split; [reflexivity|].
    destruct (getDeployment Stream get st d); cbn; repeat split.
  - intros d' H. apply updateDeployment_frame. exact H.
Qed.

Lemma updateBuildOutput_get st d o current :
  getDeployment Stream get st d = Some current ->
  getDeployment Stream get (updateBuildOutput Stream get set st d o) d =
  Some (mkData d (status current) (phase current) (progress current)
          (message current)
          (upsert (build_at (BuildOutput.packagePath o)) (build current) o)
          (upload current) (error current) (startedAt current)
          (completedAt current)
          (Some (mkMetadata
                   (totalSteps_or (metadata current)
                      (length_of (upsert (build_at (BuildOutput.packagePath o))
                                    (build current) o)))
                   (uploadedSteps_of (metadata current))
                   (Some (count_of is_built
                            (upsert (build_at (BuildOutput.packagePath o))
                               (build current) o)))))
          (Some d)).
Proof.
  intro H. unfold updateBuildOutput. rewrite H.
  rewrite updateDeployment_get, H. reflexivity.
Qed.

Lemma updateUploadOutput_get st d o current :
  getDeployment Stream get st d = Some current ->
  getDeployment Stream get (updateUploadOutput Stream get set st d o) d =
  Some (mkData d (status current) (phase current) (progress current)
          (message current) (build current)
          (upsert (upload_at (UploadOutput.packagePath o)) (upload current) o)
          (error current) (startedAt current) (completedAt current)
          (Some (mkMetadata
                   (totalSteps_or (metadata current)
                      (length_of (upsert (upload_at (UploadOutput.packagePath o))
                                    (upload current) o)))
                   (Some (count_of is_uploaded
                            (upsert (upload_at (UploadOutput.packagePath o))
                               (upload current) o)))
                   (buildedSteps_of (metadata current))))
          (Some d)).
Proof.
  intro H. unfold updateUploadOutput. rewrite H.
  rewrite updateDeployment_get, H. reflexivity.
Qed.

(** X15: after [updateBuildOutput] on a stored deployment, looking up the
    output's package path in the build list gives the output, every other
    package path gives what it gave before, the list grew by one entry if
    the path was new and kept its length otherwise, and package paths that
    were distinct stay distinct. *)
Theorem updateBuildOutput_upserts st d o current :
  getDeployment Stream get st d = Some current ->
  exists data,
    getDeployment Stream get (updateBuildOutput Stream get set st d o) d = Some data
    /\ find (build_at (BuildOutput.packagePath o)) (build data) = Some o
    /\ (forall p, p <> BuildOutput.packagePath o ->
          find (build_at p) (build data) = find (build_at p) (build current))
    /\ List.length (build data)
       = (if existsb (build_at (BuildOutput.packagePath o)) (build current)
          then List.length (build current)
          else S (List.length (build current)))
    /\ (NoDup (map BuildOutput.packagePath (build current)) ->
        NoDup (map BuildOutput.packagePath (build data))).
Proof.
  intro H. eexists. split; [apply (updateBuildOutput_get st d o current H)|].
  cbn [build]. repeat split.
  - apply (find_upsert_same BuildOutput.packagePath).
  - intros p Hp. apply (find_upsert_other BuildOutput.packagePath). exact Hp.
  - apply (length_upsert BuildOutput.packagePath).
  - apply (NoDup_upsert BuildOutput.packagePath).
Qed.

(** X16: [updateBuildOutput] on a stored deployment changes the build list
    and the metadata only: buildedSteps becomes the number of built entries
    of the new list, uploadedSteps is kept, and totalSteps is kept when it is
    neither zero nor NaN and becomes the length of the new list otherwise;
    status, phase, progress, message, uploads, error and times are kept,
    and other deployments are untouched. *)
Theorem updateBuildOutput_counts st d o current :
  getDeployment Stream get st d = Some current ->
  (exists data,
      getDeployment Stream get (updateBuildOutput Stream get set st d o) d = Some data
      /\ id data = d
      /\ metadata data
         = Some (mkMetadata
                   (if match metadata current with
                       | Some m => truthy (totalSteps m)
                       | None => false
                       end
                    then match metadata current with
                         | Some m => totalSteps m
                         | None => NaN
                         end
                    else length_of (build data))
                   (uploadedSteps_of (metadata current))
                   (Some (count_of is_built (build data))))
      /\ status data = status current /\ phase data = phase current
      /\ progress data = progress current /\ message data = message current
      /\ upload data = upload current /\ error data = error current
      /\ startedAt data = startedAt current
      /\ completedAt data = completedAt current)
  /\ (forall d',
         d' <> d ->
         getDeployment Stream get (updateBuildOutput Stream get set st d o) d'
         = getDeployment Stream get st d').
Proof.
  intro H. split.
  - eexists. split; [apply (updateBuildOutput_get st d o current H)|].
    cbn. repeat split.
    destruct (metadata current) as [m|]; cbn; [| reflexivity].
    destruct (truthy (totalSteps m)); reflexivity.
  - intros d' Hd. unfold updateBuildOutput. rewrite H.
    apply updateDeployment_frame. exact Hd.
Qed.

(** X17: reporting the same build output twice leaves the stored item as
    after the first report. *)
Theorem updateBuildOutput_idempotent st d o current :
  getDeployment Stream get st d = Some current ->
  getDeployment Stream get
    (updateBuildOutput Stream get set
       (updateBuildOutput Stream get set st d o) d o) d
  = getDeployment Stream get (updateBuildOutput Stream get set st d o) d.
Proof.
  intro H.
  rewrite (updateBuildOutput_get _ d o _ (updateBuildOutput_get st d o current H)).
  rewrite (updateBuildOutput_get st d o current H).
  cbn [build metadata status phase progress message upload error startedAt
       completedAt uploadedSteps_of uploadedSteps totalSteps_or totalSteps].
  unfold build_at.
  rewrite (upsert_idempotent BuildOutput.packagePath).
  rewrite totalSteps_or_truthy
    by (apply truthy_length, (upsert_not_nil BuildOutput.packagePath)).
  destruct (metadata current); reflexivity.
Qed.

(** X18: when the stored totalSteps is neither zero nor NaN, reporting a
    build output and reporting an upload output commute: both orders leave
    the same item. *)
Theorem build_and_upload_commute st d b u current m :
  getDeployment Stream get st d = Some current ->
  metadata current = Some m ->
  truthy (totalSteps m) = true ->
  getDeployment Stream get
    (updateUploadOutput Stream get set
       (updateBuildOutput Stream get set st d b) d u) d
  = getDeployment Stream get
      (updateBuildOutput Stream get set
         (updateUploadOutput Stream get set st d u) d b) d.
Proof.
  intros H Hm Ht.
  rewrite (updateUploadOutput_get _ d u _ (updateBuildOutput_get st d b current H)).
  rewrite (updateBuildOutput_get _ d b _ (updateUploadOutput_get st d u current H)).
  cbn. rewrite Hm. cbn. rewrite Ht. cbn. rewrite Ht. reflexivity.
Qed.

Lemma completeDeployment_get st d ok err now current :
  getDeployment Stream get st d = Some current ->
  getDeployment Stream get (completeDeployment Stream get set st d ok err now) d =
  Some (mkData (id current) (if ok then completed else failed) None (of_Z 100)
          (if ok then "Deployment completed successfully"
           else "Deployment failed: "
                ++ match err with Some e => e | None => "undefined" end)
          (build current) (upload current) err (startedAt current) (Some now)
          (metadata current) (deploymentId current)).
Proof.
  intro H. unfold completeDeployment. rewrite H.
  unfold getDeployment. rewrite get_set_same. reflexivity.
Qed.

(** X19: the outputs reported before completion survive it:
    [completeDeployment] after [updateBuildOutput] stores an item whose
    build list holds the output at its package path, with progress 100, no
    phase, the completion time, and the status chosen by the flag; a
    deployment that was never stored is not created by either call. *)
Theorem complete_keeps_outputs st d o ok err now :
  (forall current,
      getDeployment Stream get st d = Some current ->
      exists data,
        getDeployment Stream get
          (completeDeployment Stream get set
             (updateBuildOutput Stream get set st d o) d ok err now) d
        = Some data
        /\ find (build_at (BuildOutput.packagePath o)) (build data) = Some o
        /\ status data = (if ok then completed else failed)
        /\ phase data = None /\ progress data = of_Z 100
        /\ completedAt data = Some now
        /\ startedAt data = startedAt current
        /\ error data = err)
  /\ (getDeployment Stream get st d = None ->
      completeDeployment Stream get set
        (updateBuildOutput Stream get set st d o) d ok err now = st).
Proof.
  split.
  - intros current H. eexists. split.
    + apply (completeDeployment_get _ d ok err now _
               (updateBuildOutput_get st d o current H)).
    + cbn. repeat split. apply (find_upsert_same BuildOutput.packagePath).
  - intro H. unfold updateBuildOutput. rewrite H.
    unfold completeDeployment. rewrite H. reflexivity.
Qed.


(** What holds of the stored item between two reports. *)
Lemma report_invariant st d r data m (reported : bool) :
  getDeployment Stream get st d = Some data ->
  metadata data = Some m ->
  totalSteps m = (if reported then of_Z 1 else of_Z 0) ->
  (reported = false -> build data = [] /\ upload data = []) ->
  NoDup (map BuildOutput.packagePath (build data)) ->
  NoDup (map UploadOutput.packagePath (upload data)) ->
  buildedSteps m = counter is_built (build data) ->
  uploadedSteps m = counter is_uploaded (upload data) ->
  exists data' m',
    getDeployment Stream get (report Stream get set d st r) d = Some data'
    /\ metadata data' = Some m'
    /\ totalSteps m' = of_Z 1
    /\ NoDup (map BuildOutput.packagePath (build data'))
    /\ NoDup (map UploadOutput.packagePath (upload data'))
    /\ buildedSteps m' = counter is_built (build data')
    /\ uploadedSteps m' = counter is_uploaded (upload data')
    /\ status data' = status data
    /\ startedAt data' = startedAt data.
Proof.
  intros Hg Hm Ht He Hb Hu Hcb Hcu.
  assert (Htot : forall n : number,
             (reported = false -> n = of_Z 1) ->
             totalSteps_or (metadata data) n = of_Z 1).
  { intros n Hn. rewrite Hm. cbn [totalSteps_or]. rewrite Ht.
    destruct reported; [reflexivity|]. cbn. apply Hn. reflexivity. }
  destruct r as [o | o]; cbn [report].
  - rewrite (updateBuildOutput_get st d o data Hg). do 2 eexists.
    split; [reflexivity|]. cbn [metadata build upload status startedAt].
    split; [reflexivity|]. cbn [totalSteps buildedSteps uploadedSteps].
    split.
    { apply Htot. intro E. destruct (He E) as [-> _]. reflexivity. }
    split; [apply (NoDup_upsert BuildOutput.packagePath); exact Hb|].
    split; [exact Hu|].
    split.
    { pose proof (upsert_not_nil BuildOutput.packagePath (build data) o) as Hn.
      unfold build_at.
      destruct (upsert _ (build data) o); [congruence | reflexivity]. }
    split; [| split; reflexivity].
    rewrite Hm. cbn [uploadedSteps_of]. exact Hcu.
  - rewrite (updateUploadOutput_get st d o data Hg). do 2 eexists.
    split; [reflexivity|]. cbn [metadata build upload status startedAt].
    split; [reflexivity|]. cbn [totalSteps buildedSteps uploadedSteps].
    split.
    { apply Htot. intro E. destruct (He E) as [_ ->]. reflexivity. }
    split; [exact Hb|].
    split; [apply (NoDup_upsert UploadOutput.packagePath); exact Hu|].
    split.
    { rewrite Hm. cbn [buildedSteps_of]. exact Hcb. }
    split; [| split; reflexivity].
    pose proof (upsert_not_nil UploadOutput.packagePath (upload data) o) as Hn.
    unfold upload_at.
    destruct (upsert _ (upload data) o); [congruence | reflexivity].
Qed.

Lemma reports_invariant rs :
  forall st d data m (reported : bool),
    getDeployment Stream get st d = Some data ->
    metadata data = Some m ->
    totalSteps m = (if reported then of_Z 1 else of_Z 0) ->
    (reported = false -> build data = [] /\ upload data = []) ->
    NoDup (map BuildOutput.packagePath (build data)) ->
    NoDup (map UploadOutput.packagePath (upload data)) ->
    buildedSteps m = counter is_built (build data) ->
    uploadedSteps m = counter is_uploaded (upload data) ->
    exists data' m',
      getDeployment Stream get (reports Stream get set st d rs) d = Some data'
      /\ metadata data' = Some m'
      /\ totalSteps m' = (if reported then of_Z 1
                           else match rs with [] => of_Z 0 | _ :: _ => of_Z 1 end)
      /\ NoDup (map BuildOutput.packagePath (build data'))
      /\ NoDup (map UploadOutput.packagePath (upload data'))
      /\ buildedSteps m' = counter is_built (build data')
      /\ uploadedSteps m' = counter is_uploaded (upload data')
      /\ status data' = status data
      /\ startedAt data' = startedAt data.
Proof.
  induction rs as [|r rs IH]; intros st d data m reported Hg Hm Ht He Hb Hu Hcb Hcu.
  - exists data, m. cbn. rewrite Ht. destruct reported; repeat split; assumption.
  - destruct (report_invariant st d r data m reported Hg Hm Ht He Hb Hu Hcb Hcu)
      as [d1 [m1 [Hg1 [Hm1 [Ht1 [Hb1 [Hu1 [Hcb1 [Hcu1 [Hs1 Hst1]]]]]]]]]].
    destruct (IH (report Stream get set d st r) d d1 m1 true Hg1 Hm1 Ht1
                ltac:(discriminate) Hb1 Hu1 Hcb1 Hcu1)
      as [d2 [m2 [Hg2 [Hm2 [Ht2 [Hb2 [Hu2 [Hcb2 [Hcu2 [Hs2 Hst2]]]]]]]]]].
    exists d2, m2. unfold reports in *. cbn [fold_left].
    split; [exact Hg2|]. split; [exact Hm2|].
    split; [rewrite Ht2; destruct reported; reflexivity|].
    repeat split; try assumption; congruence.
Qed.

(** X20: after [startDeployment] and any sequence of build and upload
    reports, the stored item lists each package path once in each of its two
    lists; buildedSteps and uploadedSteps are absent while their list is
    empty and otherwise count its built, respectively uploaded, entries;
    totalSteps is 0 before the first report and 1 after it, however many
    packages are reported; status and start time are those set at the
    start. *)
Theorem reports_keep_the_counts st d now rs :
  exists data m,
    getDeployment Stream get
      (reports Stream get set (startDeployment Stream set st d now) d rs) d
    = Some data
    /\ metadata data = Some m
    /\ totalSteps m = match rs with [] => of_Z 0 | _ :: _ => of_Z 1 end
    /\ NoDup (map BuildOutput.packagePath (build data))
    /\ NoDup (map UploadOutput.packagePath (upload data))
    /\ buildedSteps m = counter is_built (build data)
    /\ uploadedSteps m = counter is_uploaded (upload data)
    /\ status data = status_building
    /\ startedAt data = Some now.
Proof.
  assert (Hg : getDeployment Stream get (startDeployment Stream set st d now) d
               = Some (mkData d status_building (Some phase_build) (of_Z 0)
                         "Starting deployment..." [] [] None (Some now) None
                         (Some (mkMetadata (of_Z 0) None None)) None)).
  { unfold getDeployment, startDeployment. rewrite get_set_same. reflexivity. }
  destruct (reports_invariant rs _ d _ (mkMetadata (of_Z 0) None None) false Hg
              eq_refl eq_refl ltac:(intros _; split; reflexivity)
              ltac:(constructor) ltac:(constructor) eq_refl eq_refl)
    as [data [m H]].
  exists data, m. exact H.
Qed.

End Laws.

Lemma memory_get_set_same (st : MemoryStream) g i d :
  memory_get (memory_set st g i d) g i = Some d.
Proof. cbn. rewrite !String.eqb_refl. reflexivity. Qed.

Lemma memory_get_set_other (st : MemoryStream) g i d g' :
  g' <> g -> memory_get (memory_set st g i d) g' i = memory_get st g' i.
Proof.
  intro H. cbn. apply String.eqb_neq in H. rewrite String.eqb_sym in H.
  rewrite H. reflexivity.
Qed.

(** Instances on the stream held in memory. *)

Lemma updateDeployment_merges_witness :
  exists data,
    getDeployment MemoryStream memory_get
      (updateDeployment MemoryStream memory_get memory_set sample_stream "d1"
         (mkPatch (Some "other") (Some deploying) None None None None None
            None None None None)) "d1" = Some data
    /\ id data = "d1" /\ status data = deploying
    /\ build data = build sample_item
    /\ deploymentId data = Some "d1".
Proof.
  destruct (updateDeployment_merges MemoryStream memory_get memory_set
              memory_get_set_same memory_get_set_other sample_stream "d1"
              (mkPatch (Some "other") (Some deploying) None None None None None
                 None None None None))
    as [(data & Hg & Hid & Hs & _ & _ & _ & Hb & _ & _ & _ & _ & _ & Hd) _].
  exists data. repeat split; assumption.
Defined.

Lemma updateBuildOutput_upserts_witness :
  getDeployment MemoryStream memory_get sample_stream "d1" = Some sample_item
  /\ exists data,
      getDeployment MemoryStream memory_get
        (updateBuildOutput MemoryStream memory_get memory_set sample_stream "d1"
           (sample_build "steps/a" built)) "d1" = Some data
      /\ find (build_at "steps/a") (build data)
         = Some (sample_build "steps/a" built)
      /\ List.length (build data) = 2%nat.
Proof.
  split; [reflexivity|].
  destruct (updateBuildOutput_upserts MemoryStream memory_get memory_set
              memory_get_set_same sample_stream "d1"
              (sample_build "steps/a" built) sample_item eq_refl)
    as (data & Hg & Hf & _ & Hl & _).
  exists data. repeat split; assumption.
Defined.

Lemma updateBuildOutput_counts_witness :
  getDeployment MemoryStream memory_get sample_stream "d1" = Some sample_item
  /\ exists data,
      getDeployment MemoryStream memory_get
        (updateBuildOutput MemoryStream memory_get memory_set sample_stream "d1"
           (sample_build "steps/c" built)) "d1" = Some data
      /\ upload data = upload sample_item
      /\ status data = status sample_item.
Proof.
  split; [reflexivity|].
  destruct (updateBuildOutput_counts MemoryStream memory_get memory_set
              memory_get_set_same memory_get_set_other sample_stream "d1"
              (sample_build "steps/c" built) sample_item eq_refl)
    as [(data & Hg & _ & _ & Hs & _ & _ & _ & Hu & _) _].
  exists data. repeat split; assumption.
Defined.

Lemma updateBuildOutput_idempotent_witness :
  getDeployment MemoryStream memory_get sample_stream "d1" = Some sample_item
  /\ getDeployment MemoryStream memory_get
       (updateBuildOutput MemoryStream memory_get memory_set
          (updateBuildOutput MemoryStream memory_get memory_set sample_stream
             "d1" (sample_build "steps/c" built))
          "d1" (sample_build "steps/c" built)) "d1"
     = getDeployment MemoryStream memory_get
         (updateBuildOutput MemoryStream memory_get memory_set sample_stream
            "d1" (sample_build "steps/c" built)) "d1".
Proof.
  split; [reflexivity|].
  exact (updateBuildOutput_idempotent MemoryStream memory_get memory_set
           memory_get_set_same sample_stream "d1"
           (sample_build "steps/c" built) sample_item eq_refl).
Defined.

Lemma build_and_upload_commute_witness :
  getDeployment MemoryStream memory_get sample_stream "d1" = Some sample_item
  /\ metadata sample_item = Some sample_metadata
  /\ getDeployment MemoryStream memory_get
       (updateUploadOutput MemoryStream memory_get memory_set
          (updateBuildOutput MemoryStream memory_get memory_set sample_stream
             "d1" (sample_build "steps/c" built))
          "d1" (sample_upload "steps/a" uploaded)) "d1"
     = getDeployment MemoryStream memory_get
         (updateBuildOutput MemoryStream memory_get memory_set
            (updateUploadOutput MemoryStream memory_get memory_set sample_stream
               "d1" (sample_upload "steps/a" uploaded))
            "d1" (sample_build "steps/c" built)) "d1".
Proof.
  split; [reflexivity|]. split; [reflexivity|].
  exact (build_and_upload_commute MemoryStream memory_get memory_set
           memory_get_set_same sample_stream "d1"
           (sample_build "steps/c" built) (sample_upload "steps/a" uploaded)
           sample_item sample_metadata eq_refl eq_refl eq_refl).
Defined.

Lemma complete_keeps_outputs_witness :
  getDeployment MemoryStream memory_get sample_stream "d1" = Some sample_item
  /\ exists data,
      getDeployment MemoryStream memory_get
        (completeDeployment MemoryStream memory_get memory_set
           (updateBuildOutput MemoryStream memory_get memory_set sample_stream
              "d1" (sample_build "steps/a" built))
           "d1" false None (of_Z 2000)) "d1" = Some data
      /\ find (build_at "steps/a") (build data)
         = Some (sample_build "steps/a" built)
      /\ status data = failed.
Proof.
  split; [reflexivity|].
  destruct (complete_keeps_outputs MemoryStream memory_get memory_set
              memory_get_set_same sample_stream "d1"
              (sample_build "steps/a" built) false None (of_Z 2000))
    as [H _].
  destruct (H sample_item eq_refl) as (data & Hg & Hf & Hs & _).
  exists data. repeat split; assumption.
Defined.

Lemma reports_keep_the_counts_witness :
  exists data m,
    getDeployment MemoryStream memory_get sample_stream "d1" = Some data
    /\ metadata data = Some m
    /\ totalSteps m = of_Z 1
    /\ buildedSteps m = counter is_built (build data).
Proof.
  destruct (reports_keep_the_counts MemoryStream memory_get memory_set
              memory_get_set_same [] "d1" (of_Z 1000)
              [ BuildReport (sample_build "steps/a" building);
                BuildReport (sample_build "steps/b" built) ])
    as (data & m & Hg & Hm & Ht & _ & _ & Hb & _).
  exists data, m. repeat split; assumption.
Defined.

End DeploymentStreamFacts.
